(** * libfabia: the approximate FABIA engine of [fabia_approx.c]

    A shallow embedding of [invertCholesky], [approx_estimateZ] and
    [approx_fabia_cm_f], the properties of the EM loop that the
    specification states, and what every phase of an iteration leaves in
    the arrays, entry by entry.

    Numbers.  The C code computes on [float].  The embedding is generic in
    the number type: [FloatOps] lists the operations the source applies
    (the arithmetic operators, the comparisons [<], [>=], [!=], the libm
    calls [fabs], [sqrt], [pow] and the conversion from [int]).  Theorems
    about control flow and data flow hold for every such structure, IEEE
    floats included.  Theorems about order and algebra are stated for an
    arithmetic that obeys the laws of an ordered field ([RealLaws]): there
    rounding, overflow and NaN are outside the model.  A theorem that
    holds on floats names [RealLaws] where it needs it, as the premise of
    the part that is exact arithmetic only.  The rationals [Qc] give an
    executable instance of the laws, and IEEE binary32 ([Binary32], from
    [SpecFloat]) the arithmetic of the C code, where the laws fail.

    Arrays.  A C array is a [list F]; [a !!! i] reads [a[i]] and
    [<[i:=v]> a] writes it.  A pointer into an array ([X+n*j], [Z+j*k],
    [sum1_+tid*n*k]) is the slice it addresses, written back after the
    call.  A pointer that [malloc] returned NULL is [None]; the engine
    ends in [NullDeref] where the source writes through it (k, n and l
    being positive, as section 6 of the specification has them).

    Left out: the timers and the figures of the timing report, and the
    difference between [float] and [double] in the libm calls. *)

From Stdlib Require Import ZArith Ring Field QArith Qcanon Lia SpecFloat.
From stdpp Require Import base list.

(** ** Numbers *)

Class FloatOps (F : Type) := {
  fzero : F;                       (* 0.0 *)
  fone : F;                        (* 1.0 *)
  fadd : F -> F -> F;
  fsub : F -> F -> F;
  fmul : F -> F -> F;
  fdiv : F -> F -> F;
  fneg : F -> F;
  flt : F -> F -> bool;            (* a < b *)
  fle : F -> F -> bool;            (* a <= b *)
  feq : F -> F -> bool;            (* a == b *)
  fabs : F -> F;                   (* libm fabs *)
  fsqrt : F -> F;                  (* libm sqrt *)
  fpow : F -> F -> F;              (* libm pow *)
  of_int : Z -> F;                 (* (float) of an int *)
  MACHINE_EPS : F;                 (* static const float MACHINE_EPS = 1e-7 *)
}.

Declare Scope fl_scope.
Delimit Scope fl_scope with fl.
Infix "+" := fadd : fl_scope.
Infix "-" := fsub : fl_scope.
Infix "*" := fmul : fl_scope.
Infix "/" := fdiv : fl_scope.
Notation "- x" := (fneg x) : fl_scope.
Notation "0" := fzero : fl_scope.
Notation "1" := fone : fl_scope.

(** C comparisons written with the operands the way the source has them. *)
Definition fgt `{FloatOps F} (a b : F) : bool := flt b a.   (* a > b *)
Definition fge `{FloatOps F} (a b : F) : bool := fle b a.   (* a >= b *)
Definition fne `{FloatOps F} (a b : F) : bool := negb (feq a b). (* a != b *)

Definition b2z (b : bool) : Z := if b then 1%Z else 0%Z.

(** The laws of an ordered field, for the theorems that need exact
    arithmetic: a commutative ring with inverses, a strict total order
    compatible with it, the comparisons and [fabs] defined from [<], the
    conversion of integers a morphism, and [pow] never negative on a base
    that is not negative. *)
Class RealLaws (F : Type) `{FloatOps F} : Prop := {
  fl_ring : ring_theory fzero fone fadd fmul fsub fneg (@eq F);
  fl_1_neq_0 : fone <> fzero;
  fl_div_def : forall x y, fdiv x y = fmul x (fdiv fone y);
  fl_inv_l : forall x, x <> fzero -> fmul (fdiv fone x) x = fone;
  fl_lt_irrefl : forall x, flt x x = false;
  fl_lt_trans : forall x y z, flt x y = true -> flt y z = true -> flt x z = true;
  fl_lt_total : forall x y, flt x y = false -> flt y x = false -> x = y;
  fl_lt_add_r : forall x y z, flt x y = true -> flt (fadd x z) (fadd y z) = true;
  fl_lt_mul_pos : forall x y,
    flt fzero x = true -> flt fzero y = true -> flt fzero (fmul x y) = true;
  fl_le_lt : forall x y, fle x y = negb (flt y x);
  fl_eq_spec : forall x y, feq x y = true <-> x = y;
  fl_abs_def : forall x, fabs x = if flt x fzero then fneg x else x;
  fl_of_int_1 : of_int 1 = fone;
  fl_of_int_add : forall a b, of_int (a + b) = fadd (of_int a) (of_int b);
  fl_pow_nonneg : forall x y, flt x fzero = false -> flt (fpow x y) fzero = false;
  fl_eps_pos : flt fzero MACHINE_EPS = true;
}.

(** The order read off the comparison of the source. *)
Definition Less `{FloatOps F} (x y : F) : Prop := flt x y = true.
Definition LessEq `{FloatOps F} (x y : F) : Prop := flt y x = false.
Infix "<!" := Less (at level 70) : fl_scope.
Infix "<=!" := LessEq (at level 70) : fl_scope.

(** ** Loops and memory *)

(** [for (int i = 0; i < n; ++i) body], on a loop state [S]. *)
Definition for_ {S : Type} (n : nat) (body : nat -> S -> S) (s : S) : S :=
  fold_left (fun s i => body i s) (seq 0 n) s.

(** [memset(a, 0, len*sizeof(float))]: the first [len] cells become 0.0. *)
Definition memset0 `{FloatOps F} (len : nat) (a : list F) : list F :=
  replicate len fzero ++ drop len a.

(** The [len] cells that the pointer [a+off] addresses. *)
Definition slice {A : Type} (off len : nat) (a : list A) : list A :=
  take len (drop off a).

(** Writing the cells [v] back at [a+off]. *)
Definition splice {A : Type} (off : nat) (v a : list A) : list A :=
  take off a ++ v ++ drop (off + length v) a.

(** The routines the engine calls and this file does not define:
    [spotrf] and [spotri] of LAPACK, each returning the matrix it leaves
    in [a] and the value of [info]; [rand_normal] of util.h, as the
    sequence of the values it returns; and [omp_get_thread_num], as the
    thread that runs the task of sample [j]. *)
Class Externals (F : Type) := {
  potrf : nat -> list F -> list F * Z;
  potri : nat -> list F -> list F * Z;
  rand_normal : nat -> F;
  omp_get_thread_num : nat -> nat;
}.

(** What a call can end in. *)
Inductive outcome (A : Type) : Type :=
  | Returned (a : A)      (* the function returns *)
  | AssertFailed          (* an [assert] fails: the process aborts *)
  | NullDeref.            (* a NULL pointer is written through *)
Arguments Returned {A} a.
Arguments AssertFailed {A}.
Arguments NullDeref {A}.

(** How the body of a loop ends. *)
Inductive flow : Type := Continue | Break.

(** Reading outside an array yields 0.0 in the model; the theorems bound
    every index they read. *)
#[export] Instance F_inhabited `{FloatOps F} : Inhabited F := populate fzero.

Section Engine.

Context {F : Type} {ops : FloatOps F} {ext : Externals F}.

Local Open Scope fl_scope.

(** ** BLAS and LAPACK

    [sger] with alpha = 1 and unit strides: A := x*y' + A for the n x k
    column-major matrix A. *)
Definition ger (n k : nat) (x y A : list F) : list F :=
  for_ k (fun j A =>
    for_ n (fun i A =>
      <[(i + j*n)%nat := A !!! (i + j*n)%nat + x !!! i * y !!! j]> A) A) A.

(** One entry of the product of the n x k matrix A and the k x k matrix B. *)
Definition gemm_entry (n k : nat) (A B : list F) (i j : nat) : F :=
  for_ k (fun p acc => acc + A !!! (i + p*n)%nat * B !!! (p + j*k)%nat) 0.

(** [sgemm("n","n")] with alpha = 1, beta = 0: C := A*B. *)
Definition gemm (n k : nat) (A B C : list F) : list F :=
  for_ k (fun j C =>
    for_ n (fun i C => <[(i + j*n)%nat := gemm_entry n k A B i j]> C) C) C.

(** [invertCholesky]: factor, invert, then copy the lower triangle into
    the upper one. *)
Definition symmetrise (n : nat) (a : list F) : list F :=
  for_ n (fun i1 a =>
    for_ (n - (i1 + 1)) (fun d a =>
      let i2 := (i1 + 1 + d)%nat in
      <[(i1 + i2*n)%nat := a !!! (i2 + i1*n)%nat]> a) a) a.

Definition invertCholesky (a : list F) (n : nat) : outcome (list F) :=
  let '(a, info) := potrf n a in
  if negb (info =? 0)%Z then AssertFailed else
  let '(a, info) := potri n a in
  if negb (info =? 0)%Z then AssertFailed else
  Returned (symmetrise n a).

(** ** The E-step kernel [approx_estimateZ] *)

(** Lines 66-69: the reciprocal of the diagonal, and z zeroed. *)
Definition kernel_init (k : nat) (LPsiL lapla : list F)
    (iz : list F * list F) : list F * list F :=
  for_ k (fun i '(iLPsiL, z) =>
    (<[i := 1 / (LPsiL !!! i + lapla !!! i + MACHINE_EPS)]> iLPsiL,
     <[i := 0]> z)) iz.

(** Lines 71-76: iLPsiLX and the posterior mean z. *)
Definition kernel_mean (n k : nat) (x LPsi iLPsiL : list F)
    (xz : list F * list F) : list F * list F :=
  for_ n (fun i xz =>
    for_ k (fun j '(iLPsiLX, z) =>
      let iLPsiLX := <[(i*k+j)%nat := LPsi !!! (i*k+j)%nat * iLPsiL !!! j]> iLPsiLX in
      (iLPsiLX, <[j := z !!! j + iLPsiLX !!! (i*k+j)%nat * x !!! i]> z)) xz) xz.

(** Lines 83-92: the second moments and the variational parameters. *)
Definition kernel_accum (k : nat) (z : list F) (spz lap : F)
    (s : list F * list F * list F) : list F * list F * list F :=
  for_ k (fun i '(sum2, iLPsiL, lapla) =>
    let sum2 := for_ k (fun j sum2 =>
      <[(i*k+j)%nat := sum2 !!! (i*k+j)%nat + z !!! i * z !!! j]> sum2) sum2 in
    let sum2 := <[(i*k+i)%nat := sum2 !!! (i*k+i)%nat + iLPsiL !!! i]> sum2 in
    let iLPsiL := <[i := iLPsiL !!! i + z !!! i * z !!! i]> iLPsiL in
    let s := fpow (MACHINE_EPS + iLPsiL !!! i) (- spz) in
    (sum2, iLPsiL, <[i := if flt s lap then lap else s]> lapla)) s.

(** The buffers the kernel writes: [z], [lapla], the work arrays, and the
    accumulators, [None] for a NULL pointer. *)
Record kernel_bufs := KernelBufs {
  k_z : list F;
  k_lapla : list F;
  k_iLPsiL : list F;
  k_iLPsiLX : list F;
  k_sum1 : option (list F);
  k_sum2 : option (list F);
}.

Definition approx_estimateZ (n k : nat) (x : list F) (LPsi LPsiL : list F)
    (spz lap : F) (b : kernel_bufs) : kernel_bufs :=
  let '(iLPsiL, z) := kernel_init k LPsiL (k_lapla b) (k_iLPsiL b, k_z b) in
  let '(iLPsiLX, z) := kernel_mean n k x LPsi iLPsiL (k_iLPsiLX b, z) in
  match k_sum1 b, k_sum2 b with
  | Some sum1, Some sum2 =>
      let sum1 := ger n k x z sum1 in
      let '(sum2, iLPsiL, lapla) :=
        kernel_accum k z spz lap (sum2, iLPsiL, k_lapla b) in
      KernelBufs z lapla iLPsiL iLPsiLX (Some sum1) (Some sum2)
  | _, _ => KernelBufs z (k_lapla b) iLPsiL iLPsiLX (k_sum1 b) (k_sum2 b)
  end.

(** The posterior precision and mean the way section 4.3 of the
    specification writes them: iLPsiL[i] = 1/(LPsiL[i] + lap_j[i] +
    MACHINE_EPS) and z[j] = sum over i of LPsi[j,i] * iLPsiL[j] * x[i],
    the sum taken in the order of i. *)
Definition precision (LPsiL lap_j : list F) (i : nat) : F :=
  1 / (LPsiL !!! i + lap_j !!! i + MACHINE_EPS).

Definition posterior_mean (n k : nat) (x LPsi LPsiL lap_j : list F) (j : nat) : F :=
  for_ n (fun i acc =>
    acc + LPsi !!! (i*k+j)%nat * precision LPsiL lap_j j * x !!! i) 0.

(** The sum of the first [m] terms of z[j], with the reciprocals read from
    the array. *)
Definition mean_upto (k : nat) (x LPsi iLPsiL : list F) (m j : nat) : F :=
  for_ m (fun i acc => acc + LPsi !!! (i*k+j)%nat * iLPsiL !!! j * x !!! i) 0.

(** ** Symmetric positive-definite matrices

    A k x k matrix is given by its entries [m i j]; for an array [a] the
    entry (i,j) is [a !!! (i*k+j)] (a symmetric matrix reads the same in
    row-major and column-major order).  A vector is given by its
    components. *)
Definition fsum (m : nat) (f : nat -> F) : F := for_ m (fun i acc => acc + f i) 0.

Definition qf (k : nat) (m : nat -> nat -> F) (v : nat -> F) : F :=
  fsum k (fun i => fsum k (fun j => v i * m i j * v j)).

Definition sym (k : nat) (m : nat -> nat -> F) : Prop :=
  forall i j, i < k -> j < k -> m i j = m j i.

Definition psd (k : nat) (m : nat -> nat -> F) : Prop :=
  forall v, 0 <=! qf k m v.

Definition pd (k : nat) (m : nat -> nat -> F) : Prop :=
  forall v, (exists i, i < k /\ v i <> 0) -> 0 <! qf k m v.

Definition entries (k : nat) (a : list F) : nat -> nat -> F :=
  fun i j => a !!! (i*k + j)%nat.

Definition spd (k : nat) (a : list F) : Prop :=
  sym k (entries k a) /\ pd k (entries k a).

(** The update of lines 84-87 as a matrix: m + z z' + diag(d). *)
Definition accumulated (m : nat -> nat -> F) (z d : nat -> F) : nat -> nat -> F :=
  fun i j => if decide (i = j) then m i j + z i * z j + d i else m i j + z i * z j.

(** The k x k matrix that thread [tid] accumulates in sum2_. *)
Definition block (k : nat) (a : list F) (tid : nat) : nat -> nat -> F :=
  fun i j => a !!! (tid*k*k + (i*k + j))%nat.

(** The cell i of the first buffer after the reduction of lines 205-211:
    the cells i of the other buffers added to it in the order of tid. *)
Definition reduced_cell (len nthreads : nat) (a : list F) (i : nat) : F :=
  for_ (nthreads - 1) (fun d acc => acc + a !!! (i + (1 + d)*len)%nat) (a !!! i).

(** What LAPACK promises in exact arithmetic: on a symmetric
    positive-definite matrix [spotrf] returns info = 0, and so does
    [spotri] on the factor it left. *)
Definition lapack_exact (k : nat) : Prop :=
  forall a, spd k a ->
    (potrf k a).2 = 0%Z /\ (potri k (potrf k a).1).2 = 0%Z.

(** ** The engine [approx_fabia_cm_f] *)

(** What the engine prints, and its calls of the progress collaborator. *)
Inductive event : Type :=
  | Out_of_memory                          (* line 132 *)
  | Bailing_out (t eps : F)                (* line 259 *)
  | Reset_clusters (iter : Z) (nreset : nat) (* line 300 *)
  | UpdateUI (iter : Z)                    (* line 303 *)
  | Timing_report.                         (* line 332 *)

(** Lines 162-168: the mean square of every feature. *)
Definition compute_XX (n l : nat) (X XX : list F) : list F :=
  let XX := memset0 n XX in
  let XX := for_ l (fun i1 XX =>
    for_ n (fun i2 XX =>
      <[i2 := XX !!! i2 + X !!! (i2 + i1*n)%nat * X !!! (i2 + i1*n)%nat]> XX) XX) XX in
  for_ n (fun i2 XX => <[i2 := XX !!! i2 / of_int (Z.of_nat l)]> XX) XX.

(** Lines 175-181 (and 310-316): LPsi = (diag(1/Psi) L)' and the diagonal
    of L' diag(1/Psi) L. *)
Definition prelude (n k : nat) (L Psi : list F)
    (s : list F * list F) : list F * list F :=
  for_ k (fun i1 '(LPsi, LPsiL) =>
    let LPsiL := <[i1 := 0]> LPsiL in
    for_ n (fun i2 '(LPsi, LPsiL) =>
      let LPsi := <[(i2*k + i1)%nat := L !!! (i2 + i1*n)%nat / Psi !!! i2]> LPsi in
      (LPsi,
       <[i1 := LPsiL !!! i1 + L !!! (i2 + i1*n)%nat * LPsi !!! (i2*k + i1)%nat]> LPsiL))
      (LPsi, LPsiL)) s.

(** Lines 188-189: the diagonal of the first k x k block of sum2_. *)
Definition init_sum2 (k : nat) (eps : F) (sum2_ : list F) : list F :=
  for_ k (fun i sum2_ => <[(i*k + i)%nat := eps]> sum2_) sum2_.

(** The arrays the sample loop writes. *)
Record estep_bufs := EstepBufs {
  e_Z : list F;
  e_lapla : list F;
  e_iLPsiL_ : list F;
  e_iLPsiLX_ : list F;
  e_sum1_ : list F;
  e_sum2_ : list F;
}.

(** Lines 194-199 (with [accumulate]) and 320-324 (without: the kernel gets
    NULL for sum1 and sum2): the task of sample [j]. *)
Definition estep_sample (n k : nat) (X LPsi LPsiL : list F) (spz lap : F)
    (accumulate : bool) (j : nat) (e : estep_bufs) : estep_bufs :=
  let tid := omp_get_thread_num j in
  let b := approx_estimateZ n k (slice (n*j) n X) LPsi LPsiL spz lap
    (KernelBufs (slice (j*k) k (e_Z e)) (slice (j*k) k (e_lapla e))
       (slice (tid*k) k (e_iLPsiL_ e))
       (slice (tid*n*k) (n*k) (e_iLPsiLX_ e))
       (if accumulate then Some (slice (tid*n*k) (n*k) (e_sum1_ e)) else None)
       (if accumulate then Some (slice (tid*k*k) (k*k) (e_sum2_ e)) else None)) in
  EstepBufs (splice (j*k) (k_z b) (e_Z e))
    (splice (j*k) (k_lapla b) (e_lapla e))
    (splice (tid*k) (k_iLPsiL b) (e_iLPsiL_ e))
    (splice (tid*n*k) (k_iLPsiLX b) (e_iLPsiLX_ e))
    (match k_sum1 b with
     | Some s => splice (tid*n*k) s (e_sum1_ e) | None => e_sum1_ e end)
    (match k_sum2 b with
     | Some s => splice (tid*k*k) s (e_sum2_ e) | None => e_sum2_ e end).

(** Lines 193-200 and 319-325.  The tasks of the parallel loop write
    disjoint cells of Z and lapla and the buffers of their own thread, so
    the loop is run in the order of j. *)
Definition estep (n k l : nat) (X LPsi LPsiL : list F) (spz lap : F)
    (accumulate : bool) (e : estep_bufs) : estep_bufs :=
  for_ l (estep_sample n k X LPsi LPsiL spz lap accumulate) e.

(** Lines 205-211: the buffers of the threads summed into the first one. *)
Definition reduce (len nthreads : nat) (a : list F) : list F :=
  for_ len (fun i a =>
    for_ (nthreads - 1) (fun d a =>
      let tid := (1 + d)%nat in
      <[i := a !!! i + a !!! (i + tid*len)%nat]> a) a) a.

(** Lines 221-230 for one entry [s] of L, with [psi] the entry of Psi of
    its row. *)
Definition non_negative : Z := 0.

Definition shrink_threshold (psi alpha spl s : F) : F :=
  fabs (psi * alpha * fpow (MACHINE_EPS + fabs s) (- spl)).

Definition sign (s : F) : F := of_int (b2z (fgt s 0) - b2z (flt s 0)).

Definition shrink_entry (psi alpha spl s : F) : F :=
  let sgn := sign s in
  if (non_negative <=? 0)%Z || fgt sgn 0 then
    let t := shrink_threshold psi alpha spl s in
    if fgt (fabs s) t then s - sgn * t else 0
  else 0.

(** Lines 219-232. *)
Definition shrink (n k : nat) (Psi : list F) (alpha spl : F) (L : list F) : list F :=
  for_ k (fun i2 L =>
    for_ n (fun i1 L =>
      <[(i1 + n*i2)%nat :=
          shrink_entry (Psi !!! i1) alpha spl (L !!! (i1 + n*i2)%nat)]> L) L) L.

(** Line 240-243: d[i1], the diagonal entry of L sum1'. *)
Definition residual (n k : nat) (L sum1_ : list F) (i1 : nat) : F :=
  for_ k (fun i2 s => s + L !!! (i1 + i2*n)%nat * sum1_ !!! (i1 + i2*n)%nat) 0.

(** Lines 238-250: the new Psi and t, the largest |d[i1]| seen. *)
Definition update_Psi (n k l : nat) (L sum1_ XX : list F) (eps : F)
    (Psi : list F) : list F * F :=
  for_ n (fun i1 '(Psi, t) =>
    let s := residual n k L sum1_ i1 in
    let t := if fgt (fabs s) t then fabs s else t in
    let Psi := <[i1 := XX !!! i1 - s / of_int (Z.of_nat l)]> Psi in
    let Psi := if flt (Psi !!! i1) eps then <[i1 := eps]> Psi else Psi in
    (Psi, t)) (Psi, 0).

(** What [update_Psi] leaves, entry by entry: t is the running maximum of
    the |d[i1]| from 0.0, and Psi[i1] is XX[i1] - d[i1]/l raised to eps. *)
Definition max_abs_residual (n k : nat) (L sum1_ : list F) : F :=
  for_ n (fun i1 t =>
    let s := residual n k L sum1_ i1 in
    if fgt (fabs s) t then fabs s else t) 0.

Definition new_Psi (n k l : nat) (L sum1_ XX : list F) (eps : F) (i1 : nat) : F :=
  let v := XX !!! i1 - residual n k L sum1_ i1 / of_int (Z.of_nat l) in
  if flt v eps then eps else v.

(** Every entry of the first [m] is at least [floor], by the [>=] of C. *)
Definition floored (m : nat) (floor : F) (a : list F) : Prop :=
  forall i, i < m -> fge (a !!! i) floor = true.

(** No entry of the first [m] is below [floor]: the test [a[i] < floor] of
    the source is false.  On floats that is [a[i] >= floor] or [a[i]] NaN;
    under [RealLaws] it is [floored]. *)
Definition not_below (m : nat) (floor : F) (a : list F) : Prop :=
  forall i, i < m -> flt (a !!! i) floor = false.

(** Lines 252-258: Psi and lapla flattened to eps. *)
Definition collapse_Psi (n : nat) (eps : F) (Psi : list F) : list F :=
  for_ n (fun i1 Psi => <[i1 := eps]> Psi) Psi.

Definition collapse_lapla (k l : nat) (eps : F) (lapla : list F) : list F :=
  for_ l (fun j lapla =>
    for_ k (fun i1 lapla => <[(j*k + i1)%nat := eps]> lapla) lapla) lapla.

(** Lines 264-277: every column of L scaled to unit mean square, and the
    rows of lapla scaled with it. *)
Definition rescale (n k l : nat) (spz : F)
    (s : list F * list F) : list F * list F :=
  for_ k (fun i '(L, lapla) =>
    let s := for_ n (fun j s => s + L !!! (i*n + j)%nat * L !!! (i*n + j)%nat) 0 in
    let s := 1 / (fsqrt (s / of_int (Z.of_nat n)) + MACHINE_EPS) in
    let L := for_ n (fun j L => <[(i*n + j)%nat := L !!! (i*n + j)%nat * s]> L) L in
    let s := fpow (s * s) (- spz) in
    (L, for_ l (fun j lapla =>
          <[(j*k + i)%nat := lapla !!! (j*k + i)%nat * s]> lapla) lapla)) s.

(** Lines 283-289: the loop leaves at the first non-zero entry. *)
Definition isZero (n : nat) (L : list F) (i : nat) : bool :=
  forallb (fun j => negb (fne (L !!! (j + i*n)%nat) 0)) (seq 0 n).

(** Lines 281-298: all-zero columns are drawn anew.  The loop state is L,
    lapla, the number of values drawn so far and nreset. *)
Definition reset (n k l : nat)
    (s : list F * list F * nat * nat) : list F * list F * nat * nat :=
  for_ k (fun i '(L, lapla, rng, nreset) =>
    if isZero n L i then
      let '(L, rng) := for_ n (fun j '(L, rng) =>
        (<[(i*n + j)%nat := rand_normal rng]> L, S rng)) (L, rng) in
      (L, for_ l (fun j lapla => <[(j*k + i)%nat := 1]> lapla) lapla,
       rng, S nreset)
    else (L, lapla, rng, nreset)) s.

(** The variables that live across iterations. *)
Record state := State {
  st_Psi : list F;
  st_L : list F;
  st_Z : list F;
  st_lapla : list F;
  st_sum1_ : list F;
  st_sum2_ : list F;
  st_LPsi : list F;
  st_LPsiL : list F;
  st_iLPsiL_ : list F;
  st_iLPsiLX_ : list F;
  st_t : F;
  st_rng : nat;
  st_out : list event;
}.

(** The parameters of a call that stay fixed. *)
Record params := Params {
  p_k : nat; p_n : nat; p_l : nat;
  p_X : list F;
  p_cyc : Z;
  p_alpha : F; p_eps : F; p_spl : F; p_spz : F;
  p_scale : Z;
  p_lap : F;                  (* after line 160 *)
  p_verbose : Z;
  p_nthreads : nat;
  p_XX : list F;              (* after line 168 *)
}.

(** Lines 175-216: the scratch arrays before the Cholesky call. *)
Definition estep_phase (p : params) (st : state) : state :=
  let '(LPsi, LPsiL) :=
    prelude (p_n p) (p_k p) (st_L st) (st_Psi st) (st_LPsi st, st_LPsiL st) in
  let sum1_ := memset0 (p_nthreads p * p_n p * p_k p) (st_sum1_ st) in
  let sum2_ := memset0 (p_nthreads p * p_k p * p_k p) (st_sum2_ st) in
  let sum2_ := init_sum2 (p_k p) (p_eps p) sum2_ in
  let e := estep (p_n p) (p_k p) (p_l p) (p_X p) LPsi LPsiL (p_spz p) (p_lap p) true
    (EstepBufs (st_Z st) (st_lapla st) (st_iLPsiL_ st) (st_iLPsiLX_ st) sum1_ sum2_) in
  let sum1_ := reduce (p_n p * p_k p) (p_nthreads p) (e_sum1_ e) in
  let sum2_ := reduce (p_k p * p_k p) (p_nthreads p) (e_sum2_ e) in
  State (st_Psi st) (st_L st) (e_Z e) (e_lapla e) sum1_ sum2_ LPsi LPsiL
    (e_iLPsiL_ e) (e_iLPsiLX_ e) (st_t st) (st_rng st) (st_out st).

(** Lines 213-250: the inverse, the new L, its shrinkage, the new Psi. *)
Definition mstep_phase (p : params) (st : state) : outcome state :=
  match invertCholesky (st_sum2_ st) (p_k p) with
  | Returned sum2_ =>
      let L := gemm (p_n p) (p_k p) (st_sum1_ st) sum2_ (st_L st) in
      let L := shrink (p_n p) (p_k p) (st_Psi st) (p_alpha p) (p_spl p) L in
      let '(Psi, t) :=
        update_Psi (p_n p) (p_k p) (p_l p) L (st_sum1_ st) (p_XX p) (p_eps p) (st_Psi st) in
      Returned (State Psi L (st_Z st) (st_lapla st) (st_sum1_ st) sum2_
        (st_LPsi st) (st_LPsiL st) (st_iLPsiL_ st) (st_iLPsiLX_ st) t
        (st_rng st) (st_out st))
  | AssertFailed => AssertFailed
  | NullDeref => NullDeref
  end.

(** Lines 251-261: the exit on collapse. *)
Definition collapse (p : params) (st : state) : state :=
  State (collapse_Psi (p_n p) (p_eps p) (st_Psi st)) (st_L st) (st_Z st)
    (collapse_lapla (p_k p) (p_l p) (p_eps p) (st_lapla st))
    (st_sum1_ st) (st_sum2_ st) (st_LPsi st) (st_LPsiL st)
    (st_iLPsiL_ st) (st_iLPsiLX_ st) (st_t st) (st_rng st)
    (st_out st ++ [Bailing_out (st_t st) (p_eps p)]).

(** Lines 263-304: rescale, reset, progress. *)
Definition tail_phase (p : params) (iter : Z) (st : state) : state :=
  let '(L, lapla) :=
    if negb (p_scale p =? 0)%Z
    then rescale (p_n p) (p_k p) (p_l p) (p_spz p) (st_L st, st_lapla st)
    else (st_L st, st_lapla st) in
  let '(L, lapla, rng, nreset) :=
    reset (p_n p) (p_k p) (p_l p) (L, lapla, st_rng st, O) in
  let out := st_out st ++
    (if negb (nreset =? 0)%nat then [Reset_clusters iter nreset] else []) ++
    (if negb (p_verbose p =? 0)%Z && (Z.rem iter (p_verbose p) =? 0)%Z
     then [UpdateUI iter] else []) in
  State (st_Psi st) L (st_Z st) lapla (st_sum1_ st) (st_sum2_ st)
    (st_LPsi st) (st_LPsiL st) (st_iLPsiL_ st) (st_iLPsiLX_ st) (st_t st) rng out.

(** The body of the loop of line 173.  [scratch_ok] says that none of
    sum1_, sum2_, LPsi and LPsiL is NULL: the body writes all four. *)
Definition em_iteration (p : params) (scratch_ok : bool) (iter : Z)
    (st : state) : outcome (state * flow) :=
  if negb scratch_ok then NullDeref else
  match mstep_phase p (estep_phase p st) with
  | Returned st =>
      if flt (st_t st) (p_eps p) then Returned (collapse p st, Break)
      else Returned (tail_phase p iter st, Continue)
  | AssertFailed => AssertFailed
  | NullDeref => NullDeref
  end.

(** [for (iter = ...; iter <= cyc; ++iter)] with [fuel] iterations left. *)
Fixpoint em_loop (p : params) (scratch_ok : bool) (fuel : nat) (iter : Z)
    (st : state) : outcome state :=
  match fuel with
  | O => Returned st
  | S fuel =>
      match em_iteration p scratch_ok iter st with
      | Returned (st, Break) => Returned st
      | Returned (st, Continue) => em_loop p scratch_ok fuel (iter + 1)%Z st
      | AssertFailed => AssertFailed
      | NullDeref => NullDeref
      end
  end.

(** What the caller gets back: the four in/out arrays and the output. *)
Record result := Result {
  r_Psi : list F;
  r_L : list F;
  r_Z : list F;
  r_lapla : list F;
  r_out : list event;
}.

(** Lines 308-335.  [lpsi_ok] says that LPsi and LPsiL are not NULL. *)
Definition last_update (p : params) (lpsi_ok : bool) (st : state) : outcome result :=
  if fge (st_t st) (p_eps p) then
    if negb lpsi_ok then NullDeref else
    let '(LPsi, LPsiL) :=
      prelude (p_n p) (p_k p) (st_L st) (st_Psi st) (st_LPsi st, st_LPsiL st) in
    let e := estep (p_n p) (p_k p) (p_l p) (p_X p) LPsi LPsiL (p_spz p) (p_lap p) false
      (EstepBufs (st_Z st) (st_lapla st) (st_iLPsiL_ st) (st_iLPsiLX_ st)
         (st_sum1_ st) (st_sum2_ st)) in
    Returned (Result (st_Psi st) (st_L st) (e_Z e) (e_lapla e)
      (st_out st ++ [Timing_report]))
  else
    Returned (Result (st_Psi st) (st_L st)
      (memset0 (p_k p * p_l p) (st_Z st)) (st_lapla st)
      (st_out st ++ [Timing_report])).

(** The seven blocks of lines 119-125: [None] when [malloc] returned NULL,
    else the block with whatever it holds.  (The array Z of the source is
    [Zs] below, [Z] being the type of the integers.) *)
Record allocation := Allocation {
  a_sum1_ : option (list F);
  a_sum2_ : option (list F);
  a_XX : option (list F);
  a_LPsi : option (list F);
  a_LPsiL : option (list F);
  a_iLPsiL_ : option (list F);
  a_iLPsiLX_ : option (list F);
}.

(** The loop starts from the caller's arrays, with t = 0.0 (line 172), lap
    raised to eps (lines 159-160), XX computed and iLPsiL_ zeroed. *)
Definition start_params (k n l : nat) (X : list F) (cyc : Z)
    (alpha eps spl spz : F) (scale : Z) (lap : F) (verbose : Z)
    (nthreads : nat) (XX : list F) : params :=
  Params k n l X cyc alpha eps spl spz scale
    (if flt lap eps then eps else lap) verbose nthreads (compute_XX n l X XX).

Definition start_state (k nthreads : nat) (Psi L Zs lapla : list F)
    (m : allocation) (iLPsiL_ iLPsiLX_ : list F) : state :=
  State Psi L Zs lapla
    (default [] (a_sum1_ m)) (default [] (a_sum2_ m))
    (default [] (a_LPsi m)) (default [] (a_LPsiL m))
    (memset0 (nthreads * k) iLPsiL_) iLPsiLX_ 0 O [].

Definition lpsi_ok (m : allocation) : bool :=
  bool_decide (is_Some (a_LPsi m) /\ is_Some (a_LPsiL m)).

Definition scratch_ok (m : allocation) : bool :=
  bool_decide (is_Some (a_sum1_ m) /\ is_Some (a_sum2_ m)) && lpsi_ok m.

Definition approx_fabia_cm_f (k n l : nat) (X Psi L Zs lapla : list F)
    (cyc : Z) (alpha eps spl spz : F) (scale : Z) (lap : F) (verbose : Z)
    (nthreads : nat) (m : allocation) : outcome result :=
  match a_iLPsiLX_ m with
  | None =>                   (* lines 131-142 *)
      Returned (Result Psi (memset0 (n*k) L) (memset0 (k*l) Zs) lapla [Out_of_memory])
  | Some iLPsiLX_ =>
      match a_XX m, a_iLPsiL_ m with
      | Some XX, Some iLPsiL_ =>
          let p := start_params k n l X cyc alpha eps spl spz scale lap verbose
                     nthreads XX in
          let st := start_state k nthreads Psi L Zs lapla m iLPsiL_ iLPsiLX_ in
          match em_loop p (scratch_ok m) (Z.to_nat cyc) 1%Z st with
          | Returned st => last_update p (lpsi_ok m) st
          | AssertFailed => AssertFailed
          | NullDeref => NullDeref
          end
      | _, _ => NullDeref     (* lines 162 and 170 write through NULL *)
      end
  end.

(** ** The contract of the Cholesky call

    The buffers of sum2_: every thread's matrix symmetric and positive
    semi-definite, the first one positive-definite. *)
Definition sums_spd (k nthreads : nat) (sum2_ : list F) : Prop :=
  (forall tid, tid < nthreads ->
     sym k (block k sum2_ tid) /\ psd k (block k sum2_ tid)) /\
  pd k (block k sum2_ 0).

(** The parameters: eps positive, lap not negative (it is at least eps
    after line 160), at least one thread, and every task run by one of the
    nthreads threads. *)
Definition good_params (p : params) : Prop :=
  0 <! p_eps p /\ 0 <=! p_lap p /\ 1 <= p_nthreads p /\
  forall j, j < p_l p -> omp_get_thread_num j < p_nthreads p.

(** The state at the head of an iteration: the arrays have their declared
    sizes, Psi is positive and lapla is not negative. *)
Definition well_formed (p : params) (st : state) : Prop :=
  length (st_Psi st) = p_n p /\
  length (st_Z st) = (p_k p * p_l p)%nat /\
  length (st_lapla st) = (p_k p * p_l p)%nat /\
  length (st_LPsi st) = (p_n p * p_k p)%nat /\
  length (st_LPsiL st) = p_k p /\
  length (st_iLPsiL_ st) = (p_nthreads p * p_k p)%nat /\
  (forall i, i < p_n p -> 0 <! st_Psi st !!! i) /\
  (forall i, i < p_k p * p_l p -> 0 <=! st_lapla st !!! i).

(** ** What the loops leave, entry by entry *)

(** Lines 88-91 for one factor: the variational parameter computed from
    the reciprocal [d] and the mean [z] of that factor. *)
Definition variational (spz lap d z : F) : F :=
  let s := fpow (MACHINE_EPS + (d + z * z)) (- spz) in
  if flt s lap then lap else s.

(** Lines 163-168 for one feature. *)
Definition mean_square (n l : nat) (X : list F) (i2 : nat) : F :=
  for_ l (fun i1 s => s + X !!! (i2 + i1*n)%nat * X !!! (i2 + i1*n)%nat) 0
    / of_int (Z.of_nat l).

(** Lines 176-180 for one factor: the diagonal entry of L' diag(1/Psi) L. *)
Definition weighted_norm (n : nat) (L Psi : list F) (i1 : nat) : F :=
  for_ n (fun i2 s =>
    s + L !!! (i2 + i1*n)%nat * (L !!! (i2 + i1*n)%nat / Psi !!! i2)) 0.

(** Lines 265-269 for one column of L: its mean square, and the factor
    of the rescale. *)
Definition column_mean_square (n : nat) (L : list F) (i : nat) : F :=
  for_ n (fun j s => s + L !!! (i*n + j)%nat * L !!! (i*n + j)%nat) 0
    / of_int (Z.of_nat n).

Definition column_scale (n : nat) (L : list F) (i : nat) : F :=
  1 / (fsqrt (column_mean_square n L i) + MACHINE_EPS).

(** The value of nreset after the first [m] columns of line 282. *)
Definition dead_columns (n : nat) (L : list F) (m : nat) : nat :=
  for_ m (fun i c => if isZero n L i then S c else c) O.

(** The events the loop of a call with the parameters k, eps and verbose
    can add to the output: a call of the progress collaborator at an
    iteration that verbose divides, a reset of at least one and at most k
    columns, the diagnostic of the collapse with t below eps; each at an
    iteration between [lo] and [hi]. *)
Definition loop_event (k : nat) (eps : F) (verbose : Z) (lo hi : Z)
    (e : event) : Prop :=
  match e with
  | UpdateUI iter =>
      verbose <> 0%Z /\ Z.rem iter verbose = 0%Z /\ (lo <= iter <= hi)%Z
  | Reset_clusters iter nreset => 1 <= nreset <= k /\ (lo <= iter <= hi)%Z
  | Bailing_out t e => e = eps /\ flt t eps = true /\ (lo <= hi)%Z
  | Out_of_memory => False
  | Timing_report => False
  end.

(** Lines 66-76 on the sample j, for the factor i: the reciprocal
    iLPsiL[i] and the entry z[i] = E(z|x), from L, Psi and lapla. *)
Definition sample_precision (n k : nat) (L Psi lapla : list F) (j i : nat) : F :=
  1 / (weighted_norm n L Psi i + lapla !!! (j*k + i)%nat + MACHINE_EPS).

Definition expected_z (n k : nat) (X L Psi lapla : list F) (j i : nat) : F :=
  for_ n (fun i2 acc =>
    acc + L !!! (i2 + i*n)%nat / Psi !!! i2 * sample_precision n k L Psi lapla j i
          * X !!! (n*j + i2)%nat) 0.

(** What the thread [tid] has added to one cell of its buffer after the
    tasks of the first [m] samples, the task of sample j adding [g j]. *)
Definition thread_sum (m tid : nat) (g : nat -> F) (init : F) : F :=
  for_ m (fun j a => if decide (omp_get_thread_num j = tid) then a + g j else a) init.

(** The four in/out arrays have the sizes that the header of the engine
    declares. *)
Definition sized (k n l : nat) (Psi L Zs lapla : list F) : Prop :=
  length Psi = n /\ length L = (n*k)%nat /\
  length Zs = (k*l)%nat /\ length lapla = (k*l)%nat.


End Engine.

(** ** The rationals as an instance

    [Qc] with its exact operations.  [sqrt] is exact on the squares of
    rationals and [pow] on integer exponents, the only ones the examples
    below use; elsewhere they return a rational of the right sign. *)
Module QcArith.

Local Open Scope Qc_scope.

Definition ltb (a b : Qc) : bool :=
  match a ?= b with Lt => true | _ => false end.

Definition sqrt (q : Qc) : Qc :=
  Q2Qc (Qmake (Z.sqrt (Qnum q)) (Z.to_pos (Z.sqrt (Zpos (Qden q))))).

Definition pow (x y : Qc) : Qc :=
  match Qden y with
  | xH => match Qnum y with
          | Zneg e => / (x ^ Pos.to_nat e)
          | e => x ^ Z.to_nat e
          end
  | _ => 1
  end.

#[export] Instance ops : FloatOps Qc := {|
  fzero := 0;
  fone := 1;
  fadd := Qcplus;
  fsub := Qcminus;
  fmul := Qcmult;
  fdiv := Qcdiv;
  fneg := Qcopp;
  flt := ltb;
  fle := fun a b => negb (ltb b a);
  feq := Qc_eq_bool;
  fabs := fun x => if ltb x 0 then - x else x;
  fsqrt := sqrt;
  fpow := pow;
  of_int := fun z => Q2Qc (inject_Z z);
  MACHINE_EPS := Q2Qc (Qmake 1 10000000);
|}.

Lemma ltb_lt (a b : Qc) : ltb a b = true <-> a < b.
Proof.
  unfold ltb. rewrite Qclt_alt. destruct (a ?= b); split; congruence.
Qed.

Lemma ltb_ge (a b : Qc) : ltb a b = false <-> b <= a.
Proof.
  rewrite Qcle_ngt, <- ltb_lt. destruct (ltb a b); intuition congruence.
Qed.

Lemma inv_nonneg (q : Qc) : 0 <= q -> 0 <= / q.
Proof.
  intros Hq. destruct (Qcle_lt_or_eq _ _ Hq) as [Hlt | <-].
  - apply Qclt_le_weak, Qcinv_pos, Hlt.
  - apply Qcle_refl.
Qed.

Lemma pow_nonneg (x y : Qc) : 0 <= x -> 0 <= pow x y.
Proof.
  intros Hx. unfold pow.
  destruct (Qden y); try (apply Qclt_le_weak; reflexivity).
  destruct (Qnum y).
  - apply Qcpower_pos, Hx.
  - apply Qcpower_pos, Hx.
  - apply inv_nonneg, Qcpower_pos, Hx.
Qed.

#[export] Instance laws : RealLaws Qc.
Proof.
  constructor.
  - exact Qcrt.
  - exact Q_apart_0_1.
  - intros x y. simpl. unfold Qcdiv. rewrite Qcmult_1_l. reflexivity.
  - intros x Hx. simpl. unfold Qcdiv. rewrite Qcmult_1_l. apply Qcmult_inv_l, Hx.
  - intros x. simpl. apply ltb_ge, Qcle_refl.
  - intros x y z. simpl. rewrite !ltb_lt. apply Qclt_trans.
  - intros x y. simpl. rewrite !ltb_ge. intros Hyx Hxy. apply Qcle_antisym; assumption.
  - intros x y z. simpl. rewrite !ltb_lt. apply Qcplus_lt_mono_r.
  - intros x y. simpl. rewrite !ltb_lt. apply Qcmult_pos_pos.
  - reflexivity.
  - intros x y. simpl. split.
    + apply Qc_eq_bool_correct.
    + intros ->. unfold Qc_eq_bool. destruct (Qcanon.Qc_eq_dec y y); [reflexivity | congruence].
  - reflexivity.
  - apply Qc_is_canon. reflexivity.
  - intros a b. simpl. apply Qc_is_canon. simpl.
    rewrite !Qred_correct, inject_Z_plus. reflexivity.
  - intros x y. simpl. rewrite !ltb_ge. apply pow_nonneg.
  - reflexivity.
Qed.

End QcArith.

(** ** Concrete runs

    One feature, one sample, one factor, one thread, over the rationals.
    In exact arithmetic [spotrf] followed by [spotri] turns a positive
    definite matrix into its inverse and [spotrf] reports info = 1 on a
    1 x 1 matrix that is not positive; the Cholesky factor of [a] is
    irrational in general, so here [potrf] leaves [a] in place and [potri]
    inverts it.  Both touch the first cell of the array only. *)
Module Example.

Import QcArith.
Local Open Scope Qc_scope.

Definition potrf_1x1 (n : nat) (a : list Qc) : list Qc * Z :=
  match a with
  | x :: _ => (a, if ltb 0 x then 0%Z else 1%Z)
  | [] => (a, (-1)%Z)
  end.

Definition potri_1x1 (n : nat) (a : list Qc) : list Qc * Z :=
  match a with
  | x :: r => (/ x :: r, 0%Z)
  | [] => (a, (-1)%Z)
  end.

#[export] Instance ext : Externals Qc := {|
  potrf := potrf_1x1;
  potri := potri_1x1;
  rand_normal := fun _ => 1;
  omp_get_thread_num := fun _ => O;
|}.

Definition q (a : Z) (b : positive) : Qc := Q2Qc (Qmake a b).

(** Seven successful allocations of one cell each. *)
Definition scratch : allocation :=
  Allocation (Some [q 0 1]) (Some [q 0 1]) (Some [q 0 1]) (Some [q 0 1])
    (Some [q 0 1]) (Some [q 0 1]) (Some [q 0 1]).

(** X = Psi = L = lapla = 1, eps = 1/1000, lap = 1, spz = 1, alpha = 0,
    scale = 1: the first iteration completes. *)
Definition p_scaled : params :=
  start_params 1 1 1 [q 1 1] 1%Z (q 0 1) (q 1 1000) (q 0 1) (q 1 1) 1%Z (q 1 1)
    0%Z 1 [q 0 1].

Definition st_scaled : state :=
  start_state 1 1 [q 1 1] [q 1 1] [q 0 1] [q 1 1] scratch [q 0 1] [q 0 1].



(** Buffers of a kernel call on one sample, with and without a scale. *)
Definition bufs : kernel_bufs :=
  KernelBufs [q 0 1] [q 1 1] [q 0 1] [q 0 1] None None.

(** Buffers of a kernel call with accumulators, for two features and one
    factor. *)
Definition bufs_acc : kernel_bufs :=
  KernelBufs [q 0 1] [q 1 1] [q 0 1] [q 0 1; q 0 1]
    (Some [q 5 1; q 7 1]) (Some [q 2 1]).

(** The run with X = 1 after the M-step of its first iteration. *)
Definition st_scaled_M : state :=
  match mstep_phase p_scaled (estep_phase p_scaled st_scaled) with
  | Returned st => st
  | _ => st_scaled
  end.

(** A state at the exit of the loop with t = 1, and what the final pass
    returns for it. *)
Definition st_done : state :=
  State [q 1 1] [q 1 1] [q 0 1] [q 1 1] [q 0 1] [q 0 1] [q 0 1] [q 0 1]
    [q 0 1] [q 0 1] (q 1 1) O [].

Definition r_done : result :=
  match last_update p_scaled true st_done with
  | Returned r => r
  | _ => Result [] [] [] [] []
  end.


(** What the engine returns on X = Psi = L = lapla = 1 after one cycle,
    with verbose = 1. *)
Definition r_engine : result :=
  match approx_fabia_cm_f 1 1 1 [q 1 1] [q 1 1] [q 1 1] [q 0 1] [q 1 1] 1%Z
          (q 0 1) (q 1 1000) (q 0 1) (q 1 1) 1%Z (q 1 1) 1%Z 1 scratch with
  | Returned r => r
  | _ => Result [] [] [] [] []
  end.

(** Allocations of which the first, or the last, failed. *)
Definition scratch_no_sum1 : allocation :=
  Allocation None (Some [q 0 1]) (Some [q 0 1]) (Some [q 0 1])
    (Some [q 0 1]) (Some [q 0 1]) (Some [q 0 1]).

Definition scratch_no_last : allocation :=
  Allocation (Some [q 0 1]) (Some [q 0 1]) (Some [q 0 1]) (Some [q 0 1])
    (Some [q 0 1]) (Some [q 0 1]) None.

(** Two samples on two threads, sample j on thread j: X = (1, 2), with one
    feature and one factor. *)
Definition ext_two : Externals Qc := {|
  potrf := potrf_1x1;
  potri := potri_1x1;
  rand_normal := fun _ => 1;
  omp_get_thread_num := fun j => j;
|}.

Definition p_two : params :=
  start_params 1 1 2 [q 1 1; q 2 1] 1%Z (q 0 1) (q 1 1000) (q 0 1) (q 1 1) 1%Z
    (q 1 1) 0%Z 2 [q 0 1].

Definition st_two : state :=
  State [q 1 1] [q 1 1] [q 0 1; q 0 1] [q 1 1; q 1 1] [q 0 1; q 0 1]
    [q 0 1; q 0 1] [q 0 1] [q 0 1] [q 0 1; q 0 1] [q 0 1; q 0 1] (q 0 1) O [].

End Example.

(** ** IEEE binary32 as an instance

    The [float] of the C code: 24 bits of precision, exponents up to 128,
    rounding to nearest even, with infinities and NaN, as [SpecFloat]
    computes them.  A comparison with NaN is false.  [sqrt] is the
    correctly rounded one.  [pow] is defined where the C standard fixes its
    value whatever the library: pow(x, +-0) = 1 for every x, NaN included,
    and pow(1, y) = 1 for every y; its other values are libm's, the runs
    below call [pow] with the exponent -0.0 only (spl = spz = 0), and NaN
    stands for them.

    [spotrf] on a 1 x 1 matrix reports info = 1 when the entry is not
    positive or is NaN and takes its square root otherwise; [spotri] then
    reports a zero on the diagonal, or inverts the factor and multiplies
    the inverse by itself. *)
Module Binary32.

Definition prec : Z := 24.
Definition emax : Z := 128.

Definition of_Z (z : Z) : spec_float := binary_normalize prec emax z 0 false.

Definition one : spec_float := of_Z 1.

Definition is_nan (x : spec_float) : bool :=
  match x with S754_nan => true | _ => false end.

Definition pow (x y : spec_float) : spec_float :=
  match y with
  | S754_zero _ => one
  | _ => if SFeqb x one then one else S754_nan
  end.

#[export] Instance ops : FloatOps spec_float := {|
  fzero := S754_zero false;
  fone := one;
  fadd := SFadd prec emax;
  fsub := SFsub prec emax;
  fmul := SFmul prec emax;
  fdiv := SFdiv prec emax;
  fneg := SFopp;
  flt := SFltb;
  fle := SFleb;
  feq := SFeqb;
  fabs := SFabs;
  fsqrt := SFsqrt prec emax;
  fpow := pow;
  of_int := of_Z;
  MACHINE_EPS := SFdiv prec emax (of_Z 1) (of_Z 10000000);
|}.

Definition spotrf_1x1 (n : nat) (a : list spec_float) : list spec_float * Z :=
  match a with
  | x :: r =>
      if SFleb x (S754_zero false) || is_nan x then (a, 1%Z)
      else (SFsqrt prec emax x :: r, 0%Z)
  | [] => (a, (-1)%Z)
  end.

Definition spotri_1x1 (n : nat) (a : list spec_float) : list spec_float * Z :=
  match a with
  | x :: r =>
      if SFeqb x (S754_zero false) then (a, 1%Z)
      else let i := SFdiv prec emax one x in (SFmul prec emax i i :: r, 0%Z)
  | [] => (a, (-1)%Z)
  end.

#[export] Instance ext : Externals spec_float := {|
  potrf := spotrf_1x1;
  potri := spotri_1x1;
  rand_normal := fun _ => one;
  omp_get_thread_num := fun _ => O;
|}.

(** The float nearest to a/b, for a and b that are floats themselves. *)
Definition ratio (a b : Z) : spec_float := SFdiv prec emax (of_Z a) (of_Z b).

(** Seven successful allocations of one cell each. *)
Definition scratch : allocation :=
  Allocation (Some [of_Z 0]) (Some [of_Z 0]) (Some [of_Z 0]) (Some [of_Z 0])
    (Some [of_Z 0]) (Some [of_Z 0]) (Some [of_Z 0]).

(** Buffers of a kernel call on one sample, with lapla = 1. *)
Definition bufs : kernel_bufs :=
  KernelBufs [of_Z 0] [of_Z 1] [of_Z 0] [of_Z 0] None None.

(** X = Psi = L = lapla = 1, eps = 1/1000, lap = 1, alpha = 0,
    spl = spz = 0, scale = 0, one cycle. *)
Definition p_unit : params :=
  start_params 1 1 1 [of_Z 1] 1%Z (of_Z 0) (ratio 1 1000) (of_Z 0) (of_Z 0) 0%Z
    (of_Z 1) 0%Z 1 [of_Z 0].

Definition st_unit : state :=
  start_state 1 1 [of_Z 1] [of_Z 1] [of_Z 0] [of_Z 1] scratch [of_Z 0] [of_Z 0].

(** The same with X = 0: the first iteration collapses. *)
Definition p_null : params :=
  start_params 1 1 1 [of_Z 0] 1%Z (of_Z 0) (ratio 1 1000) (of_Z 0) (of_Z 0) 0%Z
    (of_Z 1) 0%Z 1 [of_Z 0].

End Binary32.

(** * Properties *)

(** ** Loops *)

Lemma for_0 {S : Type} (body : nat -> S -> S) (s : S) : for_ 0 body s = s.
Proof. reflexivity. Qed.

Lemma for_S {S : Type} (n : nat) (body : nat -> S -> S) (s : S) :
  for_ (Datatypes.S n) body s = body n (for_ n body s).
Proof. unfold for_. rewrite seq_S, fold_left_app. reflexivity. Qed.

(** The invariant rule: [P i] holds before iteration [i]. *)
Lemma for_ind {S : Type} (P : nat -> S -> Prop) (n : nat)
    (body : nat -> S -> S) (s : S) :
  P O s ->
  (forall i s, i < n -> P i s -> P (Datatypes.S i) (body i s)) ->
  P n (for_ n body s).
Proof.
  intros H0 Hstep. induction n as [|n IH]; [exact H0|].
  rewrite for_S. apply Hstep; [lia|]. apply IH. intros i s' Hi. apply Hstep. lia.
Qed.

(** Two loops whose bodies agree below the bound are the same loop. *)
Lemma for_ext {S : Type} (n : nat) (f g : nat -> S -> S) (s : S) :
  (forall i s, i < n -> f i s = g i s) -> for_ n f s = for_ n g s.
Proof.
  intros E. induction n as [|n IH]; [reflexivity|].
  rewrite !for_S, IH by (intros; apply E; lia). apply E. lia.
Qed.

(** ** Slices *)

Lemma splice_slice {A : Type} (off len : nat) (a : list A) :
  splice off (slice off len a) a = a.
Proof.
  unfold splice, slice.
  transitivity (take off a ++ drop off a); [|apply take_drop].
  f_equal. rewrite <- drop_drop, length_take.
  destruct (decide (len <= length (drop off a))) as [Hle|Hgt].
  - rewrite Nat.min_l by exact Hle. apply take_drop.
  - rewrite Nat.min_r by lia.
    rewrite take_ge by lia. rewrite drop_all. apply app_nil_r.
Qed.

Lemma length_splice {A : Type} (off : nat) (v a : list A) :
  off + length v <= length a -> length (splice off v a) = length a.
Proof.
  intros Hle. unfold splice.
  rewrite !length_app, length_take, length_drop. lia.
Qed.

Lemma length_slice {A : Type} (off len : nat) (a : list A) :
  off + len <= length a -> length (slice off len a) = len.
Proof. intros Hle. unfold slice. rewrite length_take, length_drop. lia. Qed.

(** Writing back as many cells as the slice holds keeps the length. *)
Lemma length_splice_slice {A : Type} (off len : nat) (v a : list A) :
  length v = length (slice off len a) -> length (splice off v a) = length a.
Proof.
  unfold splice, slice. intros Hv.
  rewrite length_take, length_drop in Hv.
  rewrite !length_app, length_take, length_drop. lia.
Qed.

Lemma lookup_total_slice `{Inhabited A} (off len i : nat) (a : list A) :
  i < len -> slice off len a !!! i = a !!! (off + i)%nat.
Proof.
  intros Hi. unfold slice.
  rewrite lookup_total_take_lt by exact Hi. apply lookup_total_drop.
Qed.

Lemma lookup_total_splice `{Inhabited A} (off i : nat) (v a : list A) :
  off + length v <= length a ->
  splice off v a !!! i =
    if decide (off <= i < off + length v) then v !!! (i - off)%nat else a !!! i.
Proof.
  intros Hle. unfold splice. case_decide as Hd.
  - rewrite lookup_total_app_r by (rewrite length_take; lia).
    rewrite length_take, Nat.min_l by lia.
    rewrite lookup_total_app_l by lia. reflexivity.
  - destruct (decide (i < off)) as [Hlt|Hge].
    + rewrite lookup_total_app_l by (rewrite length_take; lia).
      apply lookup_total_take_lt, Hlt.
    + rewrite lookup_total_app_r by (rewrite length_take; lia).
      rewrite length_take, Nat.min_l by lia.
      rewrite lookup_total_app_r by lia.
      rewrite lookup_total_drop. f_equal. lia.
Qed.

(** A property that every iteration keeps holds after the loop. *)
Lemma for_inv {S : Type} (P : S -> Prop) (n : nat) (body : nat -> S -> S) (s : S) :
  P s -> (forall i s, i < n -> P s -> P (body i s)) -> P (for_ n body s).
Proof. intros H0 Hstep. apply (for_ind (fun _ => P)); assumption. Qed.

Lemma length_memset0 `{FloatOps F} (len : nat) (a : list F) :
  length (memset0 len a) = Nat.max len (length a).
Proof. unfold memset0. rewrite length_app, length_replicate, length_drop. lia. Qed.

Lemma memset0_all `{FloatOps F} (len : nat) (a : list F) :
  length a <= len -> memset0 len a = replicate len fzero.
Proof. intros Hle. unfold memset0. rewrite drop_ge by exact Hle. apply app_nil_r. Qed.

Lemma lookup_total_memset0 `{FloatOps F} (len i : nat) (a : list F) :
  i < len -> memset0 len a !!! i = fzero.
Proof.
  intros Hi. unfold memset0.
  rewrite lookup_total_app_l by (rewrite length_replicate; exact Hi).
  apply lookup_total_replicate_2, Hi.
Qed.

(** A loop that stores the same value in the cells 0 .. n-1. *)
Lemma for_fill {A : Type} (n : nat) (v : A) (a : list A) :
  length a = n -> for_ n (fun i a => <[i := v]> a) a = replicate n v.
Proof.
  intros Hlen.
  enough (E : forall m, m <= n ->
    for_ m (fun i a => <[i := v]> a) a = replicate m v ++ drop m a).
  { rewrite (E n) by lia. rewrite drop_ge by lia. apply app_nil_r. }
  induction m as [|m IH]; intros Hm.
  - rewrite for_0. simpl. rewrite drop_0. reflexivity.
  - rewrite for_S, IH by lia.
    rewrite insert_app_r_alt by (rewrite length_replicate; lia).
    rewrite length_replicate, Nat.sub_diag.
    destruct (drop m a) as [|y r] eqn:E.
    + apply (f_equal length) in E. rewrite length_drop in E. simpl in E. lia.
    + rewrite replicate_S_end, <- app_assoc. f_equal. simpl. f_equal.
      replace (S m) with (m + 1)%nat by lia. rewrite <- drop_drop, E.
      reflexivity.
Qed.

(** ** Loops that update a cell per iteration *)

Section Cells.

Context {A : Type} `{Inhabited A}.

(** A loop that rewrites the cell [idx i] from its own content, the cells
    of different iterations being different. *)
Lemma for_cells (m : nat) (idx : nat -> nat) (g : nat -> A -> A) (a : list A) :
  (forall i, i < m -> idx i < length a) ->
  (forall i j, i < m -> j < m -> idx i = idx j -> i = j) ->
  let r := for_ m (fun i a => <[idx i := g i (a !!! idx i)]> a) a in
  length r = length a /\
  (forall i, i < m -> r !!! idx i = g i (a !!! idx i)) /\
  (forall c, (forall i, i < m -> idx i <> c) -> r !!! c = a !!! c).
Proof.
  intros Hrange Hinj r. subst r.
  set (P := fun (d : nat) (r : list A) =>
    length r = length a /\
    (forall i, i < d -> r !!! idx i = g i (a !!! idx i)) /\
    (forall c, (forall i, i < d -> idx i <> c) -> r !!! c = a !!! c)).
  enough (HP : forall d, d <= m ->
    P d (for_ d (fun i a => <[idx i := g i (a !!! idx i)]> a) a)).
  { apply (HP m). lia. }
  induction d as [|d IH]; intros Hd.
  - rewrite for_0. repeat split; auto. intros; lia.
  - rewrite for_S. destruct (IH ltac:(lia)) as (Hlen & Hset & Hother).
    set (r := for_ d _ a) in *.
    repeat split.
    + rewrite length_insert. exact Hlen.
    + intros i Hi. rewrite list_lookup_total_insert. case_decide as Hc.
      * destruct Hc as [Hc _]. apply Hinj in Hc; [|lia|lia]. subst i.
        rewrite Hother; [reflexivity|].
        intros j Hj E. apply Hinj in E; lia.
      * apply Hset. destruct (decide (i = d)) as [->|]; [|lia].
        exfalso. apply Hc. split; [reflexivity|]. rewrite Hlen. apply Hrange. lia.
    + intros c Hc. rewrite list_lookup_total_insert_ne by (apply Hc; lia).
      apply Hother. intros i Hi. apply Hc. lia.
Qed.

(** The same for two nested loops over the cells [idx i j]. *)
Lemma for2_cells (m1 m2 : nat) (idx : nat -> nat -> nat)
    (g : nat -> nat -> A -> A) (a : list A) :
  (forall i j, i < m1 -> j < m2 -> idx i j < length a) ->
  (forall i j i' j', i < m1 -> j < m2 -> i' < m1 -> j' < m2 ->
     idx i j = idx i' j' -> i = i' /\ j = j') ->
  let r := for_ m1 (fun i a =>
    for_ m2 (fun j a => <[idx i j := g i j (a !!! idx i j)]> a) a) a in
  length r = length a /\
  (forall i j, i < m1 -> j < m2 -> r !!! idx i j = g i j (a !!! idx i j)) /\
  (forall c, (forall i j, i < m1 -> j < m2 -> idx i j <> c) -> r !!! c = a !!! c).
Proof.
  intros Hrange Hinj r. subst r.
  set (body := fun i a =>
    for_ m2 (fun j a => <[idx i j := g i j (a !!! idx i j)]> a) a).
  set (P := fun (d : nat) (r : list A) =>
    length r = length a /\
    (forall i j, i < d -> j < m2 -> r !!! idx i j = g i j (a !!! idx i j)) /\
    (forall c, (forall i j, i < d -> j < m2 -> idx i j <> c) -> r !!! c = a !!! c)).
  enough (HP : forall d, d <= m1 -> P d (for_ d body a)).
  { apply (HP m1). lia. }
  induction d as [|d IH]; intros Hd.
  - rewrite for_0. repeat split; auto. intros; lia.
  - rewrite for_S. destruct (IH ltac:(lia)) as (Hlen & Hset & Hother).
    set (r := for_ d body a) in *. unfold body at 1.
    destruct (for_cells m2 (idx d) (g d) r) as (Hlen' & Hset' & Hother').
    { intros j Hj. rewrite Hlen. apply Hrange; lia. }
    { intros j j' Hj Hj' E. apply Hinj in E; lia. }
    repeat split.
    + rewrite Hlen'. exact Hlen.
    + intros i j Hi Hj. destruct (decide (i = d)) as [->|Hne].
      * rewrite Hset' by exact Hj. f_equal. apply Hother.
        intros i' j' Hi' Hj' E. apply Hinj in E; lia.
      * rewrite Hother'; [apply Hset; lia|].
        intros j' Hj' E. apply Hinj in E; lia.
    + intros c Hc. rewrite Hother' by (intros j Hj; apply Hc; lia).
      apply Hother. intros i j Hi Hj. apply Hc; lia.
Qed.

End Cells.

Lemma index_lt (n k i j : nat) : i < n -> j < k -> (i*k + j < n*k)%nat.
Proof.
  intros Hi Hj. assert (S i * k <= n * k)%nat by (apply Nat.mul_le_mono_r; lia). lia.
Qed.

Lemma index_inj (k i j i' j' : nat) :
  j < k -> j' < k -> (i*k + j = i'*k + j')%nat -> i = i' /\ j = j'.
Proof.
  intros Hj Hj' E.
  assert (i = i').
  { destruct (Nat.lt_trichotomy i i') as [Hlt|[->|Hlt]]; [exfalso|reflexivity|exfalso].
    - assert (S i * k <= i' * k)%nat by (apply Nat.mul_le_mono_r; lia). lia.
    - assert (S i' * k <= i * k)%nat by (apply Nat.mul_le_mono_r; lia). lia. }
  subst. split; [reflexivity | lia].
Qed.

(** ** The E-step kernel *)

Section Kernel.

Context {F : Type} {ops : FloatOps F}.
Local Open Scope fl_scope.

Lemma kernel_init_spec (k : nat) (LPsiL lapla iLPsiL z : list F) :
  length iLPsiL = k -> length z = k ->
  let r := kernel_init k LPsiL lapla (iLPsiL, z) in
  length r.1 = k /\ length r.2 = k /\
  (forall i, i < k -> r.1 !!! i = precision LPsiL lapla i) /\
  (forall i, i < k -> r.2 !!! i = 0).
Proof.
  intros Hi Hz r. subst r. unfold kernel_init.
  set (P := fun (m : nat) (s : list F * list F) =>
    length s.1 = k /\ length s.2 = k /\
    (forall i, i < m -> s.1 !!! i = precision LPsiL lapla i) /\
    (forall i, i < m -> s.2 !!! i = 0)).
  enough (HP : P k (for_ k (fun i '(iLPsiL, z) =>
      (<[i := 1 / (LPsiL !!! i + lapla !!! i + MACHINE_EPS)]> iLPsiL,
       <[i := 0]> z)) (iLPsiL, z))) by exact HP.
  apply for_ind.
  - repeat split; simpl; auto; intros; lia.
  - intros i [a b] Hik (Ha & Hb & Hp & Hq); simpl in *.
    repeat split; simpl; rewrite ?length_insert; auto.
    + intros i' Hi'. rewrite list_lookup_total_insert. case_decide as Hd.
      * destruct Hd as [<- _]. reflexivity.
      * apply Hp. destruct (decide (i = i')); [subst; exfalso; apply Hd; lia | lia].
    + intros i' Hi'. rewrite list_lookup_total_insert. case_decide as Hd.
      * reflexivity.
      * apply Hq. destruct (decide (i = i')); [subst; exfalso; apply Hd; lia | lia].
Qed.

Lemma kernel_mean_spec (n k : nat) (x LPsi iLPsiL iLPsiLX z : list F) :
  length iLPsiLX = (n*k)%nat -> length z = k ->
  (forall j, j < k -> z !!! j = 0) ->
  let r := kernel_mean n k x LPsi iLPsiL (iLPsiLX, z) in
  length r.1 = (n*k)%nat /\ length r.2 = k /\
  (forall i j, i < n -> j < k ->
     r.1 !!! (i*k+j)%nat = LPsi !!! (i*k+j)%nat * iLPsiL !!! j) /\
  (forall j, j < k -> r.2 !!! j = mean_upto k x LPsi iLPsiL n j).
Proof.
  intros HX Hz Hz0 r. subst r. unfold kernel_mean.
  set (P := fun (m : nat) (s : list F * list F) =>
    length s.1 = (n*k)%nat /\ length s.2 = k /\
    (forall i j, i < m -> j < k ->
       s.1 !!! (i*k+j)%nat = LPsi !!! (i*k+j)%nat * iLPsiL !!! j) /\
    (forall j, j < k -> s.2 !!! j = mean_upto k x LPsi iLPsiL m j)).
  match goal with |- context [for_ n ?body ?s0] =>
    enough (HP : P n (for_ n body s0)) by exact HP end.
  apply for_ind.
  - repeat split; simpl; auto; intros; lia.
  - intros i s Hin (Ha & Hb & Hp & Hq).
    set (Q := fun (c : nat) (s : list F * list F) =>
      length s.1 = (n*k)%nat /\ length s.2 = k /\
      (forall i' j, (i' < i \/ (i' = i /\ j < c)) -> j < k ->
         s.1 !!! (i'*k+j)%nat = LPsi !!! (i'*k+j)%nat * iLPsiL !!! j) /\
      (forall j, j < k -> s.2 !!! j =
         if decide (j < c) then mean_upto k x LPsi iLPsiL (S i) j
         else mean_upto k x LPsi iLPsiL i j)).
    match goal with |- P _ (for_ k ?body ?s0) =>
      assert (HQ : Q k (for_ k body s0)) end.
    { apply for_ind.
      - repeat split; auto.
        intros i' j [Hlt | [_ Hlt]] Hj; [auto | lia].
      - intros j [a b] Hjk (Ha' & Hb' & Hp' & Hq'); simpl in *.
        assert (Hidx : (i*k + j < length a)%nat) by (rewrite Ha'; apply index_lt; lia).
        repeat split; simpl; rewrite ?length_insert; auto.
        + intros i' j' Hcase Hj'. rewrite list_lookup_total_insert.
          case_decide as Hd.
          * destruct Hd as [Heq _]. rewrite <- Heq.
            apply index_inj in Heq as [_ <-]; auto.
          * apply Hp'; auto. destruct Hcase as [?|[-> Hlt]]; [auto|].
            right. split; [reflexivity|].
            destruct (decide (j' = j)) as [->|]; [|lia].
            exfalso. apply Hd. split; [reflexivity | exact Hidx].
        + intros j' Hj'. rewrite (list_lookup_total_insert b).
          rewrite list_lookup_total_insert_eq by exact Hidx.
          case_decide as Hd.
          * destruct Hd as [<- _]. rewrite decide_True by lia.
            rewrite (Hq' j Hjk), decide_False by lia.
            unfold mean_upto. rewrite for_S. reflexivity.
          * rewrite (Hq' j' Hj').
            destruct (decide (j' = j)) as [->|Hne];
              [exfalso; apply Hd; split; [reflexivity | lia]|].
            repeat case_decide; try lia; reflexivity. }
    destruct HQ as (Ha' & Hb' & Hp' & Hq').
    repeat split; auto.
    + intros i' j Hi' Hj. apply Hp'; auto.
      destruct (decide (i' = i)) as [->|];
        [right; split; [reflexivity | exact Hj] | left; lia].
    + intros j Hj. rewrite (Hq' j Hj), decide_True by lia. reflexivity.
Qed.

Lemma estimateZ_z (n k : nat) (x LPsi LPsiL : list F) (spz lap : F)
    (b : kernel_bufs) :
  k_z (approx_estimateZ n k x LPsi LPsiL spz lap b) =
  (kernel_mean n k x LPsi
     (kernel_init k LPsiL (k_lapla b) (k_iLPsiL b, k_z b)).1
     (k_iLPsiLX b, (kernel_init k LPsiL (k_lapla b) (k_iLPsiL b, k_z b)).2)).2.
Proof.
  unfold approx_estimateZ.
  destruct (kernel_init k LPsiL (k_lapla b) (k_iLPsiL b, k_z b)) as [iL z0]; simpl.
  destruct (kernel_mean n k x LPsi iL (k_iLPsiLX b, z0)) as [iX z1]; simpl.
  destruct (k_sum1 b), (k_sum2 b); try reflexivity.
  destruct (kernel_accum k z1 spz lap _) as [[? ?] ?]. reflexivity.
Qed.

Lemma estimateZ_iLPsiLX (n k : nat) (x LPsi LPsiL : list F) (spz lap : F)
    (b : kernel_bufs) :
  k_iLPsiLX (approx_estimateZ n k x LPsi LPsiL spz lap b) =
  (kernel_mean n k x LPsi
     (kernel_init k LPsiL (k_lapla b) (k_iLPsiL b, k_z b)).1
     (k_iLPsiLX b, (kernel_init k LPsiL (k_lapla b) (k_iLPsiL b, k_z b)).2)).1.
Proof.
  unfold approx_estimateZ.
  destruct (kernel_init k LPsiL (k_lapla b) (k_iLPsiL b, k_z b)) as [iL z0]; simpl.
  destruct (kernel_mean n k x LPsi iL (k_iLPsiLX b, z0)) as [iX z1]; simpl.
  destruct (k_sum1 b), (k_sum2 b); try reflexivity.
  destruct (kernel_accum k z1 spz lap _) as [[? ?] ?]. reflexivity.
Qed.

(** With a NULL accumulator the kernel returns after the mean: lapla is
    not written and iLPsiL keeps the reciprocals. *)
Lemma estimateZ_null (n k : nat) (x LPsi LPsiL : list F) (spz lap : F)
    (b : kernel_bufs) :
  k_sum1 b = None \/ k_sum2 b = None ->
  k_lapla (approx_estimateZ n k x LPsi LPsiL spz lap b) = k_lapla b /\
  k_iLPsiL (approx_estimateZ n k x LPsi LPsiL spz lap b) =
    (kernel_init k LPsiL (k_lapla b) (k_iLPsiL b, k_z b)).1 /\
  k_sum1 (approx_estimateZ n k x LPsi LPsiL spz lap b) = k_sum1 b /\
  k_sum2 (approx_estimateZ n k x LPsi LPsiL spz lap b) = k_sum2 b.
Proof.
  intros Hnull. unfold approx_estimateZ.
  destruct (kernel_init k LPsiL (k_lapla b) (k_iLPsiL b, k_z b)) as [iL z0]; simpl.
  destruct (kernel_mean n k x LPsi iL (k_iLPsiLX b, z0)) as [iX z1]; simpl.
  destruct (k_sum1 b), (k_sum2 b); simpl; auto; destruct Hnull; discriminate.
Qed.

Lemma mean_upto_precision (n k : nat) (x LPsi LPsiL lap_j iL : list F) (j : nat) :
  iL !!! j = precision LPsiL lap_j j ->
  mean_upto k x LPsi iL n j = posterior_mean n k x LPsi LPsiL lap_j j.
Proof.
  intros E. unfold mean_upto, posterior_mean. apply for_ext.
  intros i s _. rewrite E. reflexivity.
Qed.

(** What the first two loops of the kernel leave in iLPsiL, iLPsiLX, z. *)
Lemma estimateZ_spec (n k : nat) (x LPsi LPsiL : list F)
    (spz lap : F) (b : kernel_bufs) :
  length (k_z b) = k -> length (k_iLPsiL b) = k ->
  length (k_iLPsiLX b) = (n*k)%nat ->
  let b' := approx_estimateZ n k x LPsi LPsiL spz lap b in
  (forall i, i < k ->
     (kernel_init k LPsiL (k_lapla b) (k_iLPsiL b, k_z b)).1 !!! i =
       precision LPsiL (k_lapla b) i) /\
  (k_sum1 b = None \/ k_sum2 b = None ->
     forall i, i < k -> k_iLPsiL b' !!! i = precision LPsiL (k_lapla b) i) /\
  (forall i j, i < n -> j < k ->
     k_iLPsiLX b' !!! (i*k+j)%nat =
       LPsi !!! (i*k+j)%nat * precision LPsiL (k_lapla b) j) /\
  (forall j, j < k ->
     k_z b' !!! j = posterior_mean n k x LPsi LPsiL (k_lapla b) j).
Proof.
  intros Hz Hi HX b'. subst b'.
  destruct (kernel_init_spec k LPsiL (k_lapla b) (k_iLPsiL b) (k_z b) Hi Hz)
    as (Hli & Hlz & Hprec & Hzero).
  destruct (kernel_mean_spec n k x LPsi
      (kernel_init k LPsiL (k_lapla b) (k_iLPsiL b, k_z b)).1
      (k_iLPsiLX b) _ HX Hlz Hzero) as (_ & _ & HiX & Hmean).
  repeat split.
  - exact Hprec.
  - intros Hnull i Hik.
    destruct (estimateZ_null n k x LPsi LPsiL spz lap b Hnull) as (_ & -> & _).
    apply Hprec, Hik.
  - intros i j Hin Hjk. rewrite estimateZ_iLPsiLX, HiX by assumption.
    rewrite Hprec by assumption. reflexivity.
  - intros j Hjk. rewrite estimateZ_z, Hmean by assumption.
    apply mean_upto_precision, Hprec, Hjk.
Qed.

(** C1.  The kernel sets iLPsiL[i] = 1/(LPsiL[i] + lap_j[i] + MACHINE_EPS)
    for every factor i (lines 66-69; the array still holds these values at
    the return of the final pass), stores LPsi[j,i]*iLPsiL[j] in iLPsiLX,
    and returns z[j] = sum over the features i of LPsi[j,i]*iLPsiL[j]*x[i],
    with or without accumulators. *)
Theorem estimateZ_posterior_mean (n k : nat) (x LPsi LPsiL : list F)
    (spz lap : F) (b : kernel_bufs) :
  length (k_z b) = k -> length (k_iLPsiL b) = k ->
  length (k_iLPsiLX b) = (n*k)%nat ->
  let b' := approx_estimateZ n k x LPsi LPsiL spz lap b in
  (forall i, i < k ->
     (kernel_init k LPsiL (k_lapla b) (k_iLPsiL b, k_z b)).1 !!! i =
       precision LPsiL (k_lapla b) i) /\
  (k_sum1 b = None \/ k_sum2 b = None ->
     forall i, i < k -> k_iLPsiL b' !!! i = precision LPsiL (k_lapla b) i) /\
  (forall i j, i < n -> j < k ->
     k_iLPsiLX b' !!! (i*k+j)%nat =
       LPsi !!! (i*k+j)%nat * precision LPsiL (k_lapla b) j) /\
  (forall j, j < k ->
     k_z b' !!! j = posterior_mean n k x LPsi LPsiL (k_lapla b) j).
Proof. apply estimateZ_spec. Qed.

(** Lines 83-88 add z z' and the reciprocals, as they were on entry, to
    sum2. *)
Lemma kernel_accum_sum2 (k : nat) (z : list F) (spz lap : F)
    (sum2 iLPsiL lapla : list F) :
  length sum2 = (k*k)%nat -> length iLPsiL = k ->
  let r := kernel_accum k z spz lap (sum2, iLPsiL, lapla) in
  length r.1.1 = (k*k)%nat /\
  (forall i j, i < k -> j < k ->
     r.1.1 !!! (i*k+j)%nat =
       accumulated (entries k sum2) (fun i => z !!! i) (fun i => iLPsiL !!! i) i j).
Proof.
  intros Hs Hi r. subst r. unfold kernel_accum.
  set (P := fun (m : nat) (s : list F * list F * list F) =>
    length s.1.1 = (k*k)%nat /\ length s.1.2 = k /\
    (forall i j, i < m -> j < k ->
       s.1.1 !!! (i*k+j)%nat =
         accumulated (entries k sum2) (fun i => z !!! i) (fun i => iLPsiL !!! i) i j) /\
    (forall c, (m*k <= c)%nat -> s.1.1 !!! c = sum2 !!! c) /\
    (forall i, (m <= i)%nat -> s.1.2 !!! i = iLPsiL !!! i)).
  match goal with |- context [for_ k ?body ?s0] =>
    enough (HP : P k (for_ k body s0)) by (split; [apply HP | apply HP]);
    apply (for_ind P k body s0) end.
  - repeat split; auto; intros; lia.
  - intros m [[a b] c] Hm (Ha & Hb & Hdone & Hrest & HiL); simpl in *.
    destruct (for_cells k (fun j => (m*k+j)%nat)
      (fun j v => v + z !!! m * z !!! j) a) as (Hl1 & Hset1 & Hother1).
    { intros j Hj. rewrite Ha. apply index_lt; assumption. }
    { intros j j' Hj Hj' E. lia. }
    set (a1 := for_ k _ a) in *.
    assert (Hmm : (m*k + m < length a1)%nat)
      by (rewrite Hl1, Ha; apply index_lt; assumption).
    repeat split; cbn [fst snd].
    + rewrite length_insert, Hl1. exact Ha.
    + rewrite length_insert. exact Hb.
    + intros i j Hi' Hj. unfold accumulated, entries.
      destruct (decide (i = m)) as [->|Hne].
      * destruct (decide (m = j)) as [<-|Hnj].
        -- rewrite list_lookup_total_insert_eq by exact Hmm.
           rewrite (Hset1 m Hm), (Hrest (m*k+m)%nat) by lia.
           rewrite (HiL m) by lia. reflexivity.
        -- rewrite list_lookup_total_insert_ne by lia.
           rewrite (Hset1 j Hj), (Hrest (m*k+j)%nat) by lia. reflexivity.
      * rewrite list_lookup_total_insert_ne.
        2:{ intros E. apply index_inj in E; [lia | assumption | assumption]. }
        rewrite Hother1.
        2:{ intros j' Hj' E. apply index_inj in E; [lia | assumption | assumption]. }
        apply Hdone; [lia | exact Hj].
    + intros c0 Hc.
      rewrite list_lookup_total_insert_ne by lia.
      rewrite Hother1 by (intros j' Hj'; lia).
      apply Hrest. lia.
    + intros i Hi'. rewrite list_lookup_total_insert_ne by lia. apply HiL. lia.
Qed.

End Kernel.

(** ** Exact arithmetic *)

Section Arithmetic.

Context {F : Type} {ops : FloatOps F} {laws : RealLaws F}.
Local Open Scope fl_scope.

Add Ring fl_ring_tac : fl_ring.

(** *** The order *)

Lemma Lt_irrefl (x : F) : ~ x <! x.
Proof. unfold Less. rewrite fl_lt_irrefl. discriminate. Qed.

Lemma Lt_trans (x y z : F) : x <! y -> y <! z -> x <! z.
Proof. apply fl_lt_trans. Qed.

Lemma Lt_asym (x y : F) : x <! y -> ~ y <! x.
Proof. intros Hxy Hyx. apply (Lt_irrefl x), (Lt_trans x y x); assumption. Qed.

Lemma Lt_Le (x y : F) : x <! y -> x <=! y.
Proof.
  intros Hxy. unfold LessEq. destruct (flt y x) eqn:E; [|reflexivity].
  exfalso. apply (Lt_asym x y Hxy E).
Qed.

Lemma Le_refl (x : F) : x <=! x.
Proof. apply fl_lt_irrefl. Qed.

Lemma Le_or_Lt (x y : F) : x <=! y \/ y <! x.
Proof. unfold LessEq, Less. destruct (flt y x); auto. Qed.

Lemma not_Lt_Le (x y : F) : ~ x <! y -> y <=! x.
Proof. unfold LessEq, Less. destruct (flt x y); [intros []; reflexivity | reflexivity]. Qed.

Lemma Le_not_Lt (x y : F) : x <=! y -> ~ y <! x.
Proof. unfold LessEq, Less. intros ->. discriminate. Qed.

Lemma Le_antisym (x y : F) : x <=! y -> y <=! x -> x = y.
Proof. intros Hxy Hyx. apply fl_lt_total; assumption. Qed.

Lemma Le_cases (x y : F) : x <=! y -> x <! y \/ x = y.
Proof.
  intros Hxy. destruct (flt x y) eqn:E; [left; exact E | right].
  apply Le_antisym; [exact Hxy | exact E].
Qed.


Lemma Lt_Le_trans (x y z : F) : x <! y -> y <=! z -> x <! z.
Proof.
  intros Hxy Hyz. destruct (Le_cases y z Hyz) as [Hlt | <-];
    [apply (Lt_trans x y z) |]; assumption.
Qed.

Lemma Le_trans (x y z : F) : x <=! y -> y <=! z -> x <=! z.
Proof.
  intros Hxy Hyz. destruct (Le_cases x y Hxy) as [Hlt | ->]; [|exact Hyz].
  apply Lt_Le, (Lt_Le_trans x y z); assumption.
Qed.

Lemma Lt_add_r (x y z : F) : x <! y -> x + z <! y + z.
Proof. apply fl_lt_add_r. Qed.

Lemma Lt_add_cancel_r (x y z : F) : x + z <! y + z -> x <! y.
Proof.
  intros Hlt. apply (Lt_add_r _ _ (- z)) in Hlt.
  replace (x + z + - z) with x in Hlt by ring.
  replace (y + z + - z) with y in Hlt by ring. exact Hlt.
Qed.

Lemma Le_add_r (x y z : F) : x <=! y -> x + z <=! y + z.
Proof.
  intros Hxy. apply not_Lt_Le. intros Hlt.
  apply (Le_not_Lt x y Hxy), (Lt_add_cancel_r y x z), Hlt.
Qed.

Lemma Le_add (x y x' y' : F) : x <=! y -> x' <=! y' -> x + x' <=! y + y'.
Proof.
  intros Hxy Hxy'. apply (Le_trans _ (y + x')).
  - apply Le_add_r, Hxy.
  - rewrite (ARadd_comm (Rth_ARth (Eqsth F) (Eq_ext _ _ _) fl_ring) y x'),
      (ARadd_comm (Rth_ARth (Eqsth F) (Eq_ext _ _ _) fl_ring) y y').
    apply Le_add_r, Hxy'.
Qed.

Lemma Lt_Le_add (x y x' y' : F) : x <! y -> x' <=! y' -> x + x' <! y + y'.
Proof.
  intros Hxy Hxy'. apply (Lt_Le_trans _ (y + x')).
  - apply Lt_add_r, Hxy.
  - replace (y + x') with (x' + y) by ring. replace (y + y') with (y' + y) by ring.
    apply Le_add_r, Hxy'.
Qed.

Lemma Le_0_add (x y : F) : 0 <=! x -> 0 <=! y -> 0 <=! x + y.
Proof.
  intros Hx Hy. replace 0 with (0 + 0) by ring. apply Le_add; assumption.
Qed.

Lemma Lt_0_add (x y : F) : 0 <! x -> 0 <=! y -> 0 <! x + y.
Proof.
  intros Hx Hy. replace 0 with (0 + 0) at 1 by ring. apply Lt_Le_add; assumption.
Qed.

Lemma Lt_0_neg (x : F) : x <! 0 -> 0 <! - x.
Proof.
  intros Hx. apply (Lt_add_r _ _ (- x)) in Hx.
  replace (x + - x) with 0 in Hx by ring.
  replace (0 + - x) with (- x) in Hx by ring. exact Hx.
Qed.

Lemma Lt_neg_0 (x : F) : 0 <! x -> - x <! 0.
Proof.
  intros Hx. apply (Lt_add_r _ _ (- x)) in Hx.
  replace (x + - x) with 0 in Hx by ring.
  replace (0 + - x) with (- x) in Hx by ring. exact Hx.
Qed.

Lemma Lt_sub (x y : F) : x <! y <-> 0 <! y - x.
Proof.
  split; intros Hlt.
  - apply (Lt_add_r _ _ (- x)) in Hlt.
    replace (x + - x) with 0 in Hlt by ring.
    replace (y + - x) with (y - x) in Hlt by ring. exact Hlt.
  - apply (Lt_add_r _ _ x) in Hlt.
    replace (0 + x) with x in Hlt by ring.
    replace (y - x + x) with y in Hlt by ring. exact Hlt.
Qed.

Lemma Lt_0_mul (x y : F) : 0 <! x -> 0 <! y -> 0 <! x * y.
Proof. apply fl_lt_mul_pos. Qed.

Lemma Le_0_mul (x y : F) : 0 <=! x -> 0 <=! y -> 0 <=! x * y.
Proof.
  intros Hx Hy.
  destruct (Le_cases 0 x Hx) as [Hx' | <-];
    [| replace (0 * y) with 0 by ring; apply Le_refl].
  destruct (Le_cases 0 y Hy) as [Hy' | <-];
    [| replace (x * 0) with 0 by ring; apply Le_refl].
  apply Lt_Le, Lt_0_mul; assumption.
Qed.

Lemma Le_0_square (x : F) : 0 <=! x * x.
Proof.
  destruct (Le_or_Lt 0 x) as [Hx | Hx].
  - apply Le_0_mul; exact Hx.
  - replace (x * x) with (- x * - x) by ring.
    apply Le_0_mul; apply Lt_Le, Lt_0_neg, Hx.
Qed.

Lemma Lt_0_1 : (0 : F) <! 1.
Proof.
  destruct (Le_cases fzero fone) as [Hlt | Heq]; [| exact Hlt |].
  - replace 1 with (1 * 1) by ring. apply Le_0_square.
  - exfalso. apply fl_1_neq_0. symmetry. exact Heq.
Qed.

Lemma Lt_neq (x y : F) : x <! y -> y <> x.
Proof. intros Hlt ->. apply (Lt_irrefl x Hlt). Qed.

Lemma Lt_0_inv (x : F) : 0 <! x -> 0 <! 1 / x.
Proof.
  intros Hx. destruct (Le_or_Lt (1 / x) 0) as [Hle | Hlt]; [exfalso | exact Hlt].
  assert (Hinv : 1 / x * x = 1) by (apply fl_inv_l, Lt_neq, Hx).
  destruct (Le_cases _ _ Hle) as [Hneg | Hz].
  - apply Lt_0_neg in Hneg.
    pose proof (Lt_0_mul _ _ Hneg Hx) as Hm.
    replace (- (1 / x) * x) with (- (1 / x * x)) in Hm by ring.
    rewrite Hinv in Hm. apply (Lt_asym fzero (fneg fone) Hm). apply Lt_neg_0, Lt_0_1.
  - rewrite Hz in Hinv. replace (0 * x) with 0 in Hinv by ring.
    apply fl_1_neq_0. symmetry. exact Hinv.
Qed.

(** *** The comparisons and fabs *)

Lemma fge_true (x y : F) : fge x y = true <-> y <=! x.
Proof.
  unfold fge, LessEq. rewrite fl_le_lt. destruct (flt x y); simpl; split; congruence.
Qed.

Lemma fabs_nonneg (x : F) : 0 <=! fabs x.
Proof.
  rewrite fl_abs_def. destruct (flt x 0) eqn:E.
  - apply Lt_Le, Lt_0_neg, E.
  - exact E.
Qed.

Lemma of_int_0 : of_int 0%Z = (0 : F).
Proof.
  pose proof (fl_of_int_add 0%Z 0%Z) as E. change (0 + 0)%Z with 0%Z in E.
  transitivity (of_int 0%Z + of_int 0%Z - of_int 0%Z); [ring|].
  rewrite <- E. ring.
Qed.

Lemma of_int_m1 : of_int (-1)%Z = (- (1) : F).
Proof.
  pose proof (fl_of_int_add (-1)%Z 1%Z) as E. change (-1 + 1)%Z with 0%Z in E.
  rewrite of_int_0, fl_of_int_1 in E.
  transitivity (of_int (-1)%Z + 1 - 1); [ring|]. rewrite <- E. ring.
Qed.

(** The sign computed by line 222. *)
Lemma sign_cases (s : F) :
  (0 <! s /\ sign s = 1) \/ (s <! 0 /\ sign s = - (1)) \/ (s = 0 /\ sign s = 0).
Proof.
  unfold sign, fgt. destruct (flt 0 s) eqn:Hpos.
  - left. split; [exact Hpos|].
    rewrite (proj1 (not_true_iff_false _) (Lt_asym fzero s Hpos)). simpl.
    apply fl_of_int_1.
  - destruct (flt s 0) eqn:Hneg; simpl.
    + right. left. split; [exact Hneg | apply of_int_m1].
    + right. right. split; [apply fl_lt_total; assumption | apply of_int_0].
Qed.

Lemma fl_mul_0_r (x : F) : x * 0 = 0.
Proof. ring. Qed.

Lemma Lt_0_square (x : F) : x <> 0 -> 0 <! x * x.
Proof.
  intros Hx. destruct (Le_or_Lt 0 x) as [Hle | Hlt].
  - destruct (Le_cases _ _ Hle) as [Hpos | Heq]; [|congruence].
    apply Lt_0_mul; exact Hpos.
  - replace (x * x) with (- x * - x) by ring.
    apply Lt_0_mul; apply Lt_0_neg, Hlt.
Qed.

(** *** Sums *)

Lemma fsum_S (m : nat) (f : nat -> F) : fsum (S m) f = fsum m f + f m.
Proof. unfold fsum. rewrite for_S. reflexivity. Qed.

Lemma fsum_ext (m : nat) (f g : nat -> F) :
  (forall i, i < m -> f i = g i) -> fsum m f = fsum m g.
Proof.
  intros E. unfold fsum. apply for_ext. intros i s Hi. rewrite E by exact Hi.
  reflexivity.
Qed.

Lemma fsum_zero (m : nat) : fsum m (fun _ => 0) = (0 : F).
Proof.
  induction m as [|m IH]; [reflexivity|]. rewrite fsum_S, IH. ring.
Qed.

Lemma fsum_add (m : nat) (f g : nat -> F) :
  fsum m (fun i => f i + g i) = fsum m f + fsum m g.
Proof.
  induction m as [|m IH]; [unfold fsum; rewrite !for_0; ring|].
  rewrite !fsum_S, IH. ring.
Qed.

Lemma fsum_mul_l (m : nat) (c : F) (f : nat -> F) :
  fsum m (fun i => c * f i) = c * fsum m f.
Proof.
  induction m as [|m IH]; [unfold fsum; rewrite !for_0; ring|].
  rewrite !fsum_S, IH. ring.
Qed.

Lemma fsum_mul_r (m : nat) (c : F) (f : nat -> F) :
  fsum m (fun i => f i * c) = fsum m f * c.
Proof.
  induction m as [|m IH]; [unfold fsum; rewrite !for_0; ring|].
  rewrite !fsum_S, IH. ring.
Qed.

Lemma fsum_nonneg (m : nat) (f : nat -> F) :
  (forall i, i < m -> 0 <=! f i) -> 0 <=! fsum m f.
Proof.
  induction m as [|m IH]; intros Hf; [apply Le_refl|].
  rewrite fsum_S. apply Le_0_add; [apply IH; intros; apply Hf; lia | apply Hf; lia].
Qed.

Lemma fsum_pos (m : nat) (f : nat -> F) :
  (forall i, i < m -> 0 <=! f i) -> (exists i, i < m /\ 0 <! f i) ->
  0 <! fsum m f.
Proof.
  induction m as [|m IH]; intros Hf (i & Hi & Hpos); [lia|].
  rewrite fsum_S. destruct (decide (i = m)) as [->|Hne].
  - replace (fsum m f + f m) with (f m + fsum m f) by ring.
    apply Lt_0_add; [exact Hpos|]. apply fsum_nonneg. intros; apply Hf; lia.
  - apply Lt_0_add; [|apply Hf; lia].
    apply IH; [intros; apply Hf; lia|]. exists i. split; [lia | exact Hpos].
Qed.

Lemma fsum_delta (m i : nat) (g : nat -> F) :
  i < m -> fsum m (fun j => if decide (i = j) then g j else 0) = g i.
Proof.
  induction m as [|m IH]; intros Hi; [lia|].
  rewrite fsum_S. destruct (decide (i = m)) as [->|Hne].
  - rewrite (fsum_ext m _ (fun _ => 0)), fsum_zero; [ring|].
    intros j Hj. rewrite decide_False by lia. reflexivity.
  - rewrite IH by lia. ring.
Qed.

(** *** Quadratic forms *)

Lemma qf_ext (k : nat) (m m' : nat -> nat -> F) (v : nat -> F) :
  (forall i j, i < k -> j < k -> m i j = m' i j) -> qf k m v = qf k m' v.
Proof.
  intros E. unfold qf. apply fsum_ext. intros i Hi. apply fsum_ext.
  intros j Hj. rewrite E by assumption. reflexivity.
Qed.

Lemma qf_add (k : nat) (m m' : nat -> nat -> F) (v : nat -> F) :
  qf k (fun i j => m i j + m' i j) v = qf k m v + qf k m' v.
Proof.
  unfold qf. rewrite <- fsum_add. apply fsum_ext. intros i Hi.
  rewrite <- fsum_add. apply fsum_ext. intros j Hj. ring.
Qed.

Lemma qf_rank1 (k : nat) (z v : nat -> F) :
  qf k (fun i j => z i * z j) v =
  fsum k (fun i => v i * z i) * fsum k (fun i => v i * z i).
Proof.
  unfold qf. rewrite <- fsum_mul_r. apply fsum_ext. intros i Hi.
  rewrite <- fsum_mul_l. apply fsum_ext. intros j Hj. ring.
Qed.

Lemma qf_diag (k : nat) (d v : nat -> F) :
  qf k (fun i j => if decide (i = j) then d i else 0) v =
  fsum k (fun i => d i * (v i * v i)).
Proof.
  unfold qf. apply fsum_ext. intros i Hi.
  rewrite (fsum_ext k _ (fun j => if decide (i = j) then v i * d i * v j else 0)).
  - rewrite fsum_delta by exact Hi. ring.
  - intros j Hj. case_decide; ring.
Qed.

Lemma qf_zero (k : nat) (v : nat -> F) : qf k (fun _ _ => 0) v = 0.
Proof.
  unfold qf. rewrite (fsum_ext k _ (fun _ => 0)); [apply fsum_zero|].
  intros i Hi. rewrite (fsum_ext k _ (fun _ => 0)); [apply fsum_zero|].
  intros j Hj. ring.
Qed.

Lemma psd_rank1 (k : nat) (z : nat -> F) : psd k (fun i j => z i * z j).
Proof. intros v. rewrite qf_rank1. apply Le_0_square. Qed.

Lemma psd_diag (k : nat) (d : nat -> F) :
  (forall i, i < k -> 0 <=! d i) ->
  psd k (fun i j => if decide (i = j) then d i else 0).
Proof.
  intros Hd v. rewrite qf_diag. apply fsum_nonneg.
  intros i Hi. apply Le_0_mul; [apply Hd, Hi | apply Le_0_square].
Qed.

Lemma pd_diag (k : nat) (d : nat -> F) :
  (forall i, i < k -> 0 <! d i) ->
  pd k (fun i j => if decide (i = j) then d i else 0).
Proof.
  intros Hd v (i & Hi & Hv). rewrite qf_diag. apply fsum_pos.
  - intros j Hj. apply Le_0_mul; [apply Lt_Le, Hd, Hj | apply Le_0_square].
  - exists i. split; [exact Hi|].
    apply Lt_0_mul; [apply Hd, Hi | apply Lt_0_square, Hv].
Qed.

Lemma psd_zero (k : nat) : psd k (fun _ _ => 0).
Proof. intros v. rewrite qf_zero. apply Le_refl. Qed.

Lemma psd_add (k : nat) (m m' : nat -> nat -> F) :
  psd k m -> psd k m' -> psd k (fun i j => m i j + m' i j).
Proof. intros Hm Hm' v. rewrite qf_add. apply Le_0_add; [apply Hm | apply Hm']. Qed.

Lemma pd_add_psd (k : nat) (m m' : nat -> nat -> F) :
  pd k m -> psd k m' -> pd k (fun i j => m i j + m' i j).
Proof.
  intros Hm Hm' v Hv. rewrite qf_add. apply Lt_0_add; [apply Hm, Hv | apply Hm'].
Qed.

Lemma psd_ext (k : nat) (m m' : nat -> nat -> F) :
  (forall i j, i < k -> j < k -> m i j = m' i j) -> psd k m -> psd k m'.
Proof. intros E Hm v. rewrite <- (qf_ext k m m' v E). apply Hm. Qed.

Lemma pd_ext (k : nat) (m m' : nat -> nat -> F) :
  (forall i j, i < k -> j < k -> m i j = m' i j) -> pd k m -> pd k m'.
Proof. intros E Hm v Hv. rewrite <- (qf_ext k m m' v E). apply Hm, Hv. Qed.

Lemma accumulated_sum (k : nat) (m : nat -> nat -> F) (z d : nat -> F) (i j : nat) :
  accumulated m z d i j =
  m i j + ((fun i j => z i * z j) i j + (fun i j => if decide (i = j) then d i else 0) i j).
Proof. unfold accumulated. case_decide; ring. Qed.

Lemma accumulated_sym (k : nat) (m : nat -> nat -> F) (z d : nat -> F) :
  sym k m -> sym k (accumulated m z d).
Proof.
  intros Hm i j Hi Hj. unfold accumulated.
  destruct (decide (i = j)) as [->|Hne]; [rewrite decide_True by reflexivity; reflexivity|].
  rewrite decide_False by congruence. rewrite (Hm i j Hi Hj). ring.
Qed.

Lemma accumulated_psd (k : nat) (m : nat -> nat -> F) (z d : nat -> F) :
  (forall i, i < k -> 0 <=! d i) -> psd k m -> psd k (accumulated m z d).
Proof.
  intros Hd Hm.
  apply (psd_ext k (fun i j => m i j +
    ((fun i j => z i * z j) i j + (fun i j => if decide (i = j) then d i else 0) i j))).
  - intros i j _ _. symmetry. apply (accumulated_sum k).
  - apply psd_add; [exact Hm|]. apply psd_add; [apply psd_rank1 | apply psd_diag, Hd].
Qed.

Lemma accumulated_pd (k : nat) (m : nat -> nat -> F) (z d : nat -> F) :
  (forall i, i < k -> 0 <=! d i) -> pd k m -> pd k (accumulated m z d).
Proof.
  intros Hd Hm.
  apply (pd_ext k (fun i j => m i j +
    ((fun i j => z i * z j) i j + (fun i j => if decide (i = j) then d i else 0) i j))).
  - intros i j _ _. symmetry. apply (accumulated_sum k).
  - apply pd_add_psd; [exact Hm|]. apply psd_add; [apply psd_rank1 | apply psd_diag, Hd].
Qed.

Lemma lookup_total_scaled (c : F) (x : list F) (i : nat) :
  (map (fmul c) x) !!! i = c * x !!! i.
Proof.
  destruct (decide (i < length x)) as [Hlt|Hge].
  - rewrite !list_lookup_total_alt, list_lookup_fmap.
    destruct (lookup_lt_is_Some_2 x i Hlt) as [v ->]. reflexivity.
  - rewrite !list_lookup_total_alt, list_lookup_fmap.
    rewrite (lookup_ge_None_2 x i) by lia. simpl.
    symmetry. apply fl_mul_0_r.
Qed.

Lemma posterior_mean_scaled (n k : nat) (c : F) (x LPsi LPsiL lap_j : list F)
    (j : nat) :
  posterior_mean n k (map (fmul c) x) LPsi LPsiL lap_j j =
  c * posterior_mean n k x LPsi LPsiL lap_j j.
Proof.
  unfold posterior_mean. induction n as [|n IH].
  - rewrite !for_0. ring.
  - rewrite !for_S, IH, lookup_total_scaled. ring.
Qed.

(** C9.  The posterior mean is linear in the data: on the sample column
    c*x the kernel returns c times the z it returns on x, for the same
    LPsi, LPsiL and lapla. *)
Theorem estimateZ_linear (n k : nat) (c : F) (x LPsi LPsiL : list F)
    (spz lap : F) (b : kernel_bufs) :
  length (k_z b) = k -> length (k_iLPsiL b) = k ->
  length (k_iLPsiLX b) = (n*k)%nat ->
  forall j, j < k ->
    k_z (approx_estimateZ n k (map (fmul c) x) LPsi LPsiL spz lap b) !!! j =
    c * k_z (approx_estimateZ n k x LPsi LPsiL spz lap b) !!! j.
Proof.
  intros Hz Hi HX j Hj.
  destruct (estimateZ_spec n k (map (fmul c) x) LPsi LPsiL spz lap b
              Hz Hi HX) as (_ & _ & _ & ->); [|exact Hj].
  destruct (estimateZ_spec n k x LPsi LPsiL spz lap b
              Hz Hi HX) as (_ & _ & _ & ->); [|exact Hj].
  apply posterior_mean_scaled.
Qed.

End Arithmetic.

(** ** The phases of an iteration, entry by entry *)

Section Phases.

Context {F : Type} {ops : FloatOps F}.
Local Open Scope fl_scope.

Lemma column_major_lt (n k i1 i2 : nat) :
  i1 < n -> i2 < k -> (i1 + n*i2 < n*k)%nat.
Proof.
  intros H1 H2. assert (n * S i2 <= n * k)%nat by (apply Nat.mul_le_mono_l; lia). lia.
Qed.

Lemma column_major_inj (n i1 i2 i1' i2' : nat) :
  i1 < n -> i1' < n -> (i1 + n*i2 = i1' + n*i2')%nat -> i2 = i2' /\ i1 = i1'.
Proof.
  intros H1 H1' E. apply (index_inj n i2 i1 i2' i1'); lia.
Qed.

Lemma shrink_spec (n k : nat) (Psi : list F) (alpha spl : F) (L : list F) :
  length L = (n*k)%nat ->
  length (shrink n k Psi alpha spl L) = (n*k)%nat /\
  (forall i1 i2, i1 < n -> i2 < k ->
     shrink n k Psi alpha spl L !!! (i1 + n*i2)%nat =
       shrink_entry (Psi !!! i1) alpha spl (L !!! (i1 + n*i2)%nat)).
Proof.
  intros Hlen. unfold shrink.
  destruct (for2_cells k n (fun i2 i1 => (i1 + n*i2)%nat)
    (fun i2 i1 v => shrink_entry (Psi !!! i1) alpha spl v) L)
    as (Hl & Hset & _).
  - intros i2 i1 H2 H1. rewrite Hlen. apply column_major_lt; assumption.
  - intros i2 i1 i2' i1' H2 H1 H2' H1' E. apply (column_major_inj n i1 i2 i1' i2'); assumption.
  - split; [rewrite Hl; exact Hlen|].
    intros i1 i2 H1 H2. apply (Hset i2 i1 H2 H1).
Qed.

Lemma update_Psi_spec (n k l : nat) (L sum1_ XX : list F) (eps : F) (Psi : list F) :
  length Psi = n ->
  let r := update_Psi n k l L sum1_ XX eps Psi in
  length r.1 = n /\
  (forall i, i < n -> r.1 !!! i = new_Psi n k l L sum1_ XX eps i) /\
  r.2 = max_abs_residual n k L sum1_.
Proof.
  intros Hlen r. subst r. unfold update_Psi, max_abs_residual.
  set (body := fun (i1 : nat) '(Psi, t) =>
    let s := residual n k L sum1_ i1 in
    let t := if fgt (fabs s) t then fabs s else t in
    let Psi := <[i1 := XX !!! i1 - s / of_int (Z.of_nat l)]> Psi in
    let Psi := if flt (Psi !!! i1) eps then <[i1 := eps]> Psi else Psi in
    (Psi, t)).
  set (tbody := fun (i1 : nat) (t : F) =>
    let s := residual n k L sum1_ i1 in
    if fgt (fabs s) t then fabs s else t).
  enough (HP : forall m, m <= n ->
    length (for_ m body (Psi, 0)).1 = n /\
    (forall i, i < m -> (for_ m body (Psi, 0)).1 !!! i = new_Psi n k l L sum1_ XX eps i) /\
    (for_ m body (Psi, 0)).2 = for_ m tbody 0).
  { apply (HP n). lia. }
  induction m as [|m IH]; intros Hm.
  - rewrite !for_0. simpl. repeat split; auto. intros; lia.
  - rewrite !for_S. destruct (IH ltac:(lia)) as (Hl & Hset & Ht).
    destruct (for_ m body (Psi, 0)) as [P t]. simpl in *.
    rewrite list_lookup_total_insert_eq by lia.
    assert (Hnew : forall i, i < S m ->
      (if flt (XX !!! m - residual n k L sum1_ m / of_int (Z.of_nat l)) eps
       then <[m := eps]> (<[m := XX !!! m - residual n k L sum1_ m / of_int (Z.of_nat l)]> P)
       else <[m := XX !!! m - residual n k L sum1_ m / of_int (Z.of_nat l)]> P) !!! i
      = new_Psi n k l L sum1_ XX eps i).
    { intros i Hi. destruct (decide (i = m)) as [->|Hne].
      - unfold new_Psi.
        destruct (flt (XX !!! m - residual n k L sum1_ m / of_int (Z.of_nat l)) eps);
          rewrite list_lookup_total_insert_eq; rewrite ?length_insert; auto; lia.
      - destruct (flt _ eps);
          rewrite ?list_lookup_total_insert_ne by lia; apply Hset; lia. }
    repeat split.
    + destruct (flt _ eps); rewrite ?length_insert; exact Hl.
    + exact Hnew.
    + rewrite Ht. reflexivity.
Qed.

Lemma collapse_Psi_spec (n : nat) (eps : F) (Psi : list F) :
  length Psi = n -> collapse_Psi n eps Psi = replicate n eps.
Proof. apply for_fill. Qed.

Lemma collapse_lapla_spec (k l : nat) (eps : F) (lapla : list F) :
  length lapla = (k*l)%nat -> collapse_lapla k l eps lapla = replicate (k*l) eps.
Proof.
  intros Hlen. unfold collapse_lapla.
  destruct (for2_cells l k (fun j i1 => (j*k + i1)%nat) (fun _ _ _ => eps) lapla)
    as (Hl & Hset & _).
  - intros j i Hj Hi. pose proof (index_lt l k j i Hj Hi). rewrite Hlen. lia.
  - intros j i j' i' Hj Hi Hj' Hi' E. apply (index_inj k j i j' i'); assumption.
  - apply list_eq_same_length with (k*l)%nat;
      [apply length_replicate | rewrite Hl; exact Hlen |].
    intros idx x y Hidx Hx Hy.
    apply lookup_replicate in Hy as [-> _].
    assert (Hk : 0 < k) by (destruct k; [lia | lia]).
    pose proof (Nat.div_mod idx k ltac:(lia)) as Hdm.
    assert (Hq : (idx / k)%nat < l).
    { apply Nat.Div0.div_lt_upper_bound. lia. }
    assert (Hr : idx mod k < k) by (apply Nat.mod_upper_bound; lia).
    specialize (Hset (idx / k)%nat (idx mod k)%nat Hq Hr).
    replace (idx / k * k + idx mod k)%nat with idx in Hset by lia.
    rewrite list_lookup_total_alt, Hx in Hset. exact Hset.
Qed.

Lemma length_prelude (n k : nat) (L Psi : list F) (s : list F * list F) :
  length (prelude n k L Psi s).1 = length s.1 /\
  length (prelude n k L Psi s).2 = length s.2.
Proof.
  unfold prelude.
  apply (for_inv (fun r => length r.1 = length s.1 /\ length r.2 = length s.2));
    [auto|].
  intros i1 [a b] _ [Ha Hb]; simpl in *.
  apply (for_inv (fun r => length r.1 = length s.1 /\ length r.2 = length s.2)).
  - simpl. rewrite length_insert. auto.
  - intros i2 [a' b'] _ [Ha' Hb']; simpl in *. rewrite !length_insert. auto.
Qed.

Lemma init_sum2_spec (k nthreads : nat) (eps : F) (sum2_ : list F) :
  1 <= nthreads ->
  let a := init_sum2 k eps (memset0 (nthreads*k*k) sum2_) in
  (nthreads*k*k <= length a)%nat /\
  (forall i j, i < k -> j < k ->
     block k a 0 i j = if decide (i = j) then eps else 0) /\
  (forall tid i j, 1 <= tid -> tid < nthreads -> i < k -> j < k ->
     block k a tid i j = 0).
Proof.
  intros Hn a. subst a. unfold init_sum2.
  set (a0 := memset0 (nthreads*k*k) sum2_).
  assert (Hlen0 : (nthreads*k*k <= length a0)%nat)
    by (unfold a0; rewrite length_memset0; lia).
  assert (Hkk : (k*k <= nthreads*k*k)%nat).
  { rewrite <- Nat.mul_assoc. rewrite <- (Nat.mul_1_l (k*k)) at 1.
    apply Nat.mul_le_mono_r. lia. }
  destruct (for_cells k (fun i => (i*k+i)%nat) (fun _ _ => eps) a0)
    as (Hl & Hset & Hother).
  { intros i Hi. pose proof (index_lt k k i i Hi Hi). lia. }
  { intros i j Hi Hj E. apply (index_inj k i i j j Hi Hj E). }
  split; [rewrite Hl; exact Hlen0|]. split.
  - intros i j Hi Hj. unfold block. simpl.
    destruct (decide (i = j)) as [<-|Hne]; [apply Hset, Hi|].
    rewrite Hother.
    + apply lookup_total_memset0. pose proof (index_lt k k i j Hi Hj). lia.
    + intros i' Hi' E. apply index_inj in E; [lia | assumption | assumption].
  - intros tid i j Ht1 Ht2 Hi Hj. unfold block.
    assert (Hblk : (tid*k*k + (i*k+j) < S tid * k * k)%nat).
    { pose proof (index_lt k k i j Hi Hj). simpl. lia. }
    assert (Hge : (1*k*k <= tid*k*k)%nat).
    { apply Nat.mul_le_mono_r, Nat.mul_le_mono_r. lia. }
    rewrite Hother.
    + apply lookup_total_memset0.
      assert (S tid * k * k <= nthreads * k * k)%nat
        by (apply Nat.mul_le_mono_r, Nat.mul_le_mono_r; lia).
      lia.
    + intros i' Hi' E. pose proof (index_lt k k i' i' Hi' Hi'). lia.
Qed.

Lemma reduce_spec (len nthreads : nat) (a : list F) :
  (nthreads*len <= length a)%nat -> 1 <= nthreads ->
  length (reduce len nthreads a) = length a /\
  (forall i, i < len -> reduce len nthreads a !!! i = reduced_cell len nthreads a i) /\
  (forall c, (len <= c)%nat -> reduce len nthreads a !!! c = a !!! c).
Proof.
  intros Hlen Hn. unfold reduce.
  assert (Hll : (len <= length a)%nat).
  { rewrite <- (Nat.mul_1_l len) at 1.
    apply (Nat.le_trans _ (nthreads*len)); [apply Nat.mul_le_mono_r; lia | exact Hlen]. }
  set (P := fun (m : nat) (r : list F) =>
    length r = length a /\
    (forall i, i < m -> r !!! i = reduced_cell len nthreads a i) /\
    (forall c, (m <= c)%nat -> r !!! c = a !!! c)).
  match goal with |- context [for_ len ?body a] =>
    enough (HP : P len (for_ len body a)) by exact HP;
    apply (for_ind P len body a) end.
  - repeat split; auto; intros; lia.
  - intros m r Hm (Hl & Hdone & Hrest).
    set (Q := fun (t : nat) (r' : list F) =>
      length r' = length a /\
      r' !!! m = for_ t (fun d acc => acc + a !!! (m + (1 + d)*len)%nat) (a !!! m) /\
      (forall c, c <> m -> r' !!! c = r !!! c)).
    match goal with |- P _ (for_ ?t ?body r) =>
      assert (HQ : Q t (for_ t body r)) by
       (apply (for_ind Q t body r);
        [ repeat split; auto; rewrite for_0; apply Hrest; lia
        | intros t0 r' Ht (Hl' & Hm' & Ho'); repeat split;
          [ rewrite length_insert; exact Hl'
          | rewrite list_lookup_total_insert_eq by lia;
            rewrite for_S, Hm', Ho' by lia;
            rewrite Hrest by lia; reflexivity
          | intros c Hc; rewrite list_lookup_total_insert_ne by congruence;
            apply Ho', Hc ] ]) end.
    destruct HQ as (Hl' & Hm' & Ho'). repeat split.
    + exact Hl'.
    + intros i Hi. destruct (decide (i = m)) as [->|Hne].
      * rewrite Hm'. reflexivity.
      * rewrite Ho' by exact Hne. apply Hdone. lia.
    + intros c Hc. rewrite Ho' by lia. apply Hrest. lia.
Qed.

End Phases.

(** ** The engine: data flow *)

Section EngineFlow.

Context {F : Type} {ops : FloatOps F} {ext : Externals F}.
Local Open Scope fl_scope.


(** *** Lengths *)

Lemma length_kernel_init (k : nat) (LPsiL lapla : list F) (s : list F * list F) :
  length (kernel_init k LPsiL lapla s).1 = length s.1 /\
  length (kernel_init k LPsiL lapla s).2 = length s.2.
Proof.
  unfold kernel_init.
  apply (for_inv (fun r => length r.1 = length s.1 /\ length r.2 = length s.2));
    [auto|].
  intros i [a b] _ [Ha Hb]; simpl in *. rewrite !length_insert. auto.
Qed.

Lemma length_kernel_mean (n k : nat) (x LPsi iLPsiL : list F) (s : list F * list F) :
  length (kernel_mean n k x LPsi iLPsiL s).1 = length s.1 /\
  length (kernel_mean n k x LPsi iLPsiL s).2 = length s.2.
Proof.
  unfold kernel_mean.
  apply (for_inv (fun r => length r.1 = length s.1 /\ length r.2 = length s.2));
    [auto|].
  intros i s1 _ Hs1.
  apply (for_inv (fun r => length r.1 = length s.1 /\ length r.2 = length s.2));
    [auto|].
  intros j [a b] _ [Ha Hb]; simpl in *. rewrite !length_insert. auto.
Qed.

Lemma length_kernel_accum (k : nat) (z : list F) (spz lap : F)
    (s : list F * list F * list F) :
  length (kernel_accum k z spz lap s).1.1 = length s.1.1 /\
  length (kernel_accum k z spz lap s).1.2 = length s.1.2 /\
  length (kernel_accum k z spz lap s).2 = length s.2.
Proof.
  unfold kernel_accum.
  apply (for_inv (fun r => length r.1.1 = length s.1.1 /\
    length r.1.2 = length s.1.2 /\ length r.2 = length s.2)); [auto|].
  intros i [[a b] c] _ (Ha & Hb & Hc); simpl in *.
  rewrite !length_insert. repeat split; auto.
  rewrite <- Ha. apply (for_inv (fun r => length r = length a)); [auto|].
  intros j r _ Hr. rewrite length_insert. exact Hr.
Qed.

Lemma length_estimateZ (n k : nat) (x LPsi LPsiL : list F) (spz lap : F)
    (b : kernel_bufs) :
  length (k_z (approx_estimateZ n k x LPsi LPsiL spz lap b)) = length (k_z b) /\
  length (k_lapla (approx_estimateZ n k x LPsi LPsiL spz lap b)) =
    length (k_lapla b).
Proof.
  unfold approx_estimateZ.
  pose proof (length_kernel_init k LPsiL (k_lapla b) (k_iLPsiL b, k_z b)) as [_ Hz].
  destruct (kernel_init k LPsiL (k_lapla b) (k_iLPsiL b, k_z b)) as [iL z0].
  pose proof (length_kernel_mean n k x LPsi iL (k_iLPsiLX b, z0)) as [_ Hz1].
  destruct (kernel_mean n k x LPsi iL (k_iLPsiLX b, z0)) as [iX z1].
  simpl in *.
  destruct (k_sum1 b) as [s1|], (k_sum2 b) as [s2|]; simpl; try (split; congruence).
  pose proof (length_kernel_accum k z1 spz lap (s2, iL, k_lapla b)) as (_ & _ & Hl).
  destruct (kernel_accum k z1 spz lap (s2, iL, k_lapla b)) as [[? ?] ?].
  simpl in *. split; congruence.
Qed.

Lemma length_estep (n k l : nat) (X LPsi LPsiL : list F) (spz lap : F)
    (acc : bool) (e : estep_bufs) :
  length (e_Z (estep n k l X LPsi LPsiL spz lap acc e)) = length (e_Z e) /\
  length (e_lapla (estep n k l X LPsi LPsiL spz lap acc e)) = length (e_lapla e).
Proof.
  unfold estep.
  apply (for_inv (fun r => length (e_Z r) = length (e_Z e) /\
    length (e_lapla r) = length (e_lapla e))); [auto|].
  intros j r _ [HZ Hl]. unfold estep_sample. simpl.
  match goal with |- context [approx_estimateZ n k ?x LPsi LPsiL spz lap ?b] =>
    pose proof (length_estimateZ n k x LPsi LPsiL spz lap b) as [Hz' Hl'] end.
  simpl in Hz', Hl'.
  rewrite (length_splice_slice _ k), (length_splice_slice _ k) by assumption.
  auto.
Qed.

(** *** The pass with accumulators *)

Lemma estimateZ_accum (n k : nat) (x LPsi LPsiL : list F) (spz lap : F)
    (b : kernel_bufs) (s1 s2 : list F) :
  k_sum1 b = Some s1 -> k_sum2 b = Some s2 ->
  length s2 = (k*k)%nat -> length (k_iLPsiL b) = k -> length (k_z b) = k ->
  let b' := approx_estimateZ n k x LPsi LPsiL spz lap b in
  exists s2', k_sum2 b' = Some s2' /\ length s2' = (k*k)%nat /\
    length (k_iLPsiL b') = k /\
    forall i j, i < k -> j < k ->
      s2' !!! (i*k+j)%nat =
        accumulated (entries k s2) (fun i => k_z b' !!! i)
          (precision LPsiL (k_lapla b)) i j.
Proof.
  intros E1 E2 Hs2 HiL Hz b'. subst b'. unfold approx_estimateZ. rewrite E1, E2.
  destruct (kernel_init_spec k LPsiL (k_lapla b) (k_iLPsiL b) (k_z b) HiL Hz)
    as (Hli & _ & Hprec & _).
  destruct (kernel_init k LPsiL (k_lapla b) (k_iLPsiL b, k_z b)) as [iL z0].
  destruct (kernel_mean n k x LPsi iL (k_iLPsiLX b, z0)) as [iX z1].
  simpl in Hli, Hprec.
  pose proof (kernel_accum_sum2 k z1 spz lap s2 iL (k_lapla b) Hs2 Hli) as [Hl Hacc].
  pose proof (length_kernel_accum k z1 spz lap (s2, iL, k_lapla b)) as (_ & HliL & _).
  destruct (kernel_accum k z1 spz lap (s2, iL, k_lapla b)) as [[s2' iL'] la].
  simpl in *. exists s2'. repeat split; [exact Hl | congruence |].
  intros i j Hi Hj. rewrite (Hacc i j Hi Hj). unfold accumulated.
  case_decide; [rewrite (Hprec i Hi)|]; reflexivity.
Qed.

(** *** The pass without accumulators *)

Lemma estep_null_lapla (n k l : nat) (X LPsi LPsiL : list F) (spz lap : F)
    (e : estep_bufs) :
  e_lapla (estep n k l X LPsi LPsiL spz lap false e) = e_lapla e.
Proof.
  unfold estep.
  apply (for_inv (fun r => e_lapla r = e_lapla e)); [reflexivity|].
  intros j r _ Hr. unfold estep_sample. simpl.
  match goal with |- context [approx_estimateZ n k ?x LPsi LPsiL spz lap ?b] =>
    destruct (estimateZ_null n k x LPsi LPsiL spz lap b) as (-> & _) end;
    [left; reflexivity|].
  simpl. rewrite splice_slice. exact Hr.
Qed.

(** *** The phases, state to state *)

Lemma estep_phase_frame (p : params) (st : state) :
  st_Psi (estep_phase p st) = st_Psi st /\
  st_L (estep_phase p st) = st_L st /\
  length (st_Z (estep_phase p st)) = length (st_Z st) /\
  length (st_lapla (estep_phase p st)) = length (st_lapla st) /\
  st_t (estep_phase p st) = st_t st /\
  st_rng (estep_phase p st) = st_rng st /\
  st_out (estep_phase p st) = st_out st.
Proof.
  unfold estep_phase.
  destruct (prelude _ _ _ _ _) as [LPsi LPsiL]. simpl.
  match goal with |- context [estep ?n ?k ?l ?X LPsi LPsiL ?spz ?lap true ?e] =>
    pose proof (length_estep n k l X LPsi LPsiL spz lap true e) as [HZ Hl] end.
  simpl in HZ, Hl. repeat split; assumption.
Qed.

Lemma mstep_phase_inv (p : params) (st st' : state) :
  mstep_phase p st = Returned st' ->
  let L' := shrink (p_n p) (p_k p) (st_Psi st) (p_alpha p) (p_spl p)
              (gemm (p_n p) (p_k p) (st_sum1_ st) (st_sum2_ st') (st_L st)) in
  let u := update_Psi (p_n p) (p_k p) (p_l p) L' (st_sum1_ st) (p_XX p)
             (p_eps p) (st_Psi st) in
  invertCholesky (st_sum2_ st) (p_k p) = Returned (st_sum2_ st') /\
  st_Psi st' = u.1 /\ st_t st' = u.2 /\ st_L st' = L' /\
  st_Z st' = st_Z st /\ st_lapla st' = st_lapla st /\
  st_sum1_ st' = st_sum1_ st /\
  st_rng st' = st_rng st /\ st_out st' = st_out st.
Proof.
  unfold mstep_phase.
  destruct (invertCholesky (st_sum2_ st) (p_k p)) as [sum2'| |];
    [|discriminate|discriminate].
  destruct (update_Psi _ _ _ _ _ _ _ _) as [Psi' t'] eqn:E.
  intros [= <-]. simpl. rewrite E. simpl. repeat split; reflexivity.
Qed.

Lemma tail_phase_frame (p : params) (iter : Z) (st : state) :
  st_Psi (tail_phase p iter st) = st_Psi st /\
  st_Z (tail_phase p iter st) = st_Z st /\
  st_t (tail_phase p iter st) = st_t st.
Proof.
  unfold tail_phase.
  destruct (if negb (p_scale p =? 0)%Z then _ else _) as [L lapla].
  destruct (reset _ _ _ _) as [[[L' lapla'] rng] nreset]. simpl. auto.
Qed.

Lemma tail_phase_scratch (p : params) (iter : Z) (st : state) :
  st_LPsi (tail_phase p iter st) = st_LPsi st /\
  st_LPsiL (tail_phase p iter st) = st_LPsiL st /\
  st_iLPsiL_ (tail_phase p iter st) = st_iLPsiL_ st.
Proof.
  unfold tail_phase.
  destruct (if negb (p_scale p =? 0)%Z then _ else _) as [L lapla].
  destruct (reset _ _ _ _) as [[[L' lapla'] rng] nreset]. simpl. auto.
Qed.

Lemma length_reset_lapla (n k l : nat) (s : list F * list F * nat * nat) :
  length (reset n k l s).1.1.2 = length s.1.1.2.
Proof.
  unfold reset.
  apply (for_inv (fun r : list F * list F * nat * nat =>
    length r.1.1.2 = length s.1.1.2)); [reflexivity|].
  intros c [[[L' la] g] nr] _ Hinv; simpl in *.
  destruct (isZero n L' c); [|exact Hinv].
  destruct (for_ n _ (L', g)) as [L'' g']. simpl.
  apply (for_inv (fun r : list F => length r = length s.1.1.2)); [exact Hinv|].
  intros j r _ Hr. rewrite length_insert. exact Hr.
Qed.

Lemma em_iteration_inv (p : params) (ok : bool) (iter : Z) (st st' : state)
    (fl : flow) :
  em_iteration p ok iter st = Returned (st', fl) ->
  exists st1, mstep_phase p (estep_phase p st) = Returned st1 /\
    ((flt (st_t st1) (p_eps p) = true /\ fl = Break /\ st' = collapse p st1) \/
     (flt (st_t st1) (p_eps p) = false /\ fl = Continue /\
      st' = tail_phase p iter st1)).
Proof.
  unfold em_iteration. destruct ok; simpl; [|discriminate].
  destruct (mstep_phase p (estep_phase p st)) as [st1| |]; [|discriminate|discriminate].
  intros E. exists st1. split; [reflexivity|].
  destruct (flt (st_t st1) (p_eps p)); injection E as <- <-; [left | right]; auto.
Qed.

(** The loop of line 173, one iteration at a time: [I] is kept by every
    iteration, [P] holds after every iteration started in [I]. *)
Lemma em_loop_ind (I P : state -> Prop) (p : params) (ok : bool) :
  (forall iter st st' fl,
     I st -> em_iteration p ok iter st = Returned (st', fl) -> I st' /\ P st') ->
  forall fuel iter st st',
    I st -> em_loop p ok fuel iter st = Returned st' ->
    fuel <> O \/ P st -> I st' /\ P st'.
Proof.
  intros Hstep. induction fuel as [|fuel IH]; intros iter st st' HI E Hst.
  - simpl in E. injection E as <-.
    destruct Hst as [Hne|HP]; [congruence | split; assumption].
  - simpl in E.
    destruct (em_iteration p ok iter st) as [[st1 fl]| |] eqn:Eit;
      [|discriminate|discriminate].
    destruct (Hstep _ _ _ _ HI Eit) as [HI1 HP1].
    destruct fl.
    + apply (IH _ _ _ HI1 E). right. exact HP1.
    + injection E as <-. split; assumption.
Qed.

(** What [last_update] returns for the arrays other than Z. *)
Lemma last_update_frame (p : params) (ok : bool) (st : state) (r : result) :
  last_update p ok st = Returned r ->
  r_Psi r = st_Psi st /\ r_L r = st_L st /\ r_lapla r = st_lapla st /\
  r_out r = st_out st ++ [Timing_report].
Proof.
  unfold last_update. intros E.
  destruct (fge (st_t st) (p_eps p)).
  - destruct ok; simpl in E; [|discriminate].
    destruct (prelude _ _ _ _ _) as [LPsi LPsiL].
    injection E as <-. simpl. rewrite estep_null_lapla. auto.
  - injection E as <-. simpl. auto.
Qed.

(** C10.  The pass without accumulators never writes lapla: a kernel call
    with a NULL sum1 or sum2 returns lapla as it got it, so does the loop
    of the final pass over all the samples, and the lapla that
    [approx_fabia_cm_f] returns after its loop is the one of the state the
    loop ended in (after the rescale and reset of the last iteration). *)
Theorem final_pass_keeps_lapla :
  (forall n k x LPsi LPsiL spz lap b,
     k_sum1 b = None \/ k_sum2 b = None ->
     k_lapla (approx_estimateZ n k x LPsi LPsiL spz lap b) = k_lapla b) /\
  (forall n k l X LPsi LPsiL spz lap e,
     e_lapla (estep n k l X LPsi LPsiL spz lap false e) = e_lapla e) /\
  (forall p ok st r,
     last_update p ok st = Returned r -> r_lapla r = st_lapla st) /\
  (forall k n l X Psi L Zs lapla cyc alpha eps spl spz scale lap verbose
          nthreads m XX iLPsiL_ iLPsiLX_ st r,
     a_XX m = Some XX -> a_iLPsiL_ m = Some iLPsiL_ ->
     a_iLPsiLX_ m = Some iLPsiLX_ ->
     em_loop
       (start_params k n l X cyc alpha eps spl spz scale lap verbose nthreads XX)
       (scratch_ok m) (Z.to_nat cyc) 1%Z
       (start_state k nthreads Psi L Zs lapla m iLPsiL_ iLPsiLX_) = Returned st ->
     approx_fabia_cm_f k n l X Psi L Zs lapla cyc alpha eps spl spz scale lap
       verbose nthreads m = Returned r ->
     r_lapla r = st_lapla st).
Proof.
  repeat split.
  - intros n k x LPsi LPsiL spz lap b Hnull.
    apply (estimateZ_null n k x LPsi LPsiL spz lap b Hnull).
  - intros. apply estep_null_lapla.
  - intros p ok st r E. apply (last_update_frame p ok st r E).
  - intros k n l X Psi L Zs lapla cyc alpha eps spl spz scale lap verbose
      nthreads m XX iLPsiL_ iLPsiLX_ st r HXX HiL HiLX Hloop Hrun.
    unfold approx_fabia_cm_f in Hrun.
    rewrite HiLX, HXX, HiL, Hloop in Hrun.
    apply (last_update_frame _ _ _ _ Hrun).
Qed.

(** *** No iteration *)

(** C6, as the code has it.  With cyc = 0 and every allocation successful
    the engine returns Psi, L and lapla as the caller supplied them and
    overwrites Z: t is still 0.0 after the loop, so Z is zeroed unless
    0.0 >= eps, and is the result of the pass without accumulators
    otherwise. *)
Theorem cyc0_frame (k n l : nat) (X Psi L Zs lapla : list F)
    (alpha eps spl spz : F) (scale : Z) (lap : F) (verbose : Z) (nthreads : nat)
    (sum1_ sum2_ XX LPsi LPsiL iLPsiL_ iLPsiLX_ : list F) :
  let lp := prelude n k L Psi (LPsi, LPsiL) in
  let e := estep n k l X lp.1 lp.2 spz (if flt lap eps then eps else lap) false
             (EstepBufs Zs lapla (memset0 (nthreads*k) iLPsiL_) iLPsiLX_
                sum1_ sum2_) in
  approx_fabia_cm_f k n l X Psi L Zs lapla 0%Z alpha eps spl spz scale lap
    verbose nthreads
    (Allocation (Some sum1_) (Some sum2_) (Some XX) (Some LPsi) (Some LPsiL)
       (Some iLPsiL_) (Some iLPsiLX_))
  = Returned (Result Psi L
      (if fge 0 eps then e_Z e else memset0 (k*l) Zs) lapla [Timing_report]).
Proof.
  unfold approx_fabia_cm_f, last_update, start_state, start_params, lpsi_ok;
    simpl.
  destruct (fge 0 eps) eqn:Hge; [|reflexivity].
  destruct (prelude n k L Psi (LPsi, LPsiL)) as [LPsi' LPsiL']. simpl.
  rewrite estep_null_lapla. reflexivity.
Qed.

(** *** Allocation failures *)

(** The check of line 131: when the last allocation fails the engine
    zeroes L and Z, leaves Psi and lapla, and returns. *)
Lemma out_of_memory_last (k n l : nat) (X Psi L Zs lapla : list F)
    (cyc : Z) (alpha eps spl spz : F) (scale : Z) (lap : F) (verbose : Z)
    (nthreads : nat) (s1 s2 xx lp lpl il : option (list F)) :
  approx_fabia_cm_f k n l X Psi L Zs lapla cyc alpha eps spl spz scale lap
    verbose nthreads (Allocation s1 s2 xx lp lpl il None)
  = Returned (Result Psi (memset0 (n*k) L) (memset0 (k*l) Zs) lapla
      [Out_of_memory]).
Proof. reflexivity. Qed.

(** C7, where the code departs from it.  Only the last of the seven
    allocations is tested: when the allocation of XX fails and the last
    one succeeds, the engine does not take the out-of-memory return; it
    goes on to line 162 and writes through the NULL pointer. *)
Theorem out_of_memory_unchecked (k n l : nat) (X Psi L Zs lapla : list F)
    (cyc : Z) (alpha eps spl spz : F) (scale : Z) (lap : F) (verbose : Z)
    (nthreads : nat) (s1 s2 lp lpl il : option (list F)) (iLPsiLX_ : list F) :
  approx_fabia_cm_f k n l X Psi L Zs lapla cyc alpha eps spl spz scale lap
    verbose nthreads (Allocation s1 s2 None lp lpl il (Some iLPsiLX_))
  = NullDeref.
Proof. reflexivity. Qed.

End EngineFlow.

(** ** The engine under exact arithmetic *)

Section EngineLaws.

Context {F : Type} {ops : FloatOps F} {laws : RealLaws F} {ext : Externals F}.
Local Open Scope fl_scope.

Add Ring fl_ring_engine : fl_ring.


(** *** Shrinkage *)

Lemma fabs_pos (x : F) : 0 <=! x -> fabs x = x.
Proof. intros Hx. rewrite fl_abs_def, Hx. reflexivity. Qed.

Lemma fabs_neg (x : F) : x <! 0 -> fabs x = - x.
Proof. intros Hx. rewrite fl_abs_def, Hx. reflexivity. Qed.

Lemma shrink_entry_cases (psi alpha spl s : F) :
  let t := shrink_threshold psi alpha spl s in
  (fgt (fabs s) t = true ->
     shrink_entry psi alpha spl s = s - sign s * t /\
     fabs (shrink_entry psi alpha spl s) = fabs s - t) /\
  (fgt (fabs s) t = false -> shrink_entry psi alpha spl s = 0).
Proof.
  intros t. unfold shrink_entry. fold t. unfold non_negative. simpl.
  split; intros Hgt; rewrite Hgt; [|reflexivity].
  split; [reflexivity|].
  assert (Ht : 0 <=! t) by apply fabs_nonneg.
  unfold fgt in Hgt. change (t <! fabs s) in Hgt.
  destruct (sign_cases s) as [[Hs ->] | [[Hs ->] | [-> _]]].
  - rewrite (fabs_pos s) in * by (apply Lt_Le, Hs).
    replace (s - 1 * t) with (s - t) by ring.
    apply fabs_pos, Lt_Le. apply (proj1 (Lt_sub t s)), Hgt.
  - rewrite (fabs_neg s Hs) in *.
    replace (s - - (1) * t) with (s + t) by ring.
    rewrite fabs_neg; [ring|].
    apply (Lt_add_r _ _ s) in Hgt.
    replace (- s + s) with 0 in Hgt by ring.
    replace (t + s) with (s + t) in Hgt by ring. exact Hgt.
  - exfalso. rewrite (fabs_pos 0) in Hgt by apply Le_refl.
    apply (Le_not_Lt _ _ Ht Hgt).
Qed.

(** *** The floor of Psi *)

Lemma new_Psi_floor (n k l : nat) (L sum1_ XX : list F) (eps : F) (i : nat) :
  fge (new_Psi n k l L sum1_ XX eps i) eps = true.
Proof.
  unfold new_Psi. apply fge_true.
  destruct (flt _ eps) eqn:E; [apply Le_refl | exact E].
Qed.

Lemma mstep_Psi_floor (p : params) (st st' : state) :
  length (st_Psi st) = p_n p -> mstep_phase p st = Returned st' ->
  length (st_Psi st') = p_n p /\ floored (p_n p) (p_eps p) (st_Psi st').
Proof.
  intros Hlen E. destruct (mstep_phase_inv p st st' E) as (_ & -> & _).
  match goal with |- context [update_Psi ?n ?k ?l ?L ?s ?XX ?eps ?Psi] =>
    destruct (update_Psi_spec n k l L s XX eps Psi Hlen) as (Hl & Hset & _) end.
  split; [exact Hl|]. intros i Hi. rewrite Hset by exact Hi. apply new_Psi_floor.
Qed.

Lemma em_iteration_Psi_floor (p : params) (ok : bool) (iter : Z)
    (st st' : state) (fl : flow) :
  length (st_Psi st) = p_n p ->
  em_iteration p ok iter st = Returned (st', fl) ->
  length (st_Psi st') = p_n p /\ floored (p_n p) (p_eps p) (st_Psi st').
Proof.
  intros Hlen E. destruct (em_iteration_inv p ok iter st st' fl E) as (st1 & Hm & Hcase).
  destruct (estep_phase_frame p st) as (HPsi & _).
  destruct (mstep_Psi_floor p _ st1 ltac:(rewrite HPsi; exact Hlen) Hm) as [Hl1 Hf1].
  destruct Hcase as [(_ & _ & ->) | (_ & _ & ->)].
  - simpl. rewrite collapse_Psi_spec by exact Hl1.
    split; [apply length_replicate|].
    intros i Hi. rewrite lookup_total_replicate_2 by exact Hi.
    apply fge_true, Le_refl.
  - destruct (tail_phase_frame p iter st1) as (-> & _). split; assumption.
Qed.

(** *** The exit on collapse *)


Lemma running_max_upper (d : nat -> F) (m i : nat) :
  i < m ->
  fabs (d i) <=! for_ m (fun i t => if fgt (fabs (d i)) t then fabs (d i) else t) 0.
Proof.
  induction m as [|m IH]; [lia|].
  intros Hi. rewrite for_S.
  set (t := for_ m _ 0) in *.
  destruct (fgt (fabs (d m)) t) eqn:E.
  - destruct (decide (i = m)) as [->|Hne]; [apply Le_refl|].
    apply (Le_trans _ t); [apply IH; lia | apply Lt_Le, E].
  - destruct (decide (i = m)) as [->|Hne]; [exact E | apply IH; lia].
Qed.


Lemma max_abs_residual_upper (n k : nat) (L sum1_ : list F) (i : nat) :
  i < n -> fabs (residual n k L sum1_ i) <=! max_abs_residual n k L sum1_.
Proof. apply (running_max_upper (residual n k L sum1_) n i). Qed.



(** *** The floor of lapla *)

Lemma floor_choice (s lap : F) : fge (if flt s lap then lap else s) lap = true.
Proof.
  apply fge_true. destruct (flt s lap) eqn:E; [apply Le_refl | exact E].
Qed.

Lemma kernel_accum_floor (k : nat) (z : list F) (spz lap : F)
    (sum2 iLPsiL lapla : list F) :
  length lapla = k ->
  floored k lap (kernel_accum k z spz lap (sum2, iLPsiL, lapla)).2.
Proof.
  intros Hlen. unfold kernel_accum.
  match goal with |- floored k lap (for_ k ?body ?s0).2 =>
    enough (HP : length (for_ k body s0).2 = k /\
                 forall i, i < k -> fge ((for_ k body s0).2 !!! i) lap = true)
      by (exact (proj2 HP));
    apply (for_ind (fun m r => length r.2 = k /\
                      forall i, i < m -> fge (r.2 !!! i) lap = true) k body s0)
  end.
  - split; [exact Hlen | intros; lia].
  - intros i [[a b] c] Hi [Hl Hf]; simpl in *. split.
    + rewrite length_insert. exact Hl.
    + intros i' Hi'. destruct (decide (i' = i)) as [->|Hne].
      * rewrite list_lookup_total_insert_eq by lia. apply floor_choice.
      * rewrite list_lookup_total_insert_ne by lia. apply Hf. lia.
Qed.

Lemma estimateZ_floor (n k : nat) (x LPsi LPsiL : list F) (spz lap : F)
    (b : kernel_bufs) :
  is_Some (k_sum1 b) -> is_Some (k_sum2 b) -> length (k_lapla b) = k ->
  floored k lap (k_lapla (approx_estimateZ n k x LPsi LPsiL spz lap b)).
Proof.
  intros [s1 E1] [s2 E2] Hlen. unfold approx_estimateZ. rewrite E1, E2.
  destruct (kernel_init _ _ _ _) as [iL z0].
  destruct (kernel_mean _ _ _ _ _ _) as [iX z1].
  pose proof (kernel_accum_floor k z1 spz lap s2 iL (k_lapla b) Hlen) as Hf.
  destruct (kernel_accum _ _ _ _ _) as [[? ?] la]. exact Hf.
Qed.

Lemma estep_floor (n k l : nat) (X LPsi LPsiL : list F) (spz lap : F)
    (e : estep_bufs) :
  length (e_lapla e) = (k*l)%nat ->
  floored (k*l) lap (e_lapla (estep n k l X LPsi LPsiL spz lap true e)).
Proof.
  intros Hlen. unfold estep.
  match goal with |- floored _ lap (e_lapla (for_ l ?body e)) =>
    enough (HP : length (e_lapla (for_ l body e)) = (k*l)%nat /\
                 forall i, i < l*k -> fge (e_lapla (for_ l body e) !!! i) lap = true);
    [| apply (for_ind (fun j r => length (e_lapla r) = (k*l)%nat /\
                forall i, i < j*k -> fge (e_lapla r !!! i) lap = true) l body e)]
  end.
  - intros i Hi. apply (proj2 HP). lia.
  - split; [exact Hlen | intros; lia].
  - intros j r Hj [Hl Hf]. unfold estep_sample. cbv beta zeta.
    set (b := approx_estimateZ _ _ _ _ _ _ _ _).
    assert (Hslice : length (slice (j*k) k (e_lapla r)) = k).
    { apply length_slice. rewrite Hl.
      assert (S j * k <= l * k)%nat by (apply Nat.mul_le_mono_r; lia). lia. }
    assert (Hb : length (k_lapla b) = k).
    { unfold b. rewrite (proj2 (length_estimateZ _ _ _ _ _ _ _ _)). exact Hslice. }
    assert (Hfb : floored k lap (k_lapla b)).
    { unfold b. apply estimateZ_floor; simpl; eauto. }
    simpl. split.
    + rewrite (length_splice_slice _ k) by (rewrite Hb, Hslice; reflexivity).
      exact Hl.
    + intros i Hi. rewrite lookup_total_splice.
      * case_decide as Hd; [apply Hfb; lia | apply Hf; lia].
      * rewrite Hb, Hl.
        assert (S j * k <= l * k)%nat by (apply Nat.mul_le_mono_r; lia). lia.
Qed.

Lemma estep_phase_floor (p : params) (st : state) :
  length (st_lapla st) = (p_k p * p_l p)%nat ->
  floored (p_k p * p_l p) (p_lap p) (st_lapla (estep_phase p st)).
Proof.
  intros Hlen. unfold estep_phase.
  destruct (prelude _ _ _ _ _) as [LPsi LPsiL]. simpl.
  apply estep_floor. exact Hlen.
Qed.

(** Line 296 writes 1.0 and nothing else into lapla. *)
Lemma reset_lapla (n k l : nat) (L lapla : list F) (rng nreset : nat) (i : nat) :
  (reset n k l (L, lapla, rng, nreset)).1.1.2 !!! i = lapla !!! i \/
  (reset n k l (L, lapla, rng, nreset)).1.1.2 !!! i = 1.
Proof.
  unfold reset.
  apply (for_inv (fun r : list F * list F * nat * nat =>
    r.1.1.2 !!! i = lapla !!! i \/ r.1.1.2 !!! i = 1)); [left; reflexivity|].
  intros c [[[L' la] g] nr] _ Hinv; simpl in *.
  destruct (isZero n L' c); [|exact Hinv].
  destruct (for_ n _ (L', g)) as [L'' g']. simpl.
  apply (for_inv (fun r : list F => r !!! i = lapla !!! i \/ r !!! i = 1));
    [exact Hinv|].
  intros j r _ Hr. rewrite list_lookup_total_insert.
  case_decide; [right; reflexivity | exact Hr].
Qed.

(** *** The matrix handed to the Cholesky inverse *)

Lemma precision_pos (LPsiL lap_j : list F) (i : nat) :
  0 <=! LPsiL !!! i -> 0 <=! lap_j !!! i -> 0 <! precision LPsiL lap_j i.
Proof.
  intros HL Hl. unfold precision. apply Lt_0_inv.
  replace (LPsiL !!! i + lap_j !!! i + MACHINE_EPS)
    with (MACHINE_EPS + (LPsiL !!! i + lap_j !!! i)) by ring.
  apply Lt_0_add; [apply fl_eps_pos | apply Le_0_add; assumption].
Qed.

Lemma Le_0_weighted_square (x psi : F) : 0 <! psi -> 0 <=! x * (x / psi).
Proof.
  intros Hpsi. rewrite fl_div_def.
  replace (x * (x * (1 / psi))) with (x * x * (1 / psi)) by ring.
  apply Le_0_mul; [apply Le_0_square | apply Lt_Le, Lt_0_inv, Hpsi].
Qed.

(** With Psi positive the diagonal of L' diag(1/Psi) L is not negative. *)
Lemma prelude_nonneg (n k : nat) (L Psi LPsi LPsiL : list F) :
  length LPsi = (n*k)%nat -> length LPsiL = k ->
  (forall i2, i2 < n -> 0 <! Psi !!! i2) ->
  forall i1, i1 < k -> 0 <=! (prelude n k L Psi (LPsi, LPsiL)).2 !!! i1.
Proof.
  intros Ha Hb HPsi. unfold prelude.
  set (P := fun (m : nat) (s : list F * list F) =>
    length s.1 = (n*k)%nat /\ length s.2 = k /\
    forall i, i < m -> 0 <=! s.2 !!! i).
  match goal with |- context [for_ k ?body ?s0] =>
    enough (HP : P k (for_ k body s0)) by apply HP;
    apply (for_ind P k body s0) end.
  - repeat split; auto; intros; lia.
  - intros m [a b] Hm (Hla & Hlb & Hnn); simpl in *.
    set (Q := fun (t : nat) (s : list F * list F) =>
      length s.1 = (n*k)%nat /\ length s.2 = k /\
      (forall i, i < m -> 0 <=! s.2 !!! i) /\ 0 <=! s.2 !!! m).
    match goal with |- P _ (for_ n ?body ?s0) =>
      assert (HQ : Q n (for_ n body s0)) end.
    { apply for_ind.
      - repeat split; simpl; rewrite ?length_insert; auto.
        + intros i Hi. rewrite list_lookup_total_insert_ne by lia. apply Hnn, Hi.
        + rewrite list_lookup_total_insert_eq by lia. apply Le_refl.
      - intros t [a' b'] Ht (Hla' & Hlb' & Hnn' & Hm'); simpl in *.
        repeat split; simpl; rewrite ?length_insert; auto.
        + intros i Hi. rewrite list_lookup_total_insert_ne by lia. apply Hnn', Hi.
        + rewrite list_lookup_total_insert_eq by lia.
          rewrite list_lookup_total_insert_eq
            by (rewrite Hla'; apply index_lt; assumption).
          apply Le_0_add; [exact Hm' | apply Le_0_weighted_square, HPsi, Ht]. }
    destruct HQ as (Hla' & Hlb' & Hnn' & Hm'). repeat split; auto.
    intros i Hi. destruct (decide (i = m)) as [->|Hne]; [exact Hm' | apply Hnn'; lia].
Qed.

Lemma sym_ext (k : nat) (m m' : nat -> nat -> F) :
  (forall i j, i < k -> j < k -> m i j = m' i j) -> sym k m -> sym k m'.
Proof.
  intros E Hm i j Hi Hj. rewrite <- !E by assumption. apply Hm; assumption.
Qed.

Lemma block_range (k tid tid' c : nat) :
  c < k*k ->
  (tid*k*k <= tid'*k*k + c < tid*k*k + k*k)%nat <-> tid' = tid.
Proof.
  intros Hc. rewrite <- !Nat.mul_assoc. set (kk := (k*k)%nat) in *.
  split; [|intros ->; lia].
  intros [H1 H2]. destruct (Nat.lt_trichotomy tid' tid) as [Hlt|[->|Hgt]];
    [exfalso | reflexivity | exfalso].
  - assert (S tid' * kk <= tid * kk)%nat by (apply Nat.mul_le_mono_r; lia). lia.
  - assert (S tid * kk <= tid' * kk)%nat by (apply Nat.mul_le_mono_r; lia). lia.
Qed.

(** One sample keeps the buffers of sum2_ in [sums_spd]. *)
Lemma estep_sample_spd (n k l nthreads : nat) (X LPsi LPsiL : list F)
    (spz lap : F) (j : nat) (e : estep_bufs) :
  j < l -> omp_get_thread_num j < nthreads -> 0 <=! lap ->
  (forall i, i < k -> 0 <=! LPsiL !!! i) ->
  length (e_Z e) = (k*l)%nat -> length (e_lapla e) = (k*l)%nat ->
  length (e_iLPsiL_ e) = (nthreads*k)%nat ->
  (nthreads*k*k <= length (e_sum2_ e))%nat ->
  (forall i, i < k*l -> 0 <=! e_lapla e !!! i) ->
  sums_spd k nthreads (e_sum2_ e) ->
  let e' := estep_sample n k X LPsi LPsiL spz lap true j e in
  length (e_Z e') = (k*l)%nat /\ length (e_lapla e') = (k*l)%nat /\
  length (e_iLPsiL_ e') = (nthreads*k)%nat /\
  length (e_sum2_ e') = length (e_sum2_ e) /\
  (forall i, i < k*l -> 0 <=! e_lapla e' !!! i) /\
  sums_spd k nthreads (e_sum2_ e').
Proof.
  intros Hj Htid Hlap HLPsiL HlZ Hll HliL Hls2 Hnn [Hblocks Hpd0] e'.
  subst e'. unfold estep_sample. cbv zeta.
  set (tid := omp_get_thread_num j) in *.
  assert (Hjk : (j*k + k <= k*l)%nat).
  { assert (S j * k <= l * k)%nat by (apply Nat.mul_le_mono_r; lia). lia. }
  assert (Htk : (tid*k + k <= nthreads*k)%nat).
  { assert (S tid * k <= nthreads * k)%nat by (apply Nat.mul_le_mono_r; lia). lia. }
  assert (Htkk : (tid*k*k + k*k <= nthreads*k*k)%nat).
  { assert (S tid * k * k <= nthreads * k * k)%nat
      by (apply Nat.mul_le_mono_r, Nat.mul_le_mono_r; lia). lia. }
  set (b := KernelBufs _ _ _ _ _ _).
  assert (HbZ : length (k_z b) = k) by (apply length_slice; lia).
  assert (Hbl : length (k_lapla b) = k) by (apply length_slice; lia).
  assert (HbiL : length (k_iLPsiL b) = k) by (apply length_slice; lia).
  assert (Hbs2 : length (slice (tid*k*k) (k*k) (e_sum2_ e)) = (k*k)%nat)
    by (apply length_slice; lia).
  destruct (estimateZ_accum n k (slice (n*j) n X) LPsi LPsiL spz lap b
              _ _ eq_refl eq_refl Hbs2 HbiL HbZ) as (s2' & Es2 & Hls2' & HliL' & Hacc).
  pose proof (length_estimateZ n k (slice (n*j) n X) LPsi LPsiL spz lap b) as [HlZ' Hll'].
  pose proof (estimateZ_floor n k (slice (n*j) n X) LPsi LPsiL spz lap b
                ltac:(simpl; eauto) ltac:(simpl; eauto) Hbl) as Hfl.
  set (b' := approx_estimateZ _ _ _ _ _ _ _ b) in *.
  rewrite Es2. simpl.
  assert (Hprec : forall i, i < k -> 0 <=! precision LPsiL (k_lapla b) i).
  { intros i Hi. apply Lt_Le, precision_pos; [apply HLPsiL, Hi|].
    unfold b. simpl. rewrite lookup_total_slice by exact Hi. apply Hnn. lia. }
  assert (Hblk : forall tid' i0 j0, i0 < k -> j0 < k ->
    block k (splice (tid*k*k) s2' (e_sum2_ e)) tid' i0 j0 =
    if decide (tid' = tid)
    then accumulated (block k (e_sum2_ e) tid) (fun i => k_z b' !!! i)
           (precision LPsiL (k_lapla b)) i0 j0
    else block k (e_sum2_ e) tid' i0 j0).
  { intros tid' i0 j0 Hi0 Hj0. unfold block at 1.
    pose proof (index_lt k k i0 j0 Hi0 Hj0) as Hc.
    rewrite lookup_total_splice by (rewrite Hls2'; lia).
    rewrite Hls2'.
    destruct (decide (tid' = tid)) as [->|Hne].
    - rewrite decide_True by (apply block_range; [exact Hc | reflexivity]).
      replace (tid*k*k + (i0*k+j0) - tid*k*k)%nat with (i0*k+j0)%nat by lia.
      rewrite (Hacc i0 j0 Hi0 Hj0). unfold accumulated, entries, block.
      rewrite !lookup_total_slice by exact Hc. reflexivity.
    - rewrite decide_False; [reflexivity|].
      intros Hr. apply Hne. apply (block_range k tid tid' (i0*k+j0) Hc). exact Hr. }
  split; [|split; [|split; [|split; [|split; [|split; [intros tid' Htid'; split|]]]]]].
  - rewrite (length_splice_slice _ k) by (rewrite HlZ'; reflexivity). exact HlZ.
  - rewrite (length_splice_slice _ k) by (rewrite Hll'; reflexivity). exact Hll.
  - rewrite length_splice by (rewrite HliL'; lia). exact HliL.
  - apply length_splice. rewrite Hls2'. lia.
  - intros i Hi. rewrite lookup_total_splice by (rewrite Hll', Hbl; lia).
    case_decide as Hd; [|apply Hnn, Hi].
    apply (Le_trans _ lap); [exact Hlap|]. apply fge_true, Hfl.
    rewrite Hll', Hbl in Hd. lia.
  - destruct (Hblocks tid' Htid') as [Hs _].
    destruct (decide (tid' = tid)) as [->|Hne].
    + apply (sym_ext k (accumulated (block k (e_sum2_ e) tid)
               (fun i => k_z b' !!! i) (precision LPsiL (k_lapla b)))).
      * intros i0 j0 Hi0 Hj0. rewrite Hblk, decide_True by auto. reflexivity.
      * apply accumulated_sym, Hs.
    + apply (sym_ext k (block k (e_sum2_ e) tid')); [|exact Hs].
      intros i0 j0 Hi0 Hj0. rewrite Hblk, decide_False by auto. reflexivity.
  - destruct (Hblocks tid' Htid') as [_ Hp].
    destruct (decide (tid' = tid)) as [->|Hne].
    + apply (psd_ext k (accumulated (block k (e_sum2_ e) tid)
               (fun i => k_z b' !!! i) (precision LPsiL (k_lapla b)))).
      * intros i0 j0 Hi0 Hj0. rewrite Hblk, decide_True by auto. reflexivity.
      * apply accumulated_psd; [exact Hprec | exact Hp].
    + apply (psd_ext k (block k (e_sum2_ e) tid')); [|exact Hp].
      intros i0 j0 Hi0 Hj0. rewrite Hblk, decide_False by auto. reflexivity.
  - destruct (decide (O = tid)) as [E0|Hne].
    + apply (pd_ext k (accumulated (block k (e_sum2_ e) tid)
               (fun i => k_z b' !!! i) (precision LPsiL (k_lapla b)))).
      * intros i0 j0 Hi0 Hj0. rewrite Hblk, decide_True by auto. reflexivity.
      * apply accumulated_pd; [exact Hprec | rewrite <- E0; exact Hpd0].
    + apply (pd_ext k (block k (e_sum2_ e) 0)); [|exact Hpd0].
      intros i0 j0 Hi0 Hj0. rewrite Hblk, decide_False by auto. reflexivity.
Qed.

Lemma estep_spd (n k l nthreads : nat) (X LPsi LPsiL : list F) (spz lap : F)
    (e : estep_bufs) :
  (forall j, j < l -> omp_get_thread_num j < nthreads) -> 0 <=! lap ->
  (forall i, i < k -> 0 <=! LPsiL !!! i) ->
  length (e_Z e) = (k*l)%nat -> length (e_lapla e) = (k*l)%nat ->
  length (e_iLPsiL_ e) = (nthreads*k)%nat ->
  (nthreads*k*k <= length (e_sum2_ e))%nat ->
  (forall i, i < k*l -> 0 <=! e_lapla e !!! i) ->
  sums_spd k nthreads (e_sum2_ e) ->
  let e' := estep n k l X LPsi LPsiL spz lap true e in
  length (e_Z e') = (k*l)%nat /\ length (e_lapla e') = (k*l)%nat /\
  length (e_iLPsiL_ e') = (nthreads*k)%nat /\
  length (e_sum2_ e') = length (e_sum2_ e) /\
  (forall i, i < k*l -> 0 <=! e_lapla e' !!! i) /\
  sums_spd k nthreads (e_sum2_ e').
Proof.
  intros Htid Hlap HLPsiL HlZ Hll HliL Hls2 Hnn Hspd e'. subst e'. unfold estep.
  apply (for_ind (fun _ r =>
    length (e_Z r) = (k*l)%nat /\ length (e_lapla r) = (k*l)%nat /\
    length (e_iLPsiL_ r) = (nthreads*k)%nat /\
    length (e_sum2_ r) = length (e_sum2_ e) /\
    (forall i, i < k*l -> 0 <=! e_lapla r !!! i) /\
    sums_spd k nthreads (e_sum2_ r))).
  - split; [|split; [|split; [|split; [|split]]]]; auto.
  - intros j r Hj (HZ & Hl & HiL & Hs2 & Hnn' & Hspd').
    destruct (estep_sample_spd n k l nthreads X LPsi LPsiL spz lap j r Hj
      (Htid j Hj) Hlap HLPsiL HZ Hl HiL ltac:(rewrite Hs2; exact Hls2) Hnn' Hspd')
      as (H1 & H2 & H3 & H4 & H5 & H6).
    split; [|split; [|split; [|split; [|split]]]]; auto. congruence.
Qed.

Lemma sym_add (k : nat) (m m' : nat -> nat -> F) :
  sym k m -> sym k m' -> sym k (fun i j => m i j + m' i j).
Proof. intros Hm Hm' i j Hi Hj. rewrite (Hm i j), (Hm' i j) by assumption. reflexivity. Qed.

(** The reduction adds the matrices of the threads: the sum is symmetric
    positive-definite. *)
Lemma reduce_spd (k nthreads : nat) (a : list F) :
  1 <= nthreads -> (nthreads*k*k <= length a)%nat ->
  sums_spd k nthreads a -> spd k (reduce (k*k) nthreads a).
Proof.
  intros Hn Hlen [Hblocks Hpd0].
  destruct (reduce_spec (k*k) nthreads a) as (_ & Hred & _);
    [rewrite Nat.mul_assoc; exact Hlen | exact Hn |].
  set (M := fun (t : nat) (i j : nat) =>
    for_ t (fun d acc => acc + block k a (1 + d) i j) (block k a 0 i j)).
  assert (HM : forall t, (t <= nthreads - 1)%nat -> sym k (M t) /\ pd k (M t)).
  { induction t as [|t IH]; intros Ht.
    - split; [apply (proj1 (Hblocks O ltac:(lia))) | exact Hpd0].
    - destruct (IH ltac:(lia)) as [Hs Hp].
      destruct (Hblocks (1 + t)%nat ltac:(lia)) as [Hs' Hp'].
      split.
      + apply (sym_ext k (fun i j => M t i j + block k a (1 + t) i j)).
        * intros i j _ _. unfold M. rewrite for_S. reflexivity.
        * apply sym_add; assumption.
      + apply (pd_ext k (fun i j => M t i j + block k a (1 + t) i j)).
        * intros i j _ _. unfold M. rewrite for_S. reflexivity.
        * apply pd_add_psd; assumption. }
  assert (E : forall i j, i < k -> j < k ->
    M (nthreads - 1)%nat i j = entries k (reduce (k*k) nthreads a) i j).
  { intros i j Hi Hj. unfold entries.
    rewrite Hred by (apply index_lt; assumption).
    unfold reduced_cell, M, block. simpl. apply for_ext.
    intros d acc _. f_equal. f_equal. lia. }
  destruct (HM (nthreads - 1)%nat ltac:(lia)) as [Hs Hp].
  split; [apply (sym_ext k _ _ E Hs) | apply (pd_ext k _ _ E Hp)].
Qed.

Lemma sums_spd_init (k nthreads : nat) (eps : F) (sum2_ : list F) :
  1 <= nthreads -> 0 <! eps ->
  sums_spd k nthreads (init_sum2 k eps (memset0 (nthreads*k*k) sum2_)).
Proof.
  intros Hn Heps.
  destruct (init_sum2_spec k nthreads eps sum2_ Hn) as (_ & H0 & Hrest).
  assert (Hpd : pd k (block k (init_sum2 k eps (memset0 (nthreads*k*k) sum2_)) 0)).
  { apply (pd_ext k (fun i j => if decide (i = j) then (fun _ => eps) i else 0)).
    - intros i j Hi Hj. rewrite H0 by assumption. reflexivity.
    - apply pd_diag. intros; exact Heps. }
  split; [|exact Hpd].
  intros tid Htid. destruct (decide (tid = O)) as [->|Hne].
  - split.
    + intros i j Hi Hj. rewrite !H0 by assumption.
      destruct (decide (i = j)) as [->|Hij];
        [rewrite decide_True by reflexivity | rewrite decide_False by congruence];
        reflexivity.
    + intros v. destruct (Le_or_Lt 0 (qf k (block k (init_sum2 k eps
        (memset0 (nthreads*k*k) sum2_)) 0) v)) as [Hle|Hlt]; [exact Hle|].
      exfalso.
      rewrite (qf_ext k _ (fun i j => if decide (i = j) then (fun _ => eps) i else 0))
        in Hlt by (intros; apply H0; assumption).
      rewrite qf_diag in Hlt.
      apply (Le_not_Lt 0 (fsum k (fun i => eps * (v i * v i)))); [|exact Hlt].
      apply fsum_nonneg. intros i Hi.
      apply Le_0_mul; [apply Lt_Le, Heps | apply Le_0_square].
  - split.
    + intros i j Hi Hj. rewrite !Hrest by (assumption || lia). reflexivity.
    + apply (psd_ext k (fun _ _ => 0)); [|apply psd_zero].
      intros i j Hi Hj. rewrite Hrest by (assumption || lia). reflexivity.
Qed.

(** The E-step of an iteration started in a well-formed state ends with
    sum2_ symmetric positive-definite, Psi as it was and lapla at least
    lap. *)
Lemma estep_phase_spd (p : params) (st : state) :
  good_params p -> well_formed p st ->
  spd (p_k p) (st_sum2_ (estep_phase p st)) /\
  length (st_Z (estep_phase p st)) = (p_k p * p_l p)%nat /\
  length (st_lapla (estep_phase p st)) = (p_k p * p_l p)%nat /\
  length (st_LPsi (estep_phase p st)) = (p_n p * p_k p)%nat /\
  length (st_LPsiL (estep_phase p st)) = p_k p /\
  length (st_iLPsiL_ (estep_phase p st)) = (p_nthreads p * p_k p)%nat /\
  (forall i, i < p_k p * p_l p -> 0 <=! st_lapla (estep_phase p st) !!! i).
Proof.
  intros (Heps & Hlap & Hn & Htid) (HlPsi & HlZ & Hll & HlLPsi & HlLPsiL & HliL & HPsi & Hnn).
  unfold estep_phase.
  pose proof (prelude_nonneg (p_n p) (p_k p) (st_L st) (st_Psi st) (st_LPsi st)
                (st_LPsiL st) HlLPsi HlLPsiL HPsi) as HLnn.
  pose proof (length_prelude (p_n p) (p_k p) (st_L st) (st_Psi st)
                (st_LPsi st, st_LPsiL st)) as [Hl1 Hl2].
  destruct (prelude _ _ _ _ _) as [LPsi LPsiL]. simpl in *.
  match goal with |- context [estep ?n ?k ?l ?X LPsi LPsiL ?spz ?lap true ?e] =>
    destruct (estep_spd n k l (p_nthreads p) X LPsi LPsiL spz lap e Htid Hlap HLnn
                HlZ Hll HliL) as (H1 & H2 & H3 & H4 & H5 & H6) end.
  { simpl. apply (init_sum2_spec (p_k p) (p_nthreads p) (p_eps p) (st_sum2_ st) Hn). }
  { exact Hnn. }
  { simpl. apply sums_spd_init; assumption. }
  simpl in H4.
  split; [|split; [|split; [|split; [|split; [|split]]]]];
    try assumption; try congruence.
  apply reduce_spd; [exact Hn | | exact H6].
  rewrite H4. apply (init_sum2_spec (p_k p) (p_nthreads p) (p_eps p) (st_sum2_ st) Hn).
Qed.

(** *** Well-formed states *)

Lemma rescale_lapla_nonneg (n k l : nat) (spz : F) (L lapla : list F) :
  length lapla = (k*l)%nat -> (forall i, i < k*l -> 0 <=! lapla !!! i) ->
  length (rescale n k l spz (L, lapla)).2 = (k*l)%nat /\
  (forall i, i < k*l -> 0 <=! (rescale n k l spz (L, lapla)).2 !!! i).
Proof.
  intros Hlen Hnn. unfold rescale.
  apply (for_inv (fun s : list F * list F =>
    length s.2 = (k*l)%nat /\ forall i, i < k*l -> 0 <=! s.2 !!! i));
    [split; assumption|].
  intros c [L' la] Hc [Hl Hn]; simpl in *.
  apply (for_ind (fun _ (r : list F) =>
    length r = (k*l)%nat /\ forall i, i < k*l -> 0 <=! r !!! i));
    [split; assumption|].
  intros j r Hj [Hlr Hnr]. split; [rewrite length_insert; exact Hlr|].
  intros i Hi. rewrite list_lookup_total_insert. case_decide; [|apply Hnr, Hi].
  apply Le_0_mul.
  - apply Hnr. pose proof (index_lt l k j c Hj Hc). lia.
  - apply fl_pow_nonneg. apply Le_0_square.
Qed.

Lemma reset_lapla_nonneg (n k l : nat) (L lapla : list F) (rng nreset : nat) :
  length lapla = (k*l)%nat -> (forall i, i < k*l -> 0 <=! lapla !!! i) ->
  length (reset n k l (L, lapla, rng, nreset)).1.1.2 = (k*l)%nat /\
  (forall i, i < k*l -> 0 <=! (reset n k l (L, lapla, rng, nreset)).1.1.2 !!! i).
Proof.
  intros Hlen Hnn. split.
  - rewrite length_reset_lapla. exact Hlen.
  - intros i Hi. destruct (reset_lapla n k l L lapla rng nreset i) as [-> | ->];
      [apply Hnn, Hi | apply Lt_Le, Lt_0_1].
Qed.

Lemma tail_phase_lapla (p : params) (iter : Z) (st : state) :
  length (st_lapla st) = (p_k p * p_l p)%nat ->
  (forall i, i < p_k p * p_l p -> 0 <=! st_lapla st !!! i) ->
  length (st_lapla (tail_phase p iter st)) = (p_k p * p_l p)%nat /\
  (forall i, i < p_k p * p_l p -> 0 <=! st_lapla (tail_phase p iter st) !!! i).
Proof.
  intros Hlen Hnn. unfold tail_phase.
  assert (Hr : forall s : list F * list F,
    s = (if negb (p_scale p =? 0)%Z
         then rescale (p_n p) (p_k p) (p_l p) (p_spz p) (st_L st, st_lapla st)
         else (st_L st, st_lapla st)) ->
    length s.2 = (p_k p * p_l p)%nat /\
    forall i, i < p_k p * p_l p -> 0 <=! s.2 !!! i).
  { intros s ->. destruct (negb (p_scale p =? 0)%Z).
    - apply rescale_lapla_nonneg; assumption.
    - split; assumption. }
  destruct (if negb (p_scale p =? 0)%Z then _ else _) as [L la].
  destruct (Hr (L, la) eq_refl) as [Hl1 Hn1]. simpl in Hl1, Hn1.
  pose proof (reset_lapla_nonneg (p_n p) (p_k p) (p_l p) L la (st_rng st) 0 Hl1 Hn1)
    as Hres.
  destruct (reset _ _ _ _) as [[[L' la'] rng] nreset]. simpl in *. exact Hres.
Qed.

(** Every iteration that returns leaves a well-formed state. *)
Lemma em_iteration_wf (p : params) (ok : bool) (iter : Z) (st st' : state)
    (fl : flow) :
  good_params p -> well_formed p st ->
  em_iteration p ok iter st = Returned (st', fl) -> well_formed p st'.
Proof.
  intros Hgood Hwf E.
  destruct (em_iteration_inv p ok iter st st' fl E) as (st1 & Hm & Hcase).
  destruct (estep_phase_spd p st Hgood Hwf) as (_ & HlZ & Hll & HlLPsi & HlLPsiL & HliL & Hnn).
  destruct (estep_phase_frame p st) as (HPsi & _).
  destruct Hwf as (HlPsi & _).
  destruct (mstep_Psi_floor p _ st1 ltac:(rewrite HPsi; exact HlPsi) Hm) as [Hl1 Hf1].
  destruct (mstep_phase_inv p _ st1 Hm) as (_ & _ & _ & _ & EZ & Elapla & _).
  assert (Escratch : st_LPsi st1 = st_LPsi (estep_phase p st) /\
                     st_LPsiL st1 = st_LPsiL (estep_phase p st) /\
                     st_iLPsiL_ st1 = st_iLPsiL_ (estep_phase p st)).
  { unfold mstep_phase in Hm.
    destruct (invertCholesky _ _) as [s2| |]; [|discriminate|discriminate].
    destruct (update_Psi _ _ _ _ _ _ _ _) as [P t].
    injection Hm as <-. simpl. auto. }
  destruct Escratch as (E1 & E2 & E3).
  destruct Hgood as (Heps & _).
  destruct Hcase as [(_ & _ & ->) | (_ & _ & ->)].
  - unfold well_formed. simpl.
    rewrite collapse_Psi_spec by exact Hl1.
    rewrite collapse_lapla_spec by (rewrite Elapla; exact Hll).
    rewrite !length_replicate, EZ, E1, E2, E3.
    repeat split; try assumption.
    + intros i Hi. rewrite lookup_total_replicate_2 by exact Hi. exact Heps.
    + intros i Hi. rewrite lookup_total_replicate_2 by exact Hi. apply Lt_Le, Heps.
  - destruct (tail_phase_frame p iter st1) as (EP & EZ' & _).
    destruct (tail_phase_scratch p iter st1) as (E1' & E2' & E3').
    destruct (tail_phase_lapla p iter st1) as [Hl' Hn'].
    { rewrite Elapla. exact Hll. }
    { rewrite Elapla. exact Hnn. }
    unfold well_formed. rewrite EP, EZ', E1', E2', E3', EZ, E1, E2, E3.
    repeat split; try assumption.
    intros i Hi. apply (Lt_Le_trans _ (p_eps p)); [exact Heps|].
    apply fge_true, Hf1, Hi.
Qed.

(** With LAPACK exact, the M-step of a well-formed state returns. *)
Lemma mstep_returns (p : params) (st : state) :
  good_params p -> well_formed p st -> lapack_exact (p_k p) ->
  exists st1, mstep_phase p (estep_phase p st) = Returned st1.
Proof.
  intros Hgood Hwf Hlapack.
  destruct (estep_phase_spd p st Hgood Hwf) as (Hspd & _).
  destruct (Hlapack _ Hspd) as [H1 H2].
  unfold mstep_phase, invertCholesky.
  destruct (potrf (p_k p) (st_sum2_ (estep_phase p st))) as [a1 i1]. simpl in H1, H2.
  subst i1. simpl.
  destruct (potri (p_k p) a1) as [a2 i2]. simpl in H2. subst i2. simpl.
  destruct (update_Psi _ _ _ _ _ _ _ _) as [P t]. eexists. reflexivity.
Qed.

Lemma em_loop_no_abort (p : params) (ok : bool) (fuel : nat) (iter : Z) (st : state) :
  good_params p -> lapack_exact (p_k p) -> well_formed p st ->
  em_loop p ok fuel iter st <> AssertFailed.
Proof.
  intros Hgood Hlapack. revert iter st.
  induction fuel as [|fuel IH]; intros iter st Hwf; simpl; [discriminate|].
  destruct (em_iteration p ok iter st) as [[st' fl]| |] eqn:E.
  - pose proof (em_iteration_wf p ok iter st st' fl Hgood Hwf E) as Hwf'.
    destruct fl; [apply IH, Hwf' | discriminate].
  - exfalso. unfold em_iteration in E. destruct ok; simpl in E; [|discriminate].
    destruct (mstep_returns p st Hgood Hwf Hlapack) as [st1 Hm]. rewrite Hm in E.
    destruct (flt (st_t st1) (p_eps p)); discriminate.
  - discriminate.
Qed.

(** C8.  In exact arithmetic, with eps > 0 and at least one thread, an
    iteration started with Psi positive and lapla not negative hands the
    Cholesky inverse a symmetric positive-definite sum2 (eps on the
    diagonal, plus z z' and the positive reciprocals iLPsiL of every
    sample), and ends with Psi >= eps and lapla not negative again: so in
    every iteration.  LAPACK being exact on such matrices, no assertion of
    [invertCholesky] fails, in the loop and in the engine. *)
Theorem cholesky_never_aborts :
  (forall p st, good_params p -> well_formed p st ->
     spd (p_k p) (st_sum2_ (estep_phase p st))) /\
  (forall p ok iter st st' fl, good_params p -> well_formed p st ->
     em_iteration p ok iter st = Returned (st', fl) -> well_formed p st') /\
  (forall p ok fuel iter st,
     good_params p -> lapack_exact (p_k p) -> well_formed p st ->
     em_loop p ok fuel iter st <> AssertFailed) /\
  (forall k n l X Psi L Zs lapla cyc alpha eps spl spz scale lap verbose
          nthreads m,
     0 <! eps -> 1 <= nthreads ->
     (forall j, j < l -> omp_get_thread_num j < nthreads) ->
     lapack_exact k ->
     length Psi = n -> length Zs = (k*l)%nat -> length lapla = (k*l)%nat ->
     (forall i, i < n -> 0 <! Psi !!! i) ->
     (forall i, i < k*l -> 0 <=! lapla !!! i) ->
     (forall a, a_LPsi m = Some a -> length a = (n*k)%nat) ->
     (forall a, a_LPsiL m = Some a -> length a = k) ->
     (forall a, a_iLPsiL_ m = Some a -> length a = (nthreads*k)%nat) ->
     approx_fabia_cm_f k n l X Psi L Zs lapla cyc alpha eps spl spz scale lap
       verbose nthreads m <> AssertFailed).
Proof.
  split; [|split; [|split]].
  - intros p st Hgood Hwf. apply (estep_phase_spd p st Hgood Hwf).
  - intros p ok iter st st' fl Hgood Hwf E.
    apply (em_iteration_wf p ok iter st st' fl Hgood Hwf E).
  - intros p ok fuel iter st Hgood Hlapack Hwf.
    apply (em_loop_no_abort p ok fuel iter st Hgood Hlapack Hwf).
  - intros k n l X Psi L Zs lapla cyc alpha eps spl spz scale lap verbose
      nthreads m Heps Hn Htid Hlapack HlPsi HlZ Hll HPsi Hnn HaLPsi HaLPsiL HaiL.
    unfold approx_fabia_cm_f.
    destruct (a_iLPsiLX_ m) as [iLPsiLX_|]; [|discriminate].
    destruct (a_XX m) as [XX|]; [|discriminate].
    destruct (a_iLPsiL_ m) as [iLPsiL_|] eqn:EiL; [|discriminate].
    set (p := start_params k n l X cyc alpha eps spl spz scale lap verbose nthreads XX).
    set (st := start_state k nthreads Psi L Zs lapla m iLPsiL_ iLPsiLX_).
    assert (Hloop : em_loop p (scratch_ok m) (Z.to_nat cyc) 1%Z st <> AssertFailed).
    { destruct (scratch_ok m) eqn:Eok.
      - apply em_loop_no_abort; [| exact Hlapack |].
        + unfold good_params. simpl. repeat split; try assumption.
          destruct (flt lap eps) eqn:E; [apply Lt_Le, Heps|].
          apply (Le_trans _ eps); [apply Lt_Le, Heps | exact E].
        + unfold scratch_ok, lpsi_ok in Eok.
          apply andb_prop in Eok as [_ Eok]. apply bool_decide_eq_true in Eok.
          destruct Eok as [[a Ea] [b Eb]].
          unfold well_formed. simpl. rewrite Ea, Eb. simpl.
          rewrite length_memset0, (HaiL _ eq_refl), Nat.max_id.
          repeat split; try assumption; [apply HaLPsi, Ea | apply HaLPsiL, Eb].
      - destruct (Z.to_nat cyc); simpl; discriminate. }
    destruct (em_loop p (scratch_ok m) (Z.to_nat cyc) 1%Z st) as [st'| |];
      [| congruence | discriminate].
    unfold last_update. destruct (fge _ _); [|discriminate].
    destruct (lpsi_ok m); simpl; [|discriminate].
    destruct (prelude _ _ _ _ _). discriminate.
Qed.

End EngineLaws.

(** ** The engine in every arithmetic

    What the comparisons of the source give without any law of
    arithmetic, or with the one law that [x < x] is false, which IEEE
    floats obey, NaN included.  Where a statement of exact arithmetic
    goes with it, [RealLaws] is its premise. *)

Section AnyArithmetic.

Context {F : Type} {ops : FloatOps F} {ext : Externals F}.
Local Open Scope fl_scope.

(** *** Shrinkage *)

(** C2, as the code has it.  After the shrinkage step every entry of L,
    with s its value before and t = |Psi[i]*alpha*(MACHINE_EPS+|s|)^(-spl)|,
    is s - sign(s)*t when |s| > t and is 0 otherwise: that holds in every
    arithmetic, floats included.  In exact arithmetic the absolute value
    of an entry with |s| > t becomes |s| - t, every entry is 0 or reduced
    in absolute value by exactly t, and sign(s) is 1, -1 or 0 as s > 0,
    s < 0 or s = 0. *)
Theorem shrink_soft_threshold (n k : nat) (Psi : list F) (alpha spl : F)
    (L : list F) (i1 i2 : nat) :
  length L = (n*k)%nat -> i1 < n -> i2 < k ->
  let s := L !!! (i1 + n*i2)%nat in
  let t := fabs (Psi !!! i1 * alpha * fpow (MACHINE_EPS + fabs s) (- spl)) in
  let s' := shrink n k Psi alpha spl L !!! (i1 + n*i2)%nat in
  (fgt (fabs s) t = true -> s' = s - sign s * t) /\
  (fgt (fabs s) t = false -> s' = 0) /\
  (forall laws : RealLaws F,
     (fgt (fabs s) t = true -> fabs s' = fabs s - t) /\
     (s' = 0 \/ fabs s - fabs s' = t) /\
     ((0 <! s /\ sign s = 1) \/ (s <! 0 /\ sign s = - (1)) \/ (s = 0 /\ sign s = 0))).
Proof.
  intros Hlen H1 H2 s t s'.
  destruct (shrink_spec n k Psi alpha spl L Hlen) as [_ Hset].
  assert (E : s' = shrink_entry (Psi !!! i1) alpha spl s) by (apply Hset; assumption).
  assert (Hcode : s' = if fgt (fabs s) t then s - sign s * t else 0).
  { rewrite E. unfold shrink_entry, shrink_threshold, non_negative. reflexivity. }
  split; [|split].
  - intros Hgt. rewrite Hcode, Hgt. reflexivity.
  - intros Hgt. rewrite Hcode, Hgt. reflexivity.
  - intros laws.
    destruct (shrink_entry_cases (Psi !!! i1) alpha spl s) as [Hbig Hsmall].
    unfold shrink_threshold in Hbig, Hsmall. fold t in Hbig, Hsmall.
    rewrite <- E in Hbig, Hsmall.
    split; [intros Hgt; apply (Hbig Hgt)|]. split; [|apply sign_cases].
    destruct (fgt (fabs s) t); [right | left; auto].
    destruct Hbig as [_ ->]; [reflexivity|].
    pose proof (@fl_ring F ops laws) as R.
    rewrite (Rsub_def R (fabs s) (fabs s - t)), (Rsub_def R (fabs s) t).
    rewrite (Ropp_add (Eqsth F) (Eq_ext _ _ _) R), (Ropp_opp (Eqsth F) (Eq_ext _ _ _) R).
    rewrite (Radd_assoc R), (Ropp_def R), (Radd_0_l R). reflexivity.
Qed.

(** *** Floors *)

Section Irreflexive.

Hypothesis flt_irrefl : forall x : F, flt x x = false.

(** The choice [(s < lap) ? lap : s] is never below lap. *)
Lemma choice_not_below (s lap : F) : flt (if flt s lap then lap else s) lap = false.
Proof. destruct (flt s lap) eqn:E; [apply flt_irrefl | exact E]. Qed.

(** Lines 88-91 leave no entry of lapla below lap, a NaN [s] being stored as
    it is. *)
Lemma kernel_accum_not_below (k : nat) (z : list F) (spz lap : F)
    (sum2 iLPsiL lapla : list F) :
  length lapla = k ->
  not_below k lap (kernel_accum k z spz lap (sum2, iLPsiL, lapla)).2.
Proof.
  intros Hlen. unfold kernel_accum.
  match goal with |- not_below k lap (for_ k ?body ?s0).2 =>
    enough (HP : length (for_ k body s0).2 = k /\
                 forall i, i < k -> flt ((for_ k body s0).2 !!! i) lap = false)
      by (exact (proj2 HP));
    apply (for_ind (fun m r => length r.2 = k /\
                      forall i, i < m -> flt (r.2 !!! i) lap = false) k body s0)
  end.
  - split; [exact Hlen | intros; lia].
  - intros i [[a b] c] Hi [Hl Hf]; simpl in *. split.
    + rewrite length_insert. exact Hl.
    + intros i' Hi'. destruct (decide (i' = i)) as [->|Hne].
      * rewrite list_lookup_total_insert_eq by lia. apply choice_not_below.
      * rewrite list_lookup_total_insert_ne by lia. apply Hf. lia.
Qed.

Lemma estimateZ_not_below (n k : nat) (x LPsi LPsiL : list F) (spz lap : F)
    (b : kernel_bufs) :
  is_Some (k_sum1 b) -> is_Some (k_sum2 b) -> length (k_lapla b) = k ->
  not_below k lap (k_lapla (approx_estimateZ n k x LPsi LPsiL spz lap b)).
Proof.
  intros [s1 E1] [s2 E2] Hlen. unfold approx_estimateZ. rewrite E1, E2.
  destruct (kernel_init _ _ _ _) as [iL z0].
  destruct (kernel_mean _ _ _ _ _ _) as [iX z1].
  pose proof (kernel_accum_not_below k z1 spz lap s2 iL (k_lapla b) Hlen) as Hf.
  destruct (kernel_accum _ _ _ _ _) as [[? ?] la]. exact Hf.
Qed.

Lemma estep_not_below (n k l : nat) (X LPsi LPsiL : list F) (spz lap : F)
    (e : estep_bufs) :
  length (e_lapla e) = (k*l)%nat ->
  not_below (k*l) lap (e_lapla (estep n k l X LPsi LPsiL spz lap true e)).
Proof.
  intros Hlen. unfold estep.
  match goal with |- not_below _ lap (e_lapla (for_ l ?body e)) =>
    enough (HP : length (e_lapla (for_ l body e)) = (k*l)%nat /\
                 forall i, i < l*k -> flt (e_lapla (for_ l body e) !!! i) lap = false);
    [| apply (for_ind (fun j r => length (e_lapla r) = (k*l)%nat /\
                forall i, i < j*k -> flt (e_lapla r !!! i) lap = false) l body e)]
  end.
  - intros i Hi. apply (proj2 HP). lia.
  - split; [exact Hlen | intros; lia].
  - intros j r Hj [Hl Hf]. unfold estep_sample. cbv beta zeta.
    set (b := approx_estimateZ _ _ _ _ _ _ _ _).
    assert (Hslice : length (slice (j*k) k (e_lapla r)) = k).
    { apply length_slice. rewrite Hl.
      assert (S j * k <= l * k)%nat by (apply Nat.mul_le_mono_r; lia). lia. }
    assert (Hb : length (k_lapla b) = k).
    { unfold b. rewrite (proj2 (length_estimateZ _ _ _ _ _ _ _ _)). exact Hslice. }
    assert (Hfb : not_below k lap (k_lapla b)).
    { unfold b. apply estimateZ_not_below; simpl; eauto. }
    simpl. split.
    + rewrite (length_splice_slice _ k) by (rewrite Hb, Hslice; reflexivity).
      exact Hl.
    + intros i Hi. rewrite lookup_total_splice.
      * case_decide as Hd; [apply Hfb; lia | apply Hf; lia].
      * rewrite Hb, Hl.
        assert (S j * k <= l * k)%nat by (apply Nat.mul_le_mono_r; lia). lia.
Qed.

Lemma estep_phase_not_below (p : params) (st : state) :
  length (st_lapla st) = (p_k p * p_l p)%nat ->
  not_below (p_k p * p_l p) (p_lap p) (st_lapla (estep_phase p st)).
Proof.
  intros Hlen. unfold estep_phase.
  destruct (prelude _ _ _ _ _) as [LPsi LPsiL]. simpl.
  apply estep_not_below. exact Hlen.
Qed.

(** Lines 246-249: the clamp of Psi. *)
Lemma new_Psi_not_below (n k l : nat) (L sum1_ XX : list F) (eps : F) (i : nat) :
  flt (new_Psi n k l L sum1_ XX eps i) eps = false.
Proof. unfold new_Psi. apply choice_not_below. Qed.

Lemma mstep_Psi_not_below (p : params) (st st' : state) :
  length (st_Psi st) = p_n p -> mstep_phase p st = Returned st' ->
  length (st_Psi st') = p_n p /\
  (forall i, i < p_n p ->
     st_Psi st' !!! i =
       new_Psi (p_n p) (p_k p) (p_l p) (st_L st') (st_sum1_ st) (p_XX p) (p_eps p) i) /\
  not_below (p_n p) (p_eps p) (st_Psi st').
Proof.
  intros Hlen E.
  destruct (mstep_phase_inv p st st' E) as (_ & EPsi & _ & EL & _).
  rewrite <- EL in EPsi.
  destruct (update_Psi_spec (p_n p) (p_k p) (p_l p) (st_L st') (st_sum1_ st) (p_XX p)
    (p_eps p) (st_Psi st) Hlen) as (Hl & Hset & _).
  rewrite <- EPsi in Hl, Hset.
  split; [exact Hl|]. split; [exact Hset|].
  intros i Hi. rewrite (Hset i Hi). apply new_Psi_not_below.
Qed.

Lemma em_iteration_Psi_not_below (p : params) (ok : bool) (iter : Z)
    (st st' : state) (fl : flow) :
  length (st_Psi st) = p_n p ->
  em_iteration p ok iter st = Returned (st', fl) ->
  length (st_Psi st') = p_n p /\ not_below (p_n p) (p_eps p) (st_Psi st') /\
  (fl = Break -> st_Psi st' = replicate (p_n p) (p_eps p)).
Proof.
  intros Hlen E. destruct (em_iteration_inv p ok iter st st' fl E) as (st1 & Hm & Hcase).
  destruct (estep_phase_frame p st) as (HPsi & _).
  destruct (mstep_Psi_not_below p _ st1 ltac:(rewrite HPsi; exact Hlen) Hm)
    as (Hl1 & _ & Hf1).
  destruct Hcase as [(_ & _ & ->) | (_ & -> & ->)].
  - simpl. rewrite collapse_Psi_spec by exact Hl1.
    split; [apply length_replicate|]. split; [|reflexivity].
    intros i Hi. rewrite lookup_total_replicate_2 by exact Hi. apply flt_irrefl.
  - destruct (tail_phase_frame p iter st1) as (-> & _).
    split; [exact Hl1|]. split; [exact Hf1 | discriminate].
Qed.

End Irreflexive.

(** C5, as the code has it.  In every arithmetic in which x < x is false,
    floats included: the M-step leaves in Psi[i] the value
    XX[i] - d[i]/l, d[i] being the residual of the new L, when that is
    not below eps, and eps when it is; so no Psi[i] is below eps after an
    M-step, after an iteration whichever way it ends (the collapse exit
    sets every Psi[i] to eps), and at the exit of the loop and of the
    engine when an iteration was run (Psi is the caller's when none was).
    In exact arithmetic an entry that is not below eps is >= eps. *)
Theorem Psi_floor :
  (forall x : F, flt x x = false) ->
  (forall p st st',
     length (st_Psi st) = p_n p -> mstep_phase p st = Returned st' ->
     (forall i, i < p_n p ->
        st_Psi st' !!! i =
          new_Psi (p_n p) (p_k p) (p_l p) (st_L st') (st_sum1_ st) (p_XX p)
            (p_eps p) i) /\
     not_below (p_n p) (p_eps p) (st_Psi st')) /\
  (forall p ok iter st st' fl,
     length (st_Psi st) = p_n p ->
     em_iteration p ok iter st = Returned (st', fl) ->
     not_below (p_n p) (p_eps p) (st_Psi st') /\
     (fl = Break -> st_Psi st' = replicate (p_n p) (p_eps p))) /\
  (forall p ok fuel iter st st',
     length (st_Psi st) = p_n p ->
     em_loop p ok fuel iter st = Returned st' ->
     fuel <> O \/ not_below (p_n p) (p_eps p) (st_Psi st) ->
     not_below (p_n p) (p_eps p) (st_Psi st')) /\
  (forall k n l X Psi L Zs lapla cyc alpha eps spl spz scale lap verbose
          nthreads m r,
     length Psi = n ->
     approx_fabia_cm_f k n l X Psi L Zs lapla cyc alpha eps spl spz scale lap
       verbose nthreads m = Returned r ->
     ((0 < cyc)%Z /\ a_iLPsiLX_ m <> None) \/ not_below n eps Psi ->
     not_below n eps (r_Psi r)) /\
  (forall laws : RealLaws F, forall m floor a,
     not_below m floor a -> floored m floor a).
Proof.
  intros Hirr. split; [|split; [|split; [|split]]].
  - intros p st st' Hlen E.
    destruct (mstep_Psi_not_below Hirr p st st' Hlen E) as (_ & H1 & H2). auto.
  - intros p ok iter st st' fl Hlen E.
    destruct (em_iteration_Psi_not_below Hirr p ok iter st st' fl Hlen E)
      as (_ & H1 & H2). auto.
  - intros p ok fuel iter st st' Hlen E Hstart.
    apply (em_loop_ind (fun st => length (st_Psi st) = p_n p)
             (fun st => not_below (p_n p) (p_eps p) (st_Psi st)) p ok)
      with (fuel := fuel) (iter := iter) (st := st); try assumption.
    intros iter' s s' fl Hs Es.
    destruct (em_iteration_Psi_not_below Hirr p ok iter' s s' fl Hs Es) as (H1 & H2 & _).
    auto.
  - intros k n l X Psi L Zs lapla cyc alpha eps spl spz scale lap verbose
      nthreads m r Hlen E Hstart.
    unfold approx_fabia_cm_f in E.
    destruct (a_iLPsiLX_ m) as [iLPsiLX_|] eqn:Elast.
    + destruct (a_XX m) as [XX|]; [|discriminate].
      destruct (a_iLPsiL_ m) as [iLPsiL_|]; [|discriminate].
      set (p := start_params k n l X cyc alpha eps spl spz scale lap verbose
                  nthreads XX) in *.
      destruct (em_loop p _ _ _ _) as [st| |] eqn:Eloop; [|discriminate|discriminate].
      destruct (last_update_frame _ _ _ _ E) as (-> & _).
      refine (proj2 (em_loop_ind (fun st => length (st_Psi st) = p_n p)
               (fun st => not_below (p_n p) (p_eps p) (st_Psi st)) p _ _ _ _ _ _ _ Eloop _)).
      * intros iter' s s' fl Hs Es.
        destruct (em_iteration_Psi_not_below Hirr p _ iter' s s' fl Hs Es)
          as (H1 & H2 & _). auto.
      * exact Hlen.
      * destruct Hstart as [[Hcyc _] | Hfl]; [left; lia | right; exact Hfl].
    + injection E as <-. simpl.
      destruct Hstart as [[_ Hne] | Hfl]; [congruence | exact Hfl].
  - intros laws m floor a Hnb i Hi. apply fge_true. exact (Hnb i Hi).
Qed.

(** C4, as the code has it.  In every arithmetic in which x < x is
    false, floats included, and with lap the floor raised so that it is
    not below eps: no lapla[i,j] is below lap after the E-step of an
    iteration, nor after a completed iteration when scale = 0 and 1.0 is
    not below lap (the rescale multiplies rows of lapla by (s^2)^(-spz)
    and the reset writes 1.0, whatever lap is); after a collapse exit
    lapla is eps everywhere.  In exact arithmetic an entry that is not
    below lap is >= lap. *)
Theorem lapla_floor :
  (forall x : F, flt x x = false) ->
  (forall k n l X cyc alpha eps spl spz scale lap verbose nthreads XX,
     flt (p_lap (start_params k n l X cyc alpha eps spl spz scale lap verbose
                   nthreads XX)) eps = false) /\
  (forall p st,
     length (st_lapla st) = (p_k p * p_l p)%nat ->
     not_below (p_k p * p_l p) (p_lap p) (st_lapla (estep_phase p st))) /\
  (forall p ok iter st st',
     length (st_lapla st) = (p_k p * p_l p)%nat ->
     p_scale p = 0%Z -> flt 1 (p_lap p) = false ->
     em_iteration p ok iter st = Returned (st', Continue) ->
     not_below (p_k p * p_l p) (p_lap p) (st_lapla st')) /\
  (forall p ok iter st st',
     length (st_lapla st) = (p_k p * p_l p)%nat ->
     em_iteration p ok iter st = Returned (st', Break) ->
     st_lapla st' = replicate (p_k p * p_l p) (p_eps p)) /\
  (forall laws : RealLaws F, forall m floor a,
     not_below m floor a -> floored m floor a).
Proof.
  intros Hirr. split; [|split; [|split; [|split]]].
  - intros. simpl. apply (choice_not_below Hirr).
  - apply (estep_phase_not_below Hirr).
  - intros p ok iter st st' Hlen Hscale Hlap E.
    destruct (em_iteration_inv p ok iter st st' Continue E)
      as (st1 & Hm & [(_ & ? & _) | (_ & _ & ->)]); [discriminate|].
    destruct (mstep_phase_inv p _ st1 Hm) as (_ & _ & _ & _ & _ & Elapla & _).
    pose proof (estep_phase_not_below Hirr p st Hlen) as Hf. rewrite <- Elapla in Hf.
    intros i Hi. unfold tail_phase. rewrite Hscale. simpl.
    pose proof (reset_lapla (p_n p) (p_k p) (p_l p) (st_L st1) (st_lapla st1)
                  (st_rng st1) 0 i) as Hr.
    destruct (reset _ _ _ _) as [[[L' la] g] nr]. simpl in *.
    destruct Hr as [-> | ->]; [apply Hf, Hi | exact Hlap].
  - intros p ok iter st st' Hlen E.
    destruct (em_iteration_inv p ok iter st st' Break E)
      as (st1 & Hm & [(_ & _ & ->) | (_ & ? & _)]); [|discriminate].
    destruct (mstep_phase_inv p _ st1 Hm) as (_ & _ & _ & _ & _ & Elapla & _).
    destruct (estep_phase_frame p st) as (_ & _ & _ & Hl & _).
    simpl. apply collapse_lapla_spec. rewrite Elapla, Hl. exact Hlen.
  - intros laws m floor a Hnb i Hi. apply fge_true. exact (Hnb i Hi).
Qed.

End AnyArithmetic.

(** ** The kernel with accumulators *)

Section KernelSums.

Context {F : Type} {ops : FloatOps F}.
Local Open Scope fl_scope.

(** Column-major indices of an n x k matrix. *)
Lemma cm_lt (n k i j : nat) : i < n -> j < k -> (i + j*n < n*k)%nat.
Proof. intros Hi Hj. pose proof (index_lt k n j i Hj Hi). lia. Qed.

Lemma cm_inj (n i j i' j' : nat) :
  i < n -> i' < n -> (i + j*n = i' + j'*n)%nat -> i = i' /\ j = j'.
Proof.
  intros Hi Hi' E. destruct (index_inj n j i j' i' Hi Hi') as [-> ->]; [lia | auto].
Qed.

(** Two n x k arrays with the same entries are the same array. *)
Lemma cm_ext (n k : nat) (a b : list F) :
  length a = (n*k)%nat -> length b = (n*k)%nat ->
  (forall i j, i < n -> j < k -> a !!! (i + j*n)%nat = b !!! (i + j*n)%nat) ->
  a = b.
Proof.
  intros Ha Hb E.
  apply list_eq_same_length with (n*k)%nat; [exact Hb | exact Ha |].
  intros idx x y Hidx Hx Hy.
  assert (Hn : 0 < n) by (destruct n; [simpl in Hidx; lia | lia]).
  pose proof (Nat.div_mod idx n ltac:(lia)) as Hdm.
  assert (Hq : (idx / n)%nat < k).
  { apply Nat.Div0.div_lt_upper_bound. lia. }
  assert (Hr : idx mod n < n) by (apply Nat.mod_upper_bound; lia).
  specialize (E (idx mod n)%nat (idx / n)%nat Hr Hq).
  replace (idx mod n + idx / n * n)%nat with idx in E by lia.
  rewrite !list_lookup_total_alt, Hx, Hy in E. exact E.
Qed.

Lemma ger_spec (n k : nat) (x y A : list F) :
  length A = (n*k)%nat ->
  length (ger n k x y A) = (n*k)%nat /\
  forall i j, i < n -> j < k ->
    ger n k x y A !!! (i + j*n)%nat = A !!! (i + j*n)%nat + x !!! i * y !!! j.
Proof.
  intros Hlen. unfold ger.
  destruct (for2_cells k n (fun j i => (i + j*n)%nat)
    (fun j i v => v + x !!! i * y !!! j) A) as (Hl & Hset & _).
  - intros j i Hj Hi. rewrite Hlen. apply cm_lt; assumption.
  - intros j i j' i' Hj Hi Hj' Hi' E.
    destruct (cm_inj n i j i' j' Hi Hi' E). auto.
  - split; [rewrite Hl; exact Hlen|].
    intros i j Hi Hj. apply (Hset j i Hj Hi).
Qed.

Lemma estimateZ_sum1_ger (n k : nat) (x LPsi LPsiL : list F) (spz lap : F)
    (b : kernel_bufs) (s1 s2 : list F) :
  k_sum1 b = Some s1 -> k_sum2 b = Some s2 ->
  k_sum1 (approx_estimateZ n k x LPsi LPsiL spz lap b) =
    Some (ger n k x (k_z (approx_estimateZ n k x LPsi LPsiL spz lap b)) s1).
Proof.
  intros E1 E2. unfold approx_estimateZ. rewrite E1, E2.
  destruct (kernel_init _ _ _ _) as [iL z0].
  destruct (kernel_mean _ _ _ _ _ _) as [iX z1].
  destruct (kernel_accum _ _ _ _ _) as [[? ?] ?]. reflexivity.
Qed.

(** Lines 88-91 read iLPsiL[i] and z[i] and write iLPsiL[i] and lapla[i]. *)
Lemma kernel_accum_lapla (k : nat) (z : list F) (spz lap : F)
    (sum2 iLPsiL lapla : list F) :
  length iLPsiL = k -> length lapla = k ->
  let r := kernel_accum k z spz lap (sum2, iLPsiL, lapla) in
  length r.1.2 = k /\ length r.2 = k /\
  (forall i, i < k -> r.1.2 !!! i = iLPsiL !!! i + z !!! i * z !!! i) /\
  (forall i, i < k ->
     r.2 !!! i =
       variational spz lap (iLPsiL !!! i) (z !!! i)).
Proof.
  intros Hi Hl r. subst r. unfold kernel_accum.
  set (P := fun (m : nat) (s : list F * list F * list F) =>
    length s.1.2 = k /\ length s.2 = k /\
    (forall i, i < m -> s.1.2 !!! i = iLPsiL !!! i + z !!! i * z !!! i) /\
    (forall i, (m <= i)%nat -> s.1.2 !!! i = iLPsiL !!! i) /\
    (forall i, i < m -> s.2 !!! i = variational spz lap (iLPsiL !!! i) (z !!! i))).
  match goal with |- context [for_ k ?body ?s0] =>
    enough (HP : P k (for_ k body s0))
      by (destruct HP as (H1 & H2 & H3 & _ & H5); auto);
    apply (for_ind P k body s0) end.
  - unfold P. simpl. split; [|split; [|split; [|split]]]; auto; intros; lia.
  - intros m [[a b] c] Hm (Ha & Hb & Hdone & Hrest & Hlap); simpl in *.
    split; [|split; [|split; [|split]]]; simpl.
    + rewrite length_insert. exact Ha.
    + rewrite length_insert. exact Hb.
    + intros i Hi'. destruct (decide (i = m)) as [->|Hne].
      * rewrite list_lookup_total_insert_eq by lia. rewrite Hrest by lia. reflexivity.
      * rewrite list_lookup_total_insert_ne by lia. apply Hdone. lia.
    + intros i Hi'. rewrite list_lookup_total_insert_ne by lia. apply Hrest. lia.
    + intros i Hi'. destruct (decide (i = m)) as [->|Hne].
      * rewrite list_lookup_total_insert_eq by lia.
        rewrite list_lookup_total_insert_eq by lia.
        rewrite Hrest by lia. reflexivity.
      * rewrite list_lookup_total_insert_ne by lia. apply Hlap. lia.
Qed.

Lemma length_estimateZ_work (n k : nat) (x LPsi LPsiL : list F) (spz lap : F)
    (b : kernel_bufs) :
  length (k_iLPsiL (approx_estimateZ n k x LPsi LPsiL spz lap b)) =
    length (k_iLPsiL b) /\
  length (k_iLPsiLX (approx_estimateZ n k x LPsi LPsiL spz lap b)) =
    length (k_iLPsiLX b).
Proof.
  unfold approx_estimateZ.
  pose proof (length_kernel_init k LPsiL (k_lapla b) (k_iLPsiL b, k_z b)) as [Hi _].
  destruct (kernel_init k LPsiL (k_lapla b) (k_iLPsiL b, k_z b)) as [iL z0].
  pose proof (length_kernel_mean n k x LPsi iL (k_iLPsiLX b, z0)) as [HX _].
  destruct (kernel_mean n k x LPsi iL (k_iLPsiLX b, z0)) as [iX z1].
  simpl in *.
  destruct (k_sum1 b) as [s1|], (k_sum2 b) as [s2|]; simpl; try (split; congruence).
  pose proof (length_kernel_accum k z1 spz lap (s2, iL, k_lapla b)) as (_ & HiL & _).
  destruct (kernel_accum k z1 spz lap (s2, iL, k_lapla b)) as [[? ?] ?].
  simpl in *. split; congruence.
Qed.

Lemma posterior_mean_ext (n k : nat) (x x' LPsi LPsiL lap_j lap_j' : list F) (i : nat) :
  lap_j !!! i = lap_j' !!! i ->
  (forall i2, i2 < n -> x !!! i2 = x' !!! i2) ->
  posterior_mean n k x LPsi LPsiL lap_j i = posterior_mean n k x' LPsi LPsiL lap_j' i.
Proof.
  intros El Ex. unfold posterior_mean, precision. apply for_ext.
  intros i2 acc Hi2. rewrite El, (Ex i2 Hi2). reflexivity.
Qed.

Lemma variational_spec (n k : nat) (x LPsi LPsiL : list F) (spz lap : F)
    (b : kernel_bufs) :
  is_Some (k_sum1 b) -> is_Some (k_sum2 b) ->
  length (k_z b) = k -> length (k_lapla b) = k -> length (k_iLPsiL b) = k ->
  length (k_iLPsiLX b) = (n*k)%nat ->
  let b' := approx_estimateZ n k x LPsi LPsiL spz lap b in
  forall i, i < k ->
    let z := posterior_mean n k x LPsi LPsiL (k_lapla b) i in
    k_iLPsiL b' !!! i = precision LPsiL (k_lapla b) i + z * z /\
    k_lapla b' !!! i = variational spz lap (precision LPsiL (k_lapla b) i) z.
Proof.
  intros [s1 E1] [s2 E2] Hz Hl Hi HX b' i Hik z.
  destruct (estimateZ_spec n k x LPsi LPsiL spz lap b Hz Hi HX) as (Hprec & _ & _ & Hm).
  specialize (Hm i Hik). fold b' in Hm. fold z in Hm.
  revert Hm. subst b'. unfold approx_estimateZ. rewrite E1, E2.
  pose proof (length_kernel_init k LPsiL (k_lapla b) (k_iLPsiL b, k_z b)) as [HliL _].
  destruct (kernel_init _ _ _ _) as [iL z0]. simpl in Hprec, HliL.
  destruct (kernel_mean _ _ _ _ _ _) as [iX z1].
  destruct (kernel_accum_lapla k z1 spz lap s2 iL (k_lapla b)) as (_ & _ & HiL & Hla);
    [congruence | exact Hl |].
  destruct (kernel_accum _ _ _ _ _) as [[s2' iL'] la]. simpl in *.
  intros Hm. rewrite (HiL i Hik), (Hla i Hik), (Hprec i Hik), Hm. auto.
Qed.

(** X1.  With accumulators the kernel adds the outer product x z' to sum1
    (line 81): the entry (i,j) of the n x k column-major matrix grows by
    x[i] times the posterior mean z[j] that this call computes. *)
Theorem estimateZ_sum1 (n k : nat) (x LPsi LPsiL : list F) (spz lap : F)
    (b : kernel_bufs) (s1 s2 : list F) :
  k_sum1 b = Some s1 -> k_sum2 b = Some s2 ->
  length s1 = (n*k)%nat -> length (k_z b) = k -> length (k_iLPsiL b) = k ->
  length (k_iLPsiLX b) = (n*k)%nat ->
  exists s1', k_sum1 (approx_estimateZ n k x LPsi LPsiL spz lap b) = Some s1' /\
    length s1' = (n*k)%nat /\
    forall i j, i < n -> j < k ->
      s1' !!! (i + j*n)%nat =
        s1 !!! (i + j*n)%nat + x !!! i * posterior_mean n k x LPsi LPsiL (k_lapla b) j.
Proof.
  intros E1 E2 Hs1 Hz Hi HX.
  rewrite (estimateZ_sum1_ger n k x LPsi LPsiL spz lap b s1 s2 E1 E2).
  destruct (ger_spec n k x (k_z (approx_estimateZ n k x LPsi LPsiL spz lap b)) s1 Hs1)
    as [Hl Hset].
  eexists. split; [reflexivity|]. split; [exact Hl|].
  intros i j Hin Hjk. rewrite (Hset i j Hin Hjk).
  destruct (estimateZ_spec n k x LPsi LPsiL spz lap b Hz Hi HX) as (_ & _ & _ & ->);
    [reflexivity | exact Hjk].
Qed.

(** X2.  With accumulators the kernel adds z z' to sum2 and, to its
    diagonal, the reciprocals iLPsiL as lines 66-69 computed them (lines
    83-87); z is the posterior mean of this call. *)
Theorem estimateZ_sum2 (n k : nat) (x LPsi LPsiL : list F) (spz lap : F)
    (b : kernel_bufs) (s1 s2 : list F) :
  k_sum1 b = Some s1 -> k_sum2 b = Some s2 ->
  length s2 = (k*k)%nat -> length (k_z b) = k -> length (k_iLPsiL b) = k ->
  length (k_iLPsiLX b) = (n*k)%nat ->
  exists s2', k_sum2 (approx_estimateZ n k x LPsi LPsiL spz lap b) = Some s2' /\
    length s2' = (k*k)%nat /\
    forall i j, i < k -> j < k ->
      s2' !!! (i*k + j)%nat =
        let zi := posterior_mean n k x LPsi LPsiL (k_lapla b) i in
        let zj := posterior_mean n k x LPsi LPsiL (k_lapla b) j in
        if decide (i = j)
        then s2 !!! (i*k + j)%nat + zi * zj + precision LPsiL (k_lapla b) i
        else s2 !!! (i*k + j)%nat + zi * zj.
Proof.
  intros E1 E2 Hs2 Hz Hi HX.
  destruct (estimateZ_accum n k x LPsi LPsiL spz lap b s1 s2 E1 E2 Hs2 Hi Hz)
    as (s2' & Es & Hl & _ & Hacc).
  exists s2'. split; [exact Es|]. split; [exact Hl|].
  intros i j Hik Hjk. rewrite (Hacc i j Hik Hjk). unfold accumulated, entries.
  destruct (estimateZ_spec n k x LPsi LPsiL spz lap b Hz Hi HX) as (_ & _ & _ & Hm).
  rewrite (Hm i Hik), (Hm j Hjk). reflexivity.
Qed.

(** X3.  With accumulators the kernel leaves, for every factor i,
    iLPsiL[i] = 1/(LPsiL[i] + lapla[i] + MACHINE_EPS) + z[i]^2 and
    lapla[i] = (MACHINE_EPS + iLPsiL[i])^(-spz) raised to lap when it is
    below lap, the lapla on the right being the one of entry (lines
    88-91). *)
Theorem estimateZ_variational (n k : nat) (x LPsi LPsiL : list F) (spz lap : F)
    (b : kernel_bufs) :
  is_Some (k_sum1 b) -> is_Some (k_sum2 b) ->
  length (k_z b) = k -> length (k_lapla b) = k -> length (k_iLPsiL b) = k ->
  length (k_iLPsiLX b) = (n*k)%nat ->
  let b' := approx_estimateZ n k x LPsi LPsiL spz lap b in
  forall i, i < k ->
    let z := posterior_mean n k x LPsi LPsiL (k_lapla b) i in
    k_iLPsiL b' !!! i = precision LPsiL (k_lapla b) i + z * z /\
    k_lapla b' !!! i = variational spz lap (precision LPsiL (k_lapla b) i) z.
Proof. apply variational_spec. Qed.

End KernelSums.

(** ** The routines around the loop over the samples *)

Section Routines.

Context {F : Type} {ops : FloatOps F} {ext : Externals F}.
Local Open Scope fl_scope.

(** The copy of lines 35-40 reads the cells below the diagonal and writes
    the cells above it. *)
Lemma symmetrise_spec (n : nat) (a : list F) :
  length a = (n*n)%nat ->
  length (symmetrise n a) = (n*n)%nat /\
  (forall r c, r < n -> c <= r -> symmetrise n a !!! (r + c*n)%nat = a !!! (r + c*n)%nat) /\
  (forall r c, c < n -> r < c -> symmetrise n a !!! (r + c*n)%nat = a !!! (c + r*n)%nat).
Proof.
  intros Hlen. unfold symmetrise.
  set (P := fun (m : nat) (s : list F) =>
    length s = (n*n)%nat /\
    (forall r c, r < n -> c <= r -> s !!! (r + c*n)%nat = a !!! (r + c*n)%nat) /\
    (forall r c, c < n -> r < c -> r < m -> s !!! (r + c*n)%nat = a !!! (c + r*n)%nat)).
  match goal with |- context [for_ n ?body a] =>
    enough (HP : P n (for_ n body a))
      by (destruct HP as (H1 & H2 & H3); split; [|split]; auto;
          intros r c Hc Hr; apply H3; lia);
    apply (for_ind P n body a) end.
  - split; [|split]; auto. intros; lia.
  - intros i1 s Hi1 (Hl & Hlow & Hup).
    set (Q := fun (t : nat) (s' : list F) =>
      length s' = (n*n)%nat /\
      (forall r c, r < n -> c <= r -> s' !!! (r + c*n)%nat = a !!! (r + c*n)%nat) /\
      (forall r c, c < n -> r < c -> r < i1 \/ (r = i1 /\ c < i1 + 1 + t) ->
         s' !!! (r + c*n)%nat = a !!! (c + r*n)%nat)).
    match goal with |- P _ (for_ ?t ?body s) =>
      assert (HQ : Q t (for_ t body s)) end.
    { apply for_ind.
      - split; [|split]; auto. intros r c Hc Hr [Hlt | [-> Hlt]]; [auto | lia].
      - intros d s' Hd (Hl' & Hlow' & Hup').
        assert (Hw : (i1 + (i1 + 1 + d)*n < length s')%nat)
          by (rewrite Hl'; apply cm_lt; lia).
        split; [|split].
        + rewrite length_insert. exact Hl'.
        + intros r c Hr Hc. rewrite list_lookup_total_insert_ne; [apply Hlow'; assumption|].
          intros E. apply cm_inj in E; lia.
        + intros r c Hc Hr Hcase.
          destruct (decide (r = i1 /\ c = i1 + 1 + d)%nat) as [[-> ->]|Hne].
          * rewrite list_lookup_total_insert_eq by exact Hw.
            apply Hlow'; lia.
          * rewrite list_lookup_total_insert_ne.
            -- apply Hup'; [assumption | assumption | lia].
            -- intros E. apply cm_inj in E; lia. }
    destruct HQ as (Hl' & Hlow' & Hup'). split; [|split]; auto.
    intros r c Hc Hr Hm. apply Hup'; [assumption | assumption | lia].
Qed.

(** X4.  [invertCholesky] aborts exactly when one of the two LAPACK calls
    reports info other than 0, and writes through no NULL pointer.  What
    it returns is a symmetric matrix whose lower triangle is the one that
    [spotri] left (lines 30-40). *)
Theorem invertCholesky_symmetric (a : list F) (n : nat) :
  let f := potrf n a in
  let v := potri n f.1 in
  (invertCholesky a n = AssertFailed <-> (f.2 <> 0%Z \/ v.2 <> 0%Z)) /\
  (invertCholesky a n <> NullDeref) /\
  (forall a', invertCholesky a n = Returned a' -> length v.1 = (n*n)%nat ->
     length a' = (n*n)%nat /\
     (forall r c, r < n -> c <= r -> a' !!! (r + c*n)%nat = v.1 !!! (r + c*n)%nat) /\
     (forall r c, r < n -> c < n -> a' !!! (r + c*n)%nat = a' !!! (c + r*n)%nat)).
Proof.
  intros f v. subst f v. unfold invertCholesky.
  destruct (potrf n a) as [a1 i1]. simpl.
  destruct (Z.eqb_spec i1 0) as [->|Hi1]; simpl.
  - destruct (potri n a1) as [a2 i2]. simpl.
    destruct (Z.eqb_spec i2 0) as [->|Hi2]; simpl.
    + split; [|split]; [split; [discriminate | intros [H|H]; congruence] | discriminate |].
      intros a' [= <-] Hlen.
      destruct (symmetrise_spec n a2 Hlen) as (Hl & Hlow & Hup).
      split; [exact Hl|]. split; [exact Hlow|].
      intros r c Hr Hc. destruct (Nat.lt_trichotomy r c) as [Hlt|[->|Hgt]].
      * rewrite (Hup r c Hc Hlt), (Hlow c r Hc) by lia. reflexivity.
      * reflexivity.
      * rewrite (Hup c r Hr Hgt), (Hlow r c Hr) by lia. reflexivity.
    + split; [|split]; [split; auto | discriminate | discriminate].
  - split; [|split]; [split; auto | discriminate | discriminate].
Qed.

Lemma gemm_spec (n k : nat) (A B C : list F) :
  length C = (n*k)%nat ->
  length (gemm n k A B C) = (n*k)%nat /\
  forall i j, i < n -> j < k ->
    gemm n k A B C !!! (i + j*n)%nat = gemm_entry n k A B i j.
Proof.
  intros Hlen. unfold gemm.
  destruct (for2_cells k n (fun j i => (i + j*n)%nat)
    (fun j i _ => gemm_entry n k A B i j) C) as (Hl & Hset & _).
  - intros j i Hj Hi. rewrite Hlen. apply cm_lt; assumption.
  - intros j i j' i' Hj Hi Hj' Hi' E.
    destruct (cm_inj n i j i' j' Hi Hi' E). auto.
  - split; [rewrite Hl; exact Hlen|].
    intros i j Hi Hj. apply (Hset j i Hj Hi).
Qed.

(** X5.  Lines 162-168 leave XX[i] = (the sum over the samples j of
    X[i,j]^2) / l for every feature i, whatever the block that malloc
    returned held. *)
Theorem compute_XX_mean_square (n l : nat) (X XX : list F) :
  length XX = n ->
  length (compute_XX n l X XX) = n /\
  forall i2, i2 < n -> compute_XX n l X XX !!! i2 = mean_square n l X i2.
Proof.
  intros Hlen. unfold compute_XX.
  set (a0 := memset0 n XX).
  assert (Hl0 : length a0 = n) by (unfold a0; rewrite length_memset0; lia).
  set (P := fun (m : nat) (s : list F) =>
    length s = n /\
    forall i2, i2 < n ->
      s !!! i2 = for_ m (fun i1 s => s + X !!! (i2 + i1*n)%nat * X !!! (i2 + i1*n)%nat) 0).
  match goal with |- context [for_ n _ (for_ l ?body a0)] =>
    assert (HP : P l (for_ l body a0)) end.
  { apply for_ind.
    - split; [exact Hl0|]. intros i2 Hi2. rewrite for_0.
      apply lookup_total_memset0, Hi2.
    - intros m s Hm [Hl Hs].
      destruct (for_cells n (fun i2 => i2)
        (fun i2 v => v + X !!! (i2 + m*n)%nat * X !!! (i2 + m*n)%nat) s)
        as (Hl' & Hset & _).
      + intros i Hi. lia.
      + auto.
      + split; [rewrite Hl'; exact Hl|].
        intros i2 Hi2. rewrite (Hset i2 Hi2), for_S, (Hs i2 Hi2). reflexivity. }
  destruct HP as [Hl Hs].
  match goal with |- context [for_ n _ ?s] =>
    destruct (for_cells n (fun i2 => i2) (fun _ v => v / of_int (Z.of_nat l)) s)
      as (Hl' & Hset & _) end.
  - intros i Hi. lia.
  - auto.
  - split; [rewrite Hl'; exact Hl|].
    intros i2 Hi2. rewrite (Hset i2 Hi2), (Hs i2 Hi2). reflexivity.
Qed.

Lemma prelude_spec (n k : nat) (L Psi LPsi LPsiL : list F) :
  length LPsi = (n*k)%nat -> length LPsiL = k ->
  let r := prelude n k L Psi (LPsi, LPsiL) in
  length r.1 = (n*k)%nat /\ length r.2 = k /\
  (forall i1 i2, i1 < k -> i2 < n ->
     r.1 !!! (i2*k + i1)%nat = L !!! (i2 + i1*n)%nat / Psi !!! i2) /\
  (forall i1, i1 < k -> r.2 !!! i1 = weighted_norm n L Psi i1).
Proof.
  intros Ha Hb r. subst r. unfold prelude.
  set (P := fun (m : nat) (s : list F * list F) =>
    length s.1 = (n*k)%nat /\ length s.2 = k /\
    (forall i1 i2, i1 < m -> i2 < n ->
       s.1 !!! (i2*k + i1)%nat = L !!! (i2 + i1*n)%nat / Psi !!! i2) /\
    (forall i1, i1 < m -> s.2 !!! i1 = weighted_norm n L Psi i1)).
  match goal with |- context [for_ k ?body ?s0] =>
    enough (HP : P k (for_ k body s0)) by exact HP;
    apply (for_ind P k body s0) end.
  - split; [|split; [|split]]; auto; intros; lia.
  - intros m [a b] Hm (Hla & Hlb & Hset & Hnorm); simpl in *.
    set (Q := fun (t : nat) (s : list F * list F) =>
      length s.1 = (n*k)%nat /\ length s.2 = k /\
      (forall i1 i2, i1 < m \/ (i1 = m /\ i2 < t) -> i1 < k -> i2 < n ->
         s.1 !!! (i2*k + i1)%nat = L !!! (i2 + i1*n)%nat / Psi !!! i2) /\
      (forall i1, i1 < m -> s.2 !!! i1 = weighted_norm n L Psi i1) /\
      s.2 !!! m = for_ t (fun i2 s =>
        s + L !!! (i2 + m*n)%nat * (L !!! (i2 + m*n)%nat / Psi !!! i2)) 0).
    match goal with |- P _ (for_ n ?body ?s0) =>
      assert (HQ : Q n (for_ n body s0)) end.
    { apply for_ind.
      - split; [|split; [|split; [|split]]]; simpl; rewrite ?length_insert; auto.
        + intros i1 i2 [Hlt | [_ Hlt]] Hi1 Hi2; [apply Hset; assumption | lia].
        + intros i1 Hi1. rewrite list_lookup_total_insert_ne by lia. apply Hnorm, Hi1.
        + rewrite list_lookup_total_insert_eq by lia. reflexivity.
      - intros t [a' b'] Ht (Hla' & Hlb' & Hset' & Hnorm' & Hm'); simpl in *.
        assert (Hw : (t*k + m < length a')%nat)
          by (rewrite Hla'; apply index_lt; assumption).
        split; [|split; [|split; [|split]]]; simpl; rewrite ?length_insert; auto.
        + intros i1 i2 Hcase Hi1 Hi2.
          destruct (decide (i1 = m /\ i2 = t)) as [[-> ->]|Hne].
          * rewrite list_lookup_total_insert_eq by exact Hw. reflexivity.
          * rewrite list_lookup_total_insert_ne.
            -- apply Hset'; [lia | assumption | assumption].
            -- intros E. apply index_inj in E; [lia | assumption | assumption].
        + intros i1 Hi1. rewrite list_lookup_total_insert_ne by lia. apply Hnorm', Hi1.
        + rewrite list_lookup_total_insert_eq by lia.
          rewrite list_lookup_total_insert_eq by exact Hw.
          rewrite for_S, Hm'. reflexivity. }
    destruct HQ as (Hla' & Hlb' & Hset' & Hnorm' & Hm').
    split; [|split; [|split]]; auto.
    + intros i1 i2 Hi1 Hi2. apply Hset'; [|lia|assumption].
      destruct (decide (i1 = m)) as [->|]; [right; auto | left; lia].
    + intros i1 Hi1. destruct (decide (i1 = m)) as [->|Hne];
        [exact Hm' | apply Hnorm'; lia].
Qed.

(** X6.  Lines 175-181 leave LPsi[i2*k+i1] = L[i2,i1]/Psi[i2], the
    transpose of diag(1/Psi) L, and LPsiL[i1] = the sum over i2 of
    L[i2,i1]*(L[i2,i1]/Psi[i2]), whatever the two scratch arrays held. *)
Theorem prelude_entries (n k : nat) (L Psi LPsi LPsiL : list F) :
  length LPsi = (n*k)%nat -> length LPsiL = k ->
  let r := prelude n k L Psi (LPsi, LPsiL) in
  length r.1 = (n*k)%nat /\ length r.2 = k /\
  (forall i1 i2, i1 < k -> i2 < n ->
     r.1 !!! (i2*k + i1)%nat = L !!! (i2 + i1*n)%nat / Psi !!! i2) /\
  (forall i1, i1 < k -> r.2 !!! i1 = weighted_norm n L Psi i1).
Proof. apply prelude_spec. Qed.

Lemma reduce_one (len : nat) (a : list F) : reduce len 1 a = a.
Proof.
  unfold reduce. apply (for_inv (fun r => r = a)); [reflexivity|].
  intros i r _ ->. reflexivity.
Qed.

(** X7.  The reduction of lines 205-211 leaves in cell i of the first
    buffer the cells i of all the buffers, added in the order of the
    threads; it keeps the other buffers, and with one thread it changes
    nothing. *)
Theorem reduce_threads (len nthreads : nat) (a : list F) :
  (nthreads*len <= length a)%nat -> 1 <= nthreads ->
  length (reduce len nthreads a) = length a /\
  (forall i, i < len -> reduce len nthreads a !!! i = reduced_cell len nthreads a i) /\
  (forall c, (len <= c)%nat -> reduce len nthreads a !!! c = a !!! c) /\
  (nthreads = 1%nat -> reduce len nthreads a = a).
Proof.
  intros Hlen Hn. destruct (reduce_spec len nthreads a Hlen Hn) as (H1 & H2 & H3).
  split; [exact H1|]. split; [exact H2|]. split; [exact H3|].
  intros ->. apply reduce_one.
Qed.

End Routines.

(** ** Rescale and reset *)

Section Tail.

Context {F : Type} {ops : FloatOps F} {ext : Externals F}.
Local Open Scope fl_scope.

Lemma column_scale_ext (n : nat) (L L' : list F) (i : nat) :
  (forall j, j < n -> L' !!! (i*n + j)%nat = L !!! (i*n + j)%nat) ->
  column_scale n L' i = column_scale n L i.
Proof.
  intros E. unfold column_scale, column_mean_square. do 4 f_equal.
  apply for_ext. intros j s Hj. rewrite (E j Hj). reflexivity.
Qed.

Lemma rescale_spec (n k l : nat) (spz : F) (L lapla : list F) :
  length L = (n*k)%nat -> length lapla = (k*l)%nat ->
  let r := rescale n k l spz (L, lapla) in
  length r.1 = (n*k)%nat /\ length r.2 = (k*l)%nat /\
  (forall i j, i < k -> j < n ->
     r.1 !!! (i*n + j)%nat = L !!! (i*n + j)%nat * column_scale n L i) /\
  (forall i j, i < k -> j < l ->
     r.2 !!! (j*k + i)%nat =
       lapla !!! (j*k + i)%nat *
       fpow (column_scale n L i * column_scale n L i) (- spz)).
Proof.
  intros HL Hla r. subst r. unfold rescale.
  set (P := fun (m : nat) (s : list F * list F) =>
    length s.1 = (n*k)%nat /\ length s.2 = (k*l)%nat /\
    (forall i j, i < k -> j < n ->
       s.1 !!! (i*n + j)%nat =
         if decide (i < m) then L !!! (i*n + j)%nat * column_scale n L i
         else L !!! (i*n + j)%nat) /\
    (forall i j, i < k -> j < l ->
       s.2 !!! (j*k + i)%nat =
         if decide (i < m)
         then lapla !!! (j*k + i)%nat *
              fpow (column_scale n L i * column_scale n L i) (- spz)
         else lapla !!! (j*k + i)%nat)).
  match goal with |- context [for_ k ?body ?s0] =>
    enough (HP : P k (for_ k body s0))
      by (destruct HP as (H1 & H2 & H3 & H4); split; [|split; [|split]]; auto;
          intros i j Hi Hj; [rewrite (H3 i j Hi Hj) | rewrite (H4 i j Hi Hj)];
          rewrite decide_True by exact Hi; reflexivity);
    apply (for_ind P k body s0) end.
  - split; [|split; [|split]]; auto; intros i j Hi Hj;
      rewrite decide_False by lia; reflexivity.
  - intros m [a b] Hm (Hl1 & Hl2 & HLs & Hlas); simpl in *.
    change (1 / (fsqrt (for_ n (fun j s =>
        s + a !!! (m*n + j)%nat * a !!! (m*n + j)%nat) 0 / of_int (Z.of_nat n))
      + MACHINE_EPS)) with (column_scale n a m).
    assert (Es : column_scale n a m = column_scale n L m).
    { apply column_scale_ext. intros j Hj. rewrite (HLs m j Hm Hj).
      rewrite decide_False by lia. reflexivity. }
    rewrite Es. set (s := column_scale n L m).
    destruct (for_cells n (fun j => (m*n + j)%nat) (fun _ v => v * s) a)
      as (Hl1' & Hset1 & Hother1).
    { intros j Hj. rewrite Hl1. pose proof (index_lt k n m j Hm Hj). lia. }
    { intros j j' _ _ E. lia. }
    destruct (for_cells l (fun j => (j*k + m)%nat) (fun _ v => v * fpow (s * s) (- spz)) b)
      as (Hl2' & Hset2 & Hother2).
    { intros j Hj. rewrite Hl2. pose proof (index_lt l k j m Hj Hm). lia. }
    { intros j j' _ _ E. apply index_inj in E; [lia | assumption | assumption]. }
    split; [|split; [|split]]; cbn [fst snd].
    + rewrite Hl1'. exact Hl1.
    + rewrite Hl2'. exact Hl2.
    + intros i j Hi Hj. destruct (decide (i = m)) as [->|Hne].
      * rewrite (Hset1 j Hj), (HLs m j Hm Hj).
        rewrite decide_False, decide_True by lia. reflexivity.
      * rewrite Hother1.
        -- rewrite (HLs i j Hi Hj). repeat case_decide; try lia; reflexivity.
        -- intros j' Hj' E. apply index_inj in E; [lia | assumption | assumption].
    + intros i j Hi Hj. destruct (decide (i = m)) as [->|Hne].
      * rewrite (Hset2 j Hj), (Hlas m j Hm Hj).
        rewrite decide_False, decide_True by lia. reflexivity.
      * rewrite Hother2.
        -- rewrite (Hlas i j Hi Hj). repeat case_decide; try lia; reflexivity.
        -- intros j' Hj' E. apply index_inj in E; [lia | assumption | assumption].
Qed.

(** X8.  The rescale of lines 264-277 multiplies column i of L by
    s_i = 1/(sqrt(mean square of that column on entry) + MACHINE_EPS) and
    row i of lapla by (s_i^2)^(-spz). *)
Theorem rescale_columns (n k l : nat) (spz : F) (L lapla : list F) :
  length L = (n*k)%nat -> length lapla = (k*l)%nat ->
  let r := rescale n k l spz (L, lapla) in
  length r.1 = (n*k)%nat /\ length r.2 = (k*l)%nat /\
  (forall i j, i < k -> j < n ->
     r.1 !!! (i*n + j)%nat = L !!! (i*n + j)%nat * column_scale n L i) /\
  (forall i j, i < k -> j < l ->
     r.2 !!! (j*k + i)%nat =
       lapla !!! (j*k + i)%nat *
       fpow (column_scale n L i * column_scale n L i) (- spz)).
Proof. apply rescale_spec. Qed.

(** *** The reset of all-zero columns *)
Lemma forallb_seq_ext (f g : nat -> bool) (n : nat) :
  (forall j, j < n -> f j = g j) -> forallb f (seq 0 n) = forallb g (seq 0 n).
Proof.
  intros E. induction n as [|n IH]; [reflexivity|].
  rewrite seq_S, !forallb_app. simpl. rewrite IH, (E n) by (intros; try apply E; lia).
  reflexivity.
Qed.

Lemma isZero_ext (n : nat) (L L' : list F) (i : nat) :
  (forall j, j < n -> L' !!! (i*n + j)%nat = L !!! (i*n + j)%nat) ->
  isZero n L' i = isZero n L i.
Proof.
  intros E. unfold isZero. apply forallb_seq_ext. intros j Hj.
  replace (j + i*n)%nat with (i*n + j)%nat by lia. rewrite (E j Hj). reflexivity.
Qed.

Lemma isZero_true (n : nat) (L : list F) (i : nat) :
  isZero n L i = true <-> forall j, j < n -> fne (L !!! (i*n + j)%nat) 0 = false.
Proof.
  unfold isZero. rewrite forallb_forall. split.
  - intros H j Hj. specialize (H j). rewrite in_seq in H.
    replace (i*n + j)%nat with (j + i*n)%nat by lia.
    apply negb_true_iff, H. lia.
  - intros H j Hj. apply in_seq in Hj. apply negb_true_iff.
    replace (j + i*n)%nat with (i*n + j)%nat by lia. apply H. lia.
Qed.

Lemma dead_columns_S (n : nat) (L : list F) (m : nat) :
  dead_columns n L (S m) =
  if isZero n L m then S (dead_columns n L m) else dead_columns n L m.
Proof. unfold dead_columns. rewrite for_S. reflexivity. Qed.


(** Lines 293-294: n values drawn into column i. *)
Lemma draw_column_spec (n i : nat) (L : list F) (rng : nat) :
  (forall j, j < n -> (i*n + j < length L)%nat) ->
  let r := for_ n (fun j '(L, rng) =>
    (<[(i*n + j)%nat := rand_normal rng]> L, S rng)) (L, rng) in
  length r.1 = length L /\ r.2 = (rng + n)%nat /\
  (forall j, j < n -> r.1 !!! (i*n + j)%nat = rand_normal (rng + j)) /\
  (forall c, (forall j, j < n -> (i*n + j)%nat <> c) -> r.1 !!! c = L !!! c).
Proof.
  intros Hrange r. subst r.
  set (P := fun (m : nat) (s : list F * nat) =>
    length s.1 = length L /\ s.2 = (rng + m)%nat /\
    (forall j, j < m -> s.1 !!! (i*n + j)%nat = rand_normal (rng + j)) /\
    (forall c, (forall j, j < m -> (i*n + j)%nat <> c) -> s.1 !!! c = L !!! c)).
  match goal with |- context [for_ n ?body ?s0] =>
    enough (HP : P n (for_ n body s0)) by exact HP;
    apply (for_ind P n body s0) end.
  - split; [|split; [|split]]; simpl; auto; intros; lia.
  - intros m [a g] Hm (Hl & Hg & Hset & Hother); simpl in *. subst g.
    split; [|split; [|split]]; simpl.
    + rewrite length_insert. exact Hl.
    + lia.
    + intros j Hj. destruct (decide (j = m)) as [->|Hne].
      * rewrite list_lookup_total_insert_eq by (rewrite Hl; apply Hrange, Hm).
        reflexivity.
      * rewrite list_lookup_total_insert_ne by lia. apply Hset. lia.
    + intros c Hc. rewrite list_lookup_total_insert_ne by (apply Hc; lia).
      apply Hother. intros j Hj. apply Hc. lia.
Qed.

Lemma reset_spec (n k l : nat) (L lapla : list F) (rng : nat) :
  length L = (n*k)%nat -> length lapla = (k*l)%nat ->
  let r := reset n k l (L, lapla, rng, O) in
  length r.1.1.1 = (n*k)%nat /\ length r.1.1.2 = (k*l)%nat /\
  r.2 = dead_columns n L k /\
  r.1.2 = (rng + n * dead_columns n L k)%nat /\
  (forall i j, i < k -> j < n ->
     r.1.1.1 !!! (i*n + j)%nat =
       if isZero n L i then rand_normal (rng + n * dead_columns n L i + j)
       else L !!! (i*n + j)%nat) /\
  (forall i j, i < k -> j < l ->
     r.1.1.2 !!! (j*k + i)%nat =
       if isZero n L i then 1 else lapla !!! (j*k + i)%nat).
Proof.
  intros HL Hla r. subst r. unfold reset.
  set (P := fun (m : nat) (s : list F * list F * nat * nat) =>
    length s.1.1.1 = (n*k)%nat /\ length s.1.1.2 = (k*l)%nat /\
    s.2 = dead_columns n L m /\
    s.1.2 = (rng + n * dead_columns n L m)%nat /\
    (forall i j, i < k -> j < n ->
       s.1.1.1 !!! (i*n + j)%nat =
         if bool_decide (i < m) && isZero n L i
         then rand_normal (rng + n * dead_columns n L i + j)
         else L !!! (i*n + j)%nat) /\
    (forall i j, i < k -> j < l ->
       s.1.1.2 !!! (j*k + i)%nat =
         if bool_decide (i < m) && isZero n L i then 1 else lapla !!! (j*k + i)%nat)).
  match goal with |- context [for_ k ?body ?s0] =>
    enough (HP : P k (for_ k body s0))
      by (destruct HP as (H1 & H2 & H3 & H4 & H5 & H6);
          split; [|split; [|split; [|split; [|split]]]]; auto;
          intros i j Hi Hj; [rewrite (H5 i j Hi Hj) | rewrite (H6 i j Hi Hj)];
          rewrite (bool_decide_eq_true_2 _ Hi); reflexivity);
    apply (for_ind P k body s0) end.
  - split; [|split; [|split; [|split; [|split]]]]; simpl; auto;
      try (unfold dead_columns; rewrite for_0; lia);
      intros i j Hi Hj; rewrite bool_decide_eq_false_2 by lia; reflexivity.
  - intros m [[[a b] g] c] Hm (Hl1 & Hl2 & Hc & Hg & HLs & Hlas); simpl in *.
    assert (Ez : isZero n a m = isZero n L m).
    { apply isZero_ext. intros j Hj. rewrite (HLs m j Hm Hj).
      rewrite bool_decide_eq_false_2 by lia. reflexivity. }
    rewrite Ez. unfold P. rewrite dead_columns_S.
    destruct (isZero n L m) eqn:Hz.
    + destruct (draw_column_spec n m a g) as (Hl1' & Hg' & Hset1 & Hother1).
      { intros j Hj. rewrite Hl1. pose proof (index_lt k n m j Hm Hj). lia. }
      destruct (for_ n _ (a, g)) as [a' g']. simpl in *.
      destruct (for_cells l (fun j => (j*k + m)%nat) (fun _ _ => 1) b)
        as (Hl2' & Hset2 & Hother2).
      { intros j Hj. rewrite Hl2. pose proof (index_lt l k j m Hj Hm). lia. }
      { intros j j' _ _ E. apply index_inj in E; [lia | assumption | assumption]. }
      split; [|split; [|split; [|split; [|split]]]]; simpl.
      * rewrite Hl1'. exact Hl1.
      * rewrite Hl2'. exact Hl2.
      * rewrite Hc. reflexivity.
      * rewrite Hg', Hg. lia.
      * intros i j Hi Hj. destruct (decide (i = m)) as [->|Hne].
        -- rewrite (Hset1 j Hj), Hz, Hg.
           rewrite bool_decide_eq_true_2 by lia. reflexivity.
        -- rewrite Hother1.
           ++ rewrite (HLs i j Hi Hj).
              destruct (decide (i < m)) as [Hlt|Hge].
              ** rewrite !bool_decide_eq_true_2 by lia. reflexivity.
              ** rewrite !bool_decide_eq_false_2 by lia. reflexivity.
           ++ intros j' Hj' E. apply index_inj in E; [lia | assumption | assumption].
      * intros i j Hi Hj. destruct (decide (i = m)) as [->|Hne].
        -- rewrite (Hset2 j Hj), Hz.
           rewrite bool_decide_eq_true_2 by lia. reflexivity.
        -- rewrite Hother2.
           ++ rewrite (Hlas i j Hi Hj).
              destruct (decide (i < m)) as [Hlt|Hge].
              ** rewrite !bool_decide_eq_true_2 by lia. reflexivity.
              ** rewrite !bool_decide_eq_false_2 by lia. reflexivity.
           ++ intros j' Hj' E. apply index_inj in E; [lia | assumption | assumption].
    + split; [|split; [|split; [|split; [|split]]]]; simpl; auto.
      * intros i j Hi Hj. rewrite (HLs i j Hi Hj).
        destruct (decide (i = m)) as [->|Hne].
        -- rewrite Hz, !andb_false_r. reflexivity.
        -- destruct (decide (i < m)) as [Hlt|Hge].
           ++ rewrite !bool_decide_eq_true_2 by lia. reflexivity.
           ++ rewrite !bool_decide_eq_false_2 by lia. reflexivity.
      * intros i j Hi Hj. rewrite (Hlas i j Hi Hj).
        destruct (decide (i = m)) as [->|Hne].
        -- rewrite Hz, !andb_false_r. reflexivity.
        -- destruct (decide (i < m)) as [Hlt|Hge].
           ++ rewrite !bool_decide_eq_true_2 by lia. reflexivity.
           ++ rewrite !bool_decide_eq_false_2 by lia. reflexivity.
Qed.

(** X9.  The reset of lines 281-298.  A column of L all of whose entries
    compare equal to 0 gets the next n values of rand_normal, in order,
    and its row of lapla becomes 1.0; every other column and row is kept.
    nreset is the number of such columns, and n values are drawn for each
    of them. *)
Theorem reset_columns (n k l : nat) (L lapla : list F) (rng : nat) :
  length L = (n*k)%nat -> length lapla = (k*l)%nat ->
  let r := reset n k l (L, lapla, rng, O) in
  length r.1.1.1 = (n*k)%nat /\ length r.1.1.2 = (k*l)%nat /\
  r.2 = dead_columns n L k /\
  r.1.2 = (rng + n * dead_columns n L k)%nat /\
  (forall i j, i < k -> j < n ->
     r.1.1.1 !!! (i*n + j)%nat =
       if isZero n L i then rand_normal (rng + n * dead_columns n L i + j)
       else L !!! (i*n + j)%nat) /\
  (forall i j, i < k -> j < l ->
     r.1.1.2 !!! (j*k + i)%nat =
       if isZero n L i then 1 else lapla !!! (j*k + i)%nat).
Proof. apply reset_spec. Qed.

(** X10.  When rand_normal never returns 0 (and n > 0), no column of L is
    all zero after the reset. *)
Theorem reset_revives (n k l : nat) (L lapla : list F) (rng : nat) :
  length L = (n*k)%nat -> length lapla = (k*l)%nat -> 0 < n ->
  (forall r, fne (rand_normal r) 0 = true) ->
  forall i, i < k -> isZero n (reset n k l (L, lapla, rng, O)).1.1.1 i = false.
Proof.
  intros HL Hla Hn Hdraw i Hi.
  destruct (reset_spec n k l L lapla rng HL Hla) as (_ & _ & _ & _ & Hcol & _).
  set (L' := (reset n k l (L, lapla, rng, O)).1.1.1) in *.
  destruct (isZero n L i) eqn:Hz.
  - destruct (isZero n L' i) eqn:Hz'; [exfalso | reflexivity].
    pose proof (proj1 (isZero_true n L' i) Hz' O Hn) as H0.
    rewrite (Hcol i O Hi Hn), Hz, Hdraw in H0. discriminate.
  - rewrite <- Hz. apply isZero_ext. intros j Hj.
    rewrite (Hcol i j Hi Hj), Hz. reflexivity.
Qed.

End Tail.

(** ** The loop over the samples *)

Section Samples.

Context {F : Type} {ops : FloatOps F} {ext : Externals F}.
Local Open Scope fl_scope.

(** The loop over the samples after its first m tasks: the task of
    sample j reads and writes the column j of Z and of lapla, whichever
    thread runs it. *)
Lemma estep_prefix (n k l nthreads : nat) (X LPsi LPsiL : list F) (spz lap : F)
    (acc : bool) (e : estep_bufs) (top : nat) :
  (top <= l)%nat ->
  (forall j, j < l -> omp_get_thread_num j < nthreads) ->
  length (e_Z e) = (k*l)%nat -> length (e_lapla e) = (k*l)%nat ->
  length (e_iLPsiL_ e) = (nthreads*k)%nat ->
  length (e_iLPsiLX_ e) = (nthreads*n*k)%nat ->
  let r := estep n k top X LPsi LPsiL spz lap acc e in
  let pm := fun j i => posterior_mean n k (slice (n*j) n X) LPsi LPsiL
                         (slice (j*k) k (e_lapla e)) i in
  length (e_Z r) = (k*l)%nat /\ length (e_lapla r) = (k*l)%nat /\
  length (e_iLPsiL_ r) = (nthreads*k)%nat /\
  length (e_iLPsiLX_ r) = (nthreads*n*k)%nat /\
  (forall j i, j < top -> i < k -> e_Z r !!! (j*k + i)%nat = pm j i) /\
  (forall j i, j < l -> i < k ->
     e_lapla r !!! (j*k + i)%nat =
       if acc && bool_decide (j < top)
       then variational spz lap
              (precision LPsiL (slice (j*k) k (e_lapla e)) i) (pm j i)
       else e_lapla e !!! (j*k + i)%nat).
Proof.
  intros Htop Htid HlZ Hll HliL HliX r pm. subst r. unfold estep.
  set (P := fun (m : nat) (r : estep_bufs) =>
    length (e_Z r) = (k*l)%nat /\ length (e_lapla r) = (k*l)%nat /\
    length (e_iLPsiL_ r) = (nthreads*k)%nat /\
    length (e_iLPsiLX_ r) = (nthreads*n*k)%nat /\
    (forall j i, j < m -> i < k -> e_Z r !!! (j*k + i)%nat = pm j i) /\
    (forall j i, j < l -> i < k ->
       e_lapla r !!! (j*k + i)%nat =
         if acc && bool_decide (j < m)
         then variational spz lap
                (precision LPsiL (slice (j*k) k (e_lapla e)) i) (pm j i)
         else e_lapla e !!! (j*k + i)%nat)).
  match goal with |- context [for_ top ?body e] =>
    enough (HP : P top (for_ top body e)) by exact HP;
    apply (for_ind P top body e) end.
  - split; [|split; [|split; [|split; [|split]]]]; auto; [intros; lia|].
    intros j i Hj Hi. rewrite bool_decide_eq_false_2, andb_false_r by lia. reflexivity.
  - intros m r Hm0 (HZ & Hl & HiL & HiX & Hdone & Hlap).
    assert (Hm : m < l) by lia.
    unfold estep_sample. cbv zeta.
    set (tid := omp_get_thread_num m).
    assert (Htm : tid < nthreads) by (apply Htid, Hm).
    assert (Hmk : (m*k + k <= k*l)%nat).
    { assert (S m * k <= l * k)%nat by (apply Nat.mul_le_mono_r; lia). lia. }
    assert (Htk : (tid*k + k <= nthreads*k)%nat).
    { assert (S tid * k <= nthreads * k)%nat by (apply Nat.mul_le_mono_r; lia). lia. }
    assert (Htnk : (tid*n*k + n*k <= nthreads*n*k)%nat).
    { assert (S tid * (n * k) <= nthreads * (n * k))%nat
        by (apply Nat.mul_le_mono_r; lia). lia. }
    set (b := KernelBufs _ _ _ _ _ _).
    assert (HbZ : length (k_z b) = k) by (apply length_slice; lia).
    assert (Hbl : length (k_lapla b) = k) by (apply length_slice; lia).
    assert (HbiL : length (k_iLPsiL b) = k) by (apply length_slice; lia).
    assert (HbiX : length (k_iLPsiLX b) = (n*k)%nat) by (apply length_slice; lia).
    destruct (estimateZ_spec n k (slice (n*m) n X) LPsi LPsiL spz lap b HbZ HbiL HbiX)
      as (_ & _ & _ & Hmean).
    pose proof (length_estimateZ n k (slice (n*m) n X) LPsi LPsiL spz lap b) as [HlZ' Hll'].
    pose proof (length_estimateZ_work n k (slice (n*m) n X) LPsi LPsiL spz lap b)
      as [HliL' HliX'].
    assert (Hcol : forall i, i < k -> k_lapla b !!! i = slice (m*k) k (e_lapla e) !!! i).
    { intros i Hi. unfold b. simpl. rewrite !lookup_total_slice by exact Hi.
      rewrite (Hlap m i Hm Hi), bool_decide_eq_false_2, andb_false_r by lia.
      reflexivity. }
    assert (Hpm : forall i, i < k ->
      posterior_mean n k (slice (n*m) n X) LPsi LPsiL (k_lapla b) i = pm m i).
    { intros i Hi. unfold pm. apply posterior_mean_ext; [apply Hcol, Hi | reflexivity]. }
    assert (Hvar : acc = true -> forall i, i < k ->
      k_lapla (approx_estimateZ n k (slice (n*m) n X) LPsi LPsiL spz lap b) !!! i =
      variational spz lap (precision LPsiL (slice (m*k) k (e_lapla e)) i) (pm m i)).
    { intros -> i Hi.
      destruct (variational_spec n k (slice (n*m) n X) LPsi LPsiL spz lap b
        ltac:(simpl; eauto) ltac:(simpl; eauto) HbZ Hbl HbiL HbiX i Hi) as [_ ->].
      rewrite (Hpm i Hi). unfold precision. rewrite (Hcol i Hi). reflexivity. }
    assert (Hnull : acc = false ->
      k_lapla (approx_estimateZ n k (slice (n*m) n X) LPsi LPsiL spz lap b) = k_lapla b).
    { intros ->. apply estimateZ_null. left. reflexivity. }
    set (b' := approx_estimateZ _ _ _ _ _ _ _ b) in *.
    split; [|split; [|split; [|split; [|split]]]]; cbn [e_Z e_lapla e_iLPsiL_ e_iLPsiLX_].
    + rewrite (length_splice_slice _ k) by (rewrite HlZ'; reflexivity). exact HZ.
    + rewrite (length_splice_slice _ k) by (rewrite Hll'; reflexivity). exact Hl.
    + rewrite (length_splice_slice _ k) by (rewrite HliL'; reflexivity). exact HiL.
    + rewrite (length_splice_slice _ (n*k)) by (rewrite HliX'; reflexivity). exact HiX.
    + intros j i Hj Hi.
      rewrite lookup_total_splice by (rewrite HlZ', HbZ, HZ; lia).
      rewrite HlZ', HbZ.
      destruct (decide (j = m)) as [->|Hne].
      * rewrite decide_True by lia.
        replace (m*k + i - m*k)%nat with i by lia.
        rewrite (Hmean i Hi). apply Hpm, Hi.
      * rewrite decide_False.
        -- apply Hdone; [lia | exact Hi].
        -- assert (S j * k <= m * k)%nat by (apply Nat.mul_le_mono_r; lia). lia.
    + intros j i Hj Hi.
      rewrite lookup_total_splice by (rewrite Hll', Hbl, Hl; lia).
      rewrite Hll', Hbl.
      destruct (decide (j = m)) as [->|Hne].
      * rewrite decide_True by lia.
        replace (m*k + i - m*k)%nat with i by lia.
        rewrite bool_decide_eq_true_2, andb_true_r by lia.
        destruct acc.
        -- apply Hvar; [reflexivity | exact Hi].
        -- rewrite (Hnull eq_refl). rewrite (Hcol i Hi).
           apply lookup_total_slice, Hi.
      * rewrite decide_False.
        -- rewrite (Hlap j i Hj Hi).
           destruct (decide (j < m)) as [Hlt|Hge].
           ++ rewrite !bool_decide_eq_true_2 by lia. reflexivity.
           ++ rewrite !bool_decide_eq_false_2 by lia. reflexivity.
        -- destruct (Nat.lt_trichotomy j m) as [Hlt|[->|Hgt]]; [|lia|].
           ++ assert (S j * k <= m * k)%nat by (apply Nat.mul_le_mono_r; lia). lia.
           ++ assert (S m * k <= j * k)%nat by (apply Nat.mul_le_mono_r; lia). lia.
Qed.

Lemma estep_spec (n k l nthreads : nat) (X LPsi LPsiL : list F) (spz lap : F)
    (acc : bool) (e : estep_bufs) :
  (forall j, j < l -> omp_get_thread_num j < nthreads) ->
  length (e_Z e) = (k*l)%nat -> length (e_lapla e) = (k*l)%nat ->
  length (e_iLPsiL_ e) = (nthreads*k)%nat ->
  length (e_iLPsiLX_ e) = (nthreads*n*k)%nat ->
  let e' := estep n k l X LPsi LPsiL spz lap acc e in
  forall j i, j < l -> i < k ->
    let lap_j := slice (j*k) k (e_lapla e) in
    let z := posterior_mean n k (slice (n*j) n X) LPsi LPsiL lap_j i in
    e_Z e' !!! (j*k + i)%nat = z /\
    e_lapla e' !!! (j*k + i)%nat =
      if acc then variational spz lap (precision LPsiL lap_j i) z
      else e_lapla e !!! (j*k + i)%nat.
Proof.
  intros Htid HlZ Hll HliL HliX e' j i Hj Hi. cbv zeta.
  destruct (estep_prefix n k l nthreads X LPsi LPsiL spz lap acc e l (le_n l)
    Htid HlZ Hll HliL HliX) as (_ & _ & _ & _ & H5 & H6).
  split; [apply H5; assumption|]. unfold e'. rewrite (H6 j i Hj Hi).
  rewrite (bool_decide_eq_true_2 _ Hj), andb_true_r. reflexivity.
Qed.

(** The kernel on the sample j with the LPsi and LPsiL of the prelude. *)
Lemma posterior_expected (n k : nat) (X L Psi lapla LPsi LPsiL : list F) (j i : nat) :
  length LPsi = (n*k)%nat -> length LPsiL = k -> i < k ->
  let lp := prelude n k L Psi (LPsi, LPsiL) in
  precision lp.2 (slice (j*k) k lapla) i = sample_precision n k L Psi lapla j i /\
  posterior_mean n k (slice (n*j) n X) lp.1 lp.2 (slice (j*k) k lapla) i =
    expected_z n k X L Psi lapla j i.
Proof.
  intros Ha Hb Hi lp.
  destruct (prelude_spec n k L Psi LPsi LPsiL Ha Hb) as (_ & _ & HLPsi & HLPsiL).
  fold lp in HLPsi, HLPsiL.
  assert (Hp : precision lp.2 (slice (j*k) k lapla) i =
               sample_precision n k L Psi lapla j i).
  { unfold precision, sample_precision.
    rewrite (HLPsiL i Hi), lookup_total_slice by exact Hi. reflexivity. }
  split; [exact Hp|].
  unfold posterior_mean, expected_z. apply for_ext. intros i2 acc Hi2.
  rewrite Hp, (HLPsi i i2 Hi Hi2), lookup_total_slice by exact Hi2. reflexivity.
Qed.

(** X11.  The E-step of an iteration (lines 175-200), whichever thread
    runs which sample: Z[j,i] becomes E(z|x_j) for the factor i under L,
    Psi and the lapla of entry, and lapla[j,i] the variational parameter
    of lines 88-91 for it.  Neither depends on what Z and the scratch
    arrays held. *)
Theorem estep_phase_update (p : params) (st : state) :
  (forall j, j < p_l p -> omp_get_thread_num j < p_nthreads p) ->
  length (st_Z st) = (p_k p * p_l p)%nat ->
  length (st_lapla st) = (p_k p * p_l p)%nat ->
  length (st_LPsi st) = (p_n p * p_k p)%nat ->
  length (st_LPsiL st) = p_k p ->
  length (st_iLPsiL_ st) = (p_nthreads p * p_k p)%nat ->
  length (st_iLPsiLX_ st) = (p_nthreads p * p_n p * p_k p)%nat ->
  forall j i, j < p_l p -> i < p_k p ->
    let z := expected_z (p_n p) (p_k p) (p_X p) (st_L st) (st_Psi st) (st_lapla st) j i in
    st_Z (estep_phase p st) !!! (j * p_k p + i)%nat = z /\
    st_lapla (estep_phase p st) !!! (j * p_k p + i)%nat =
      variational (p_spz p) (p_lap p)
        (sample_precision (p_n p) (p_k p) (st_L st) (st_Psi st) (st_lapla st) j i) z.
Proof.
  intros Htid HZ Hl HLPsi HLPsiL HiL HiX j i Hj Hi z. subst z.
  pose proof (posterior_expected (p_n p) (p_k p) (p_X p) (st_L st) (st_Psi st)
    (st_lapla st) (st_LPsi st) (st_LPsiL st) j i HLPsi HLPsiL Hi) as [Hp Hz].
  unfold estep_phase.
  destruct (prelude _ _ _ _ _) as [LPsi LPsiL]. simpl in Hp, Hz. simpl.
  match goal with |- context [estep ?n ?k ?l ?X LPsi LPsiL ?spz ?lap true ?e] =>
    destruct (estep_spec n k l (p_nthreads p) X LPsi LPsiL spz lap true e
      Htid HZ Hl HiL HiX j i Hj Hi) as [E1 E2] end.
  simpl in E1, E2. rewrite E1, E2, Hp, Hz. auto.
Qed.

Lemma final_pass_spec (p : params) (ok : bool) (st : state) (r : result) :
  (forall j, j < p_l p -> omp_get_thread_num j < p_nthreads p) ->
  length (st_Z st) = (p_k p * p_l p)%nat ->
  length (st_lapla st) = (p_k p * p_l p)%nat ->
  length (st_LPsi st) = (p_n p * p_k p)%nat ->
  length (st_LPsiL st) = p_k p ->
  length (st_iLPsiL_ st) = (p_nthreads p * p_k p)%nat ->
  length (st_iLPsiLX_ st) = (p_nthreads p * p_n p * p_k p)%nat ->
  last_update p ok st = Returned r ->
  (fge (st_t st) (p_eps p) = true ->
     forall j i, j < p_l p -> i < p_k p ->
       r_Z r !!! (j * p_k p + i)%nat =
         expected_z (p_n p) (p_k p) (p_X p) (r_L r) (r_Psi r) (r_lapla r) j i) /\
  (fge (st_t st) (p_eps p) = false -> r_Z r = replicate (p_k p * p_l p) 0).
Proof.
  intros Htid HZ Hl HLPsi HLPsiL HiL HiX E.
  destruct (last_update_frame p ok st r E) as (-> & -> & -> & _).
  unfold last_update in E. split; intros Hge; rewrite Hge in E.
  - intros j i Hj Hi. destruct ok; simpl in E; [|discriminate].
    pose proof (posterior_expected (p_n p) (p_k p) (p_X p) (st_L st) (st_Psi st)
      (st_lapla st) (st_LPsi st) (st_LPsiL st) j i HLPsi HLPsiL Hi) as [_ Hz].
    destruct (prelude _ _ _ _ _) as [LPsi LPsiL]. simpl in Hz.
    injection E as <-. simpl.
    match goal with |- context [estep ?n ?k ?l ?X LPsi LPsiL ?spz ?lap false ?e] =>
      destruct (estep_spec n k l (p_nthreads p) X LPsi LPsiL spz lap false e
        Htid HZ Hl HiL HiX j i Hj Hi) as [E1 _] end.
    simpl in E1. rewrite E1. exact Hz.
  - injection E as <-. simpl. apply memset0_all. lia.
Qed.

(** X12.  The pass after the loop (lines 309-328).  When t >= eps the Z
    that the engine returns is E(z|x_j) under the L, Psi and lapla
    returned with it; otherwise Z is zero everywhere. *)
Theorem final_pass_Z (p : params) (ok : bool) (st : state) (r : result) :
  (forall j, j < p_l p -> omp_get_thread_num j < p_nthreads p) ->
  length (st_Z st) = (p_k p * p_l p)%nat ->
  length (st_lapla st) = (p_k p * p_l p)%nat ->
  length (st_LPsi st) = (p_n p * p_k p)%nat ->
  length (st_LPsiL st) = p_k p ->
  length (st_iLPsiL_ st) = (p_nthreads p * p_k p)%nat ->
  length (st_iLPsiLX_ st) = (p_nthreads p * p_n p * p_k p)%nat ->
  last_update p ok st = Returned r ->
  (fge (st_t st) (p_eps p) = true ->
     forall j i, j < p_l p -> i < p_k p ->
       r_Z r !!! (j * p_k p + i)%nat =
         expected_z (p_n p) (p_k p) (p_X p) (r_L r) (r_Psi r) (r_lapla r) j i) /\
  (fge (st_t st) (p_eps p) = false -> r_Z r = replicate (p_k p * p_l p) 0).
Proof. apply final_pass_spec. Qed.

(** *** The M-step *)

(** X13.  The M-step (lines 213-250): sum2 becomes what [invertCholesky]
    returns, L[i1,i2] the shrunk entry (i1,i2) of sum1 * sum2 (the old L
    is not read), Psi and t are computed from this new L, and Z and lapla
    are not written. *)
Theorem mstep_update (p : params) (st st' : state) :
  length (st_Psi st) = p_n p -> length (st_L st) = (p_n p * p_k p)%nat ->
  mstep_phase p st = Returned st' ->
  invertCholesky (st_sum2_ st) (p_k p) = Returned (st_sum2_ st') /\
  (forall i1 i2, i1 < p_n p -> i2 < p_k p ->
     st_L st' !!! (i1 + i2 * p_n p)%nat =
       shrink_entry (st_Psi st !!! i1) (p_alpha p) (p_spl p)
         (gemm_entry (p_n p) (p_k p) (st_sum1_ st) (st_sum2_ st') i1 i2)) /\
  (forall i1, i1 < p_n p ->
     st_Psi st' !!! i1 =
       new_Psi (p_n p) (p_k p) (p_l p) (st_L st') (st_sum1_ st) (p_XX p) (p_eps p) i1) /\
  st_t st' = max_abs_residual (p_n p) (p_k p) (st_L st') (st_sum1_ st) /\
  st_Z st' = st_Z st /\ st_lapla st' = st_lapla st.
Proof.
  intros HPsi HL E.
  destruct (mstep_phase_inv p st st' E) as (Hinv & EPsi & Et & EL & EZ & Ela & _).
  destruct (gemm_spec (p_n p) (p_k p) (st_sum1_ st) (st_sum2_ st') (st_L st) HL)
    as [Hlg Hg].
  destruct (shrink_spec (p_n p) (p_k p) (st_Psi st) (p_alpha p) (p_spl p) _ Hlg)
    as [_ Hs].
  rewrite <- EL in EPsi, Et.
  destruct (update_Psi_spec (p_n p) (p_k p) (p_l p) (st_L st') (st_sum1_ st) (p_XX p)
    (p_eps p) (st_Psi st) HPsi) as (_ & HP & Ht).
  split; [exact Hinv|]. split; [|split; [|split; [|split]]].
  - intros i1 i2 H1 H2. rewrite EL.
    replace (i1 + i2 * p_n p)%nat with (i1 + p_n p * i2)%nat by lia.
    rewrite (Hs i1 i2 H1 H2).
    replace (i1 + p_n p * i2)%nat with (i1 + i2 * p_n p)%nat by lia.
    rewrite (Hg i1 i2 H1 H2). reflexivity.
  - intros i1 H1. rewrite EPsi. apply HP, H1.
  - rewrite Et. exact Ht.
  - exact EZ.
  - exact Ela.
Qed.

(** *** The accumulators of the threads *)

Lemma buffer_range (len tid tid' c : nat) :
  c < len ->
  (tid*len <= tid'*len + c < tid*len + len)%nat <-> tid' = tid.
Proof.
  intros Hc. split; [|intros ->; lia].
  intros [H1 H2]. destruct (Nat.lt_trichotomy tid' tid) as [Hlt|[->|Hgt]];
    [exfalso | reflexivity | exfalso].
  - assert (S tid' * len <= tid * len)%nat by (apply Nat.mul_le_mono_r; lia). lia.
  - assert (S tid * len <= tid' * len)%nat by (apply Nat.mul_le_mono_r; lia). lia.
Qed.

(** The task of one sample adds x z' to the buffer of its thread. *)
Lemma estep_sample_sum1 (n k l nthreads : nat) (X LPsi LPsiL : list F)
    (spz lap : F) (j : nat) (e : estep_bufs) :
  j < l -> omp_get_thread_num j < nthreads ->
  length (e_Z e) = (k*l)%nat -> length (e_lapla e) = (k*l)%nat ->
  length (e_iLPsiL_ e) = (nthreads*k)%nat ->
  length (e_iLPsiLX_ e) = (nthreads*n*k)%nat ->
  (nthreads*(n*k) <= length (e_sum1_ e))%nat ->
  let e' := estep_sample n k X LPsi LPsiL spz lap true j e in
  length (e_sum1_ e') = length (e_sum1_ e) /\
  forall tid i jj, tid < nthreads -> i < n -> jj < k ->
    e_sum1_ e' !!! (tid*(n*k) + (i + jj*n))%nat =
      if decide (omp_get_thread_num j = tid)
      then e_sum1_ e !!! (tid*(n*k) + (i + jj*n))%nat +
           X !!! (n*j + i)%nat *
           posterior_mean n k (slice (n*j) n X) LPsi LPsiL
             (slice (j*k) k (e_lapla e)) jj
      else e_sum1_ e !!! (tid*(n*k) + (i + jj*n))%nat.
Proof.
  intros Hj Htid HZ Hl HiL HiX Hs1 e'. subst e'. unfold estep_sample. cbv zeta.
  set (t := omp_get_thread_num j) in *.
  assert (Hjk : (j*k + k <= k*l)%nat).
  { assert (S j * k <= l * k)%nat by (apply Nat.mul_le_mono_r; lia). lia. }
  assert (Htk : (t*k + k <= nthreads*k)%nat).
  { assert (S t * k <= nthreads * k)%nat by (apply Nat.mul_le_mono_r; lia). lia. }
  assert (Htnk : (t*(n*k) + n*k <= nthreads*(n*k))%nat).
  { assert (S t * (n * k) <= nthreads * (n * k))%nat
      by (apply Nat.mul_le_mono_r; lia). lia. }
  assert (Eoff : (t*n*k = t*(n*k))%nat) by lia.
  rewrite !Eoff.
  set (b := KernelBufs _ _ _ _ _ _).
  assert (HbZ : length (k_z b) = k) by (apply length_slice; lia).
  assert (HbiL : length (k_iLPsiL b) = k) by (apply length_slice; lia).
  assert (HbiX : length (k_iLPsiLX b) = (n*k)%nat) by (apply length_slice; lia).
  assert (Hbs1 : length (slice (t*(n*k)) (n*k) (e_sum1_ e)) = (n*k)%nat)
    by (apply length_slice; lia).
  destruct (estimateZ_spec n k (slice (n*j) n X) LPsi LPsiL spz lap b HbZ HbiL HbiX)
    as (_ & _ & _ & Hmean).
  rewrite (estimateZ_sum1_ger n k (slice (n*j) n X) LPsi LPsiL spz lap b _ _
             eq_refl eq_refl).
  set (b' := approx_estimateZ _ _ _ _ _ _ _ b) in *.
  destruct (ger_spec n k (slice (n*j) n X) (k_z b') _ Hbs1) as [Hlg Hg].
  cbn [e_sum1_]. split.
  - apply length_splice. rewrite Hlg. lia.
  - intros tid i jj Ht Hi Hjj.
    pose proof (cm_lt n k i jj Hi Hjj) as Hc.
    rewrite lookup_total_splice by (rewrite Hlg; lia).
    rewrite Hlg.
    destruct (decide (t = tid)) as [<-|Hne].
    + rewrite decide_True by lia.
      replace (t*(n*k) + (i + jj*n) - t*(n*k))%nat with (i + jj*n)%nat by lia.
      rewrite (Hg i jj Hi Hjj), (Hmean jj Hjj).
      rewrite !lookup_total_slice by assumption. reflexivity.
    + rewrite decide_False; [reflexivity|].
      intros Hr. apply Hne. symmetry.
      apply (buffer_range (n*k) t tid (i + jj*n) Hc). exact Hr.
Qed.

(** The task of one sample adds z z' + diag(iLPsiL) to the buffer of its
    thread. *)
Lemma estep_sample_sum2 (n k l nthreads : nat) (X LPsi LPsiL : list F)
    (spz lap : F) (j : nat) (e : estep_bufs) :
  j < l -> omp_get_thread_num j < nthreads ->
  length (e_Z e) = (k*l)%nat -> length (e_lapla e) = (k*l)%nat ->
  length (e_iLPsiL_ e) = (nthreads*k)%nat ->
  length (e_iLPsiLX_ e) = (nthreads*n*k)%nat ->
  (nthreads*(k*k) <= length (e_sum2_ e))%nat ->
  let e' := estep_sample n k X LPsi LPsiL spz lap true j e in
  let lap_j := slice (j*k) k (e_lapla e) in
  let z := posterior_mean n k (slice (n*j) n X) LPsi LPsiL lap_j in
  length (e_sum2_ e') = length (e_sum2_ e) /\
  forall tid i jj, tid < nthreads -> i < k -> jj < k ->
    e_sum2_ e' !!! (tid*(k*k) + (i*k + jj))%nat =
      if decide (omp_get_thread_num j = tid)
      then accumulated (fun a b => e_sum2_ e !!! (tid*(k*k) + (a*k + b))%nat)
             z (precision LPsiL lap_j) i jj
      else e_sum2_ e !!! (tid*(k*k) + (i*k + jj))%nat.
Proof.
  intros Hj Htid HZ Hl HiL HiX Hs2 e' lap_j z. subst e'. unfold estep_sample. cbv zeta.
  set (t := omp_get_thread_num j) in *.
  assert (Hjk : (j*k + k <= k*l)%nat).
  { assert (S j * k <= l * k)%nat by (apply Nat.mul_le_mono_r; lia). lia. }
  assert (Htk : (t*k + k <= nthreads*k)%nat).
  { assert (S t * k <= nthreads * k)%nat by (apply Nat.mul_le_mono_r; lia). lia. }
  assert (Htnk : (t*(n*k) + n*k <= nthreads*(n*k))%nat).
  { assert (S t * (n * k) <= nthreads * (n * k))%nat
      by (apply Nat.mul_le_mono_r; lia). lia. }
  assert (Htkk : (t*(k*k) + k*k <= nthreads*(k*k))%nat).
  { assert (S t * (k * k) <= nthreads * (k * k))%nat
      by (apply Nat.mul_le_mono_r; lia). lia. }
  assert (Eoff : (t*k*k = t*(k*k))%nat) by lia.
  rewrite !Eoff.
  set (b := KernelBufs _ _ _ _ _ _).
  assert (HbZ : length (k_z b) = k) by (apply length_slice; lia).
  assert (HbiL : length (k_iLPsiL b) = k) by (apply length_slice; lia).
  assert (HbiX : length (k_iLPsiLX b) = (n*k)%nat) by (apply length_slice; lia).
  assert (Hbs2 : length (slice (t*(k*k)) (k*k) (e_sum2_ e)) = (k*k)%nat)
    by (apply length_slice; lia).
  destruct (estimateZ_spec n k (slice (n*j) n X) LPsi LPsiL spz lap b HbZ HbiL HbiX)
    as (_ & _ & _ & Hmean).
  destruct (estimateZ_accum n k (slice (n*j) n X) LPsi LPsiL spz lap b
              _ _ eq_refl eq_refl Hbs2 HbiL HbZ) as (s2' & Es2 & Hls2' & _ & Hacc).
  set (b' := approx_estimateZ _ _ _ _ _ _ _ b) in *.
  rewrite Es2. cbn [e_sum2_]. split.
  - apply length_splice. rewrite Hls2'. lia.
  - intros tid i jj Ht Hi Hjj.
    pose proof (index_lt k k i jj Hi Hjj) as Hc.
    rewrite lookup_total_splice by (rewrite Hls2'; lia).
    rewrite Hls2'.
    destruct (decide (t = tid)) as [<-|Hne].
    + rewrite decide_True by lia.
      replace (t*(k*k) + (i*k + jj) - t*(k*k))%nat with (i*k + jj)%nat by lia.
      rewrite (Hacc i jj Hi Hjj). unfold accumulated, entries.
      rewrite (Hmean i Hi), (Hmean jj Hjj).
      rewrite lookup_total_slice by exact Hc. reflexivity.
    + rewrite decide_False; [reflexivity|].
      intros Hr. apply Hne. symmetry.
      apply (buffer_range (k*k) t tid (i*k + jj) Hc). exact Hr.
Qed.

Lemma estep_succ (n k m : nat) (X LPsi LPsiL : list F) (spz lap : F)
    (acc : bool) (e : estep_bufs) :
  estep n k (S m) X LPsi LPsiL spz lap acc e =
  estep_sample n k X LPsi LPsiL spz lap acc m (estep n k m X LPsi LPsiL spz lap acc e).
Proof. unfold estep. apply for_S. Qed.

Lemma thread_sum_S (m tid : nat) (g : nat -> F) (init : F) :
  thread_sum (S m) tid g init =
  if decide (omp_get_thread_num m = tid)
  then thread_sum m tid g init + g m else thread_sum m tid g init.
Proof. unfold thread_sum. rewrite for_S. reflexivity. Qed.

(** The buffers of sum1_ after the tasks of the first [top] samples. *)
Lemma estep_sum1_spec (n k l nthreads : nat) (X LPsi LPsiL : list F)
    (spz lap : F) (e : estep_bufs) (top : nat) :
  (top <= l)%nat ->
  (forall j, j < l -> omp_get_thread_num j < nthreads) ->
  length (e_Z e) = (k*l)%nat -> length (e_lapla e) = (k*l)%nat ->
  length (e_iLPsiL_ e) = (nthreads*k)%nat ->
  length (e_iLPsiLX_ e) = (nthreads*n*k)%nat ->
  (nthreads*(n*k) <= length (e_sum1_ e))%nat ->
  let r := estep n k top X LPsi LPsiL spz lap true e in
  length (e_sum1_ r) = length (e_sum1_ e) /\
  forall tid i jj, tid < nthreads -> i < n -> jj < k ->
    e_sum1_ r !!! (tid*(n*k) + (i + jj*n))%nat =
      thread_sum top tid
        (fun j => X !!! (n*j + i)%nat *
           posterior_mean n k (slice (n*j) n X) LPsi LPsiL
             (slice (j*k) k (e_lapla e)) jj)
        (e_sum1_ e !!! (tid*(n*k) + (i + jj*n))%nat).
Proof.
  intros Htop Htid HZ Hl HiL HiX Hs1. cbv zeta.
  induction top as [|m IH].
  - split; [reflexivity|]. intros. reflexivity.
  - destruct (IH ltac:(lia)) as [IHl IHc]. clear IH.
    destruct (estep_prefix n k l nthreads X LPsi LPsiL spz lap true e m ltac:(lia)
      Htid HZ Hl HiL HiX) as (HZ' & Hl' & HiL' & HiX' & _ & Hlap).
    rewrite estep_succ.
    set (r := estep n k m X LPsi LPsiL spz lap true e) in *.
    destruct (estep_sample_sum1 n k l nthreads X LPsi LPsiL spz lap m r
      ltac:(lia) (Htid m ltac:(lia)) HZ' Hl' HiL' HiX' ltac:(rewrite IHl; exact Hs1))
      as [Hlen Hcell].
    split; [rewrite Hlen; exact IHl|].
    intros tid i jj Ht Hi Hjj.
    rewrite (Hcell tid i jj Ht Hi Hjj), thread_sum_S, (IHc tid i jj Ht Hi Hjj).
    case_decide; [|reflexivity]. do 2 f_equal.
    apply posterior_mean_ext; [|reflexivity].
    rewrite !lookup_total_slice by exact Hjj.
    rewrite (Hlap m jj ltac:(lia) Hjj).
    rewrite bool_decide_eq_false_2 by lia. reflexivity.
Qed.

End Samples.

(** ** The engine: output, sizes, allocations *)

Section EngineRuns.

Context {F : Type} {ops : FloatOps F} {ext : Externals F}.
Local Open Scope fl_scope.

(** *** The output *)
Lemma loop_event_mono (k : nat) (eps : F) (verbose lo hi lo' hi' : Z) (e : event) :
  (lo' <= lo)%Z -> (hi <= hi')%Z ->
  loop_event k eps verbose lo hi e -> loop_event k eps verbose lo' hi' e.
Proof. intros Hlo Hhi. destruct e; simpl; intuition lia. Qed.

Lemma loop_event_range (k : nat) (eps : F) (verbose lo hi : Z) (e : event) :
  loop_event k eps verbose lo hi e -> (lo <= hi)%Z.
Proof. destruct e; simpl; intuition lia. Qed.

Lemma reset_count_le (n k l : nat) (L lapla : list F) (rng : nat) :
  (reset n k l (L, lapla, rng, O)).2 <= k.
Proof.
  unfold reset.
  apply (for_ind (fun m (s : list F * list F * nat * nat) => s.2 <= m));
    [simpl; lia|].
  intros i [[[a b] g] c] _ Hc; simpl in *.
  destruct (isZero n a i); [|simpl; lia].
  destruct (for_ n _ (a, g)) as [a' g']. simpl. lia.
Qed.

Lemma tail_phase_out (p : params) (iter : Z) (st : state) :
  exists evs, st_out (tail_phase p iter st) = st_out st ++ evs /\
    Forall (loop_event (p_k p) (p_eps p) (p_verbose p) iter iter) evs.
Proof.
  unfold tail_phase.
  destruct (if negb (p_scale p =? 0)%Z then _ else _) as [L lapla].
  pose proof (reset_count_le (p_n p) (p_k p) (p_l p) L lapla (st_rng st)) as Hle.
  destruct (reset _ _ _ _) as [[[L' lapla'] rng] nreset]. simpl in *.
  eexists. split; [reflexivity|].
  apply Forall_app. split.
  - destruct (Nat.eqb_spec nreset 0) as [->|Hne]; simpl; [constructor|].
    constructor; [|constructor]. simpl. lia.
  - destruct (Z.eqb_spec (p_verbose p) 0) as [E|Hne]; simpl; [constructor|].
    destruct (Z.eqb_spec (Z.rem iter (p_verbose p)) 0) as [E|Hne']; [|constructor].
    constructor; [|constructor]. simpl. split; [exact Hne|]. split; [exact E | lia].
Qed.

Lemma em_iteration_out (p : params) (ok : bool) (iter : Z) (st st' : state)
    (fl : flow) :
  em_iteration p ok iter st = Returned (st', fl) ->
  exists evs, st_out st' = st_out st ++ evs /\
    Forall (loop_event (p_k p) (p_eps p) (p_verbose p) iter iter) evs.
Proof.
  intros E. destruct (em_iteration_inv p ok iter st st' fl E) as (st1 & Hm & Hcase).
  destruct (estep_phase_frame p st) as (_ & _ & _ & _ & _ & _ & Hout).
  destruct (mstep_phase_inv p _ st1 Hm) as (_ & _ & _ & _ & _ & _ & _ & _ & Eout).
  rewrite Hout in Eout.
  destruct Hcase as [(Hlt & _ & ->) | (_ & _ & ->)].
  - simpl. rewrite Eout. eexists. split; [reflexivity|].
    constructor; [|constructor]. simpl. split; [reflexivity|]. split; [exact Hlt | lia].
  - rewrite <- Eout. apply tail_phase_out.
Qed.

Lemma em_loop_out (p : params) (ok : bool) (fuel : nat) (iter : Z)
    (st st' : state) :
  em_loop p ok fuel iter st = Returned st' ->
  exists evs, st_out st' = st_out st ++ evs /\
    Forall (loop_event (p_k p) (p_eps p) (p_verbose p) iter
              (iter + Z.of_nat fuel - 1)) evs.
Proof.
  revert iter st. induction fuel as [|fuel IH]; intros iter st E.
  - simpl in E. injection E as <-. exists []. rewrite app_nil_r. split; [reflexivity|constructor].
  - simpl in E.
    destruct (em_iteration p ok iter st) as [[st1 fl]| |] eqn:Eit;
      [|discriminate|discriminate].
    destruct (em_iteration_out p ok iter st st1 fl Eit) as (evs1 & E1 & H1).
    assert (H1' : Forall (loop_event (p_k p) (p_eps p) (p_verbose p) iter
                            (iter + Z.of_nat (S fuel) - 1)) evs1).
    { eapply Forall_impl; [exact H1|]. intros e. apply loop_event_mono; lia. }
    destruct fl.
    + destruct (IH _ _ E) as (evs2 & E2 & H2).
      exists (evs1 ++ evs2). split; [rewrite E2, E1, app_assoc; reflexivity|].
      apply Forall_app. split; [exact H1'|].
      eapply Forall_impl; [exact H2|]. intros e. apply loop_event_mono; lia.
    + injection E as <-. exists evs1. split; assumption.
Qed.

(** X14.  What the engine prints and calls.  On the out-of-memory return,
    that message only.  Otherwise the events of the loop followed by the
    timing report: every call of updateUI is at an iteration that verbose
    divides (so there is none with verbose = 0), every reset message
    counts between 1 and k columns, the bail-out message carries t < eps,
    every iteration named lies between 1 and cyc, and with cyc <= 0
    nothing precedes the timing report. *)
Theorem engine_output (k n l : nat) (X Psi L Zs lapla : list F)
    (cyc : Z) (alpha eps spl spz : F) (scale : Z) (lap : F) (verbose : Z)
    (nthreads : nat) (m : allocation) (r : result) :
  approx_fabia_cm_f k n l X Psi L Zs lapla cyc alpha eps spl spz scale lap
    verbose nthreads m = Returned r ->
  (a_iLPsiLX_ m = None -> r_out r = [Out_of_memory]) /\
  (a_iLPsiLX_ m <> None ->
     exists evs, r_out r = evs ++ [Timing_report] /\
       Forall (loop_event k eps verbose 1 cyc) evs /\
       (verbose = 0%Z -> forall iter, ~ elem_of (UpdateUI iter) evs) /\
       ((cyc <= 0)%Z -> evs = [])).
Proof.
  unfold approx_fabia_cm_f. intros E.
  destruct (a_iLPsiLX_ m) as [iLPsiLX_|].
  - split; [discriminate|]. intros _.
    destruct (a_XX m) as [XX|]; [|discriminate].
    destruct (a_iLPsiL_ m) as [iLPsiL_|]; [|discriminate].
    set (p := start_params k n l X cyc alpha eps spl spz scale lap verbose
                nthreads XX) in *.
    destruct (em_loop p _ _ _ _) as [st| |] eqn:Eloop; [|discriminate|discriminate].
    destruct (em_loop_out p _ _ _ _ _ Eloop) as (evs & Eout & Hevs).
    destruct (last_update_frame _ _ _ _ E) as (_ & _ & _ & ->).
    simpl in Eout, Hevs. rewrite Eout. exists evs.
    assert (Hnil : (cyc <= 0)%Z -> evs = []).
    { intros Hcyc. destruct evs as [|e evs']; [reflexivity|].
      apply Forall_cons in Hevs as [He _]. apply loop_event_range in He. lia. }
    assert (Hevs' : Forall (loop_event k eps verbose 1 cyc) evs).
    { destruct (Z_le_gt_dec cyc 0) as [Hle|Hgt]; [rewrite (Hnil Hle); constructor|].
      eapply Forall_impl; [exact Hevs|]. intros e. apply loop_event_mono; lia. }
    split; [reflexivity|]. split; [exact Hevs'|]. split; [|exact Hnil].
    intros Hv iter Hin. rewrite Forall_forall in Hevs'.
    destruct (Hevs' _ Hin) as [Hne _]. exact (Hne Hv).
  - injection E as <-. split; [reflexivity | congruence].
Qed.

(** *** The sizes of the arrays *)
Lemma shrink_length (n k : nat) (Psi : list F) (alpha spl : F) (L : list F) :
  length L = (n*k)%nat -> length (shrink n k Psi alpha spl L) = (n*k)%nat.
Proof. intros H. apply (shrink_spec n k Psi alpha spl L H). Qed.

Lemma tail_phase_sized (p : params) (iter : Z) (st : state) :
  length (st_L st) = (p_n p * p_k p)%nat ->
  length (st_lapla st) = (p_k p * p_l p)%nat ->
  length (st_L (tail_phase p iter st)) = (p_n p * p_k p)%nat /\
  length (st_lapla (tail_phase p iter st)) = (p_k p * p_l p)%nat.
Proof.
  intros HL Hla. unfold tail_phase.
  assert (Hr : forall s : list F * list F,
    s = (if negb (p_scale p =? 0)%Z
         then rescale (p_n p) (p_k p) (p_l p) (p_spz p) (st_L st, st_lapla st)
         else (st_L st, st_lapla st)) ->
    length s.1 = (p_n p * p_k p)%nat /\ length s.2 = (p_k p * p_l p)%nat).
  { intros s ->. destruct (negb (p_scale p =? 0)%Z).
    - destruct (rescale_spec (p_n p) (p_k p) (p_l p) (p_spz p) _ _ HL Hla)
        as (H1 & H2 & _). auto.
    - auto. }
  destruct (if negb (p_scale p =? 0)%Z then _ else _) as [L' la'].
  destruct (Hr _ eq_refl) as [H1 H2]. simpl in H1, H2.
  destruct (reset_spec (p_n p) (p_k p) (p_l p) L' la' (st_rng st) H1 H2)
    as (H3 & H4 & _).
  destruct (reset _ _ _ _) as [[[L'' la''] g] nr]. simpl in *. auto.
Qed.

Lemma em_iteration_sized (p : params) (ok : bool) (iter : Z) (st st' : state)
    (fl : flow) :
  sized (p_k p) (p_n p) (p_l p) (st_Psi st) (st_L st) (st_Z st) (st_lapla st) ->
  em_iteration p ok iter st = Returned (st', fl) ->
  sized (p_k p) (p_n p) (p_l p) (st_Psi st') (st_L st') (st_Z st') (st_lapla st').
Proof.
  intros (HPsi & HL & HZ & Hla) E.
  destruct (em_iteration_inv p ok iter st st' fl E) as (st1 & Hm & Hcase).
  destruct (estep_phase_frame p st) as (EPsi & EL & EZ & Ela & _).
  destruct (mstep_phase_inv p _ st1 Hm) as (_ & EPsi1 & _ & EL1 & EZ1 & Ela1 & _).
  assert (HL1 : length (st_L st1) = (p_n p * p_k p)%nat).
  { rewrite EL1. apply shrink_length, gemm_spec. rewrite EL. exact HL. }
  assert (HPsi1 : length (st_Psi st1) = p_n p).
  { rewrite EPsi1.
    match goal with |- context [update_Psi ?n ?k ?l ?L ?s ?XX ?eps ?Psi] =>
      apply (update_Psi_spec n k l L s XX eps Psi) end.
    rewrite EPsi. exact HPsi. }
  assert (HZ1 : length (st_Z st1) = (p_k p * p_l p)%nat) by (rewrite EZ1, EZ; exact HZ).
  assert (Hla1 : length (st_lapla st1) = (p_k p * p_l p)%nat)
    by (rewrite Ela1, Ela; exact Hla).
  destruct Hcase as [(_ & _ & ->) | (_ & _ & ->)].
  - unfold sized. simpl.
    rewrite collapse_Psi_spec by exact HPsi1.
    rewrite collapse_lapla_spec by exact Hla1.
    rewrite !length_replicate. auto.
  - destruct (tail_phase_frame p iter st1) as (EP & EZ' & _).
    unfold sized. rewrite EP, EZ'.
    destruct (tail_phase_sized p iter st1 HL1 Hla1) as [H1 H2]. auto.
Qed.

(** X15.  On every return the engine hands back Psi, L, Z and lapla with
    the sizes n, n*k, k*l and k*l that it was given. *)
Theorem engine_sizes (k n l : nat) (X Psi L Zs lapla : list F)
    (cyc : Z) (alpha eps spl spz : F) (scale : Z) (lap : F) (verbose : Z)
    (nthreads : nat) (m : allocation) (r : result) :
  sized k n l Psi L Zs lapla ->
  approx_fabia_cm_f k n l X Psi L Zs lapla cyc alpha eps spl spz scale lap
    verbose nthreads m = Returned r ->
  sized k n l (r_Psi r) (r_L r) (r_Z r) (r_lapla r).
Proof.
  intros (HPsi & HL & HZ & Hla). unfold approx_fabia_cm_f. intros E.
  destruct (a_iLPsiLX_ m) as [iLPsiLX_|].
  - destruct (a_XX m) as [XX|]; [|discriminate].
    destruct (a_iLPsiL_ m) as [iLPsiL_|]; [|discriminate].
    set (p := start_params k n l X cyc alpha eps spl spz scale lap verbose
                nthreads XX) in *.
    destruct (em_loop p _ _ _ _) as [st| |] eqn:Eloop; [|discriminate|discriminate].
    destruct (em_loop_ind
      (fun st => sized (p_k p) (p_n p) (p_l p) (st_Psi st) (st_L st) (st_Z st)
                   (st_lapla st)) (fun _ => True) p (scratch_ok m)) with
      (fuel := Z.to_nat cyc) (iter := 1%Z)
      (st := start_state k nthreads Psi L Zs lapla m iLPsiL_ iLPsiLX_) (st' := st)
      as [(H1 & H2 & H3 & H4) _].
    + intros iter s s' fl Hs Es. split; [|exact I].
      apply (em_iteration_sized p _ iter s s' fl Hs Es).
    + unfold sized. simpl. auto.
    + exact Eloop.
    + right. exact I.
    + destruct (last_update_frame _ _ _ _ E) as (EP & EL & Ela & _).
      unfold sized. rewrite EP, EL, Ela.
      split; [exact H1|]. split; [exact H2|]. split; [|exact H4].
      unfold last_update in E. destruct (fge (st_t st) (p_eps p)).
      * destruct (lpsi_ok m); simpl in E; [|discriminate].
        destruct (prelude _ _ _ _ _) as [LPsi LPsiL].
        injection E as <-. simpl.
        rewrite (proj1 (length_estep _ _ _ _ _ _ _ _ _ _)). exact H3.
      * injection E as <-. simpl. rewrite length_memset0. simpl in H3. lia.
  - injection E as <-. unfold sized. simpl. rewrite !length_memset0.
    split; [exact HPsi|]. split; [lia|]. split; [lia | exact Hla].
Qed.

(** *** Cycles and allocations *)

(** X16.  A negative cyc is the same call as cyc = 0: the loop of line
    173 is not entered. *)
Theorem cyc_nonpositive (k n l : nat) (X Psi L Zs lapla : list F)
    (cyc : Z) (alpha eps spl spz : F) (scale : Z) (lap : F) (verbose : Z)
    (nthreads : nat) (m : allocation) :
  (cyc <= 0)%Z ->
  approx_fabia_cm_f k n l X Psi L Zs lapla cyc alpha eps spl spz scale lap
    verbose nthreads m =
  approx_fabia_cm_f k n l X Psi L Zs lapla 0%Z alpha eps spl spz scale lap
    verbose nthreads m.
Proof.
  intros Hcyc. unfold approx_fabia_cm_f.
  destruct (a_iLPsiLX_ m) as [iLPsiLX_|]; [|reflexivity].
  destruct (a_XX m) as [XX|]; [|reflexivity].
  destruct (a_iLPsiL_ m) as [iLPsiL_|]; [|reflexivity].
  replace (Z.to_nat cyc) with O by lia. reflexivity.
Qed.

Lemma scratch_ok_false (m : @allocation F) :
  a_sum1_ m = None \/ a_sum2_ m = None \/ a_LPsi m = None \/ a_LPsiL m = None ->
  scratch_ok m = false.
Proof.
  intros H. unfold scratch_ok, lpsi_ok. apply andb_false_iff.
  destruct H as [H | [H | [H | H]]]; [left | left | right | right];
    apply bool_decide_eq_false; rewrite H; intros [[? ?] [? ?]]; discriminate.
Qed.

(** X17.  Only the last of the seven allocations is tested (line 131).
    When it succeeds, a NULL XX or iLPsiL_ is written through before the
    loop (lines 162 and 170), and a NULL sum1_, sum2_, LPsi or LPsiL in
    the first iteration of a call with cyc >= 1. *)
Theorem unchecked_allocations (k n l : nat) (X Psi L Zs lapla : list F)
    (cyc : Z) (alpha eps spl spz : F) (scale : Z) (lap : F) (verbose : Z)
    (nthreads : nat) (m : allocation) :
  a_iLPsiLX_ m <> None ->
  a_XX m = None \/ a_iLPsiL_ m = None \/
  ((0 < cyc)%Z /\
   (a_sum1_ m = None \/ a_sum2_ m = None \/ a_LPsi m = None \/ a_LPsiL m = None)) ->
  approx_fabia_cm_f k n l X Psi L Zs lapla cyc alpha eps spl spz scale lap
    verbose nthreads m = NullDeref.
Proof.
  intros Hlast H. unfold approx_fabia_cm_f.
  destruct (a_iLPsiLX_ m) as [iLPsiLX_|]; [|congruence].
  destruct (a_XX m) as [XX|]; [|reflexivity].
  destruct (a_iLPsiL_ m) as [iLPsiL_|]; [|reflexivity].
  destruct H as [H | [H | [Hcyc H]]]; [discriminate | discriminate |].
  rewrite (scratch_ok_false m H).
  destruct (Z.to_nat cyc) eqn:E; [lia|]. reflexivity.
Qed.

(** X18.  When the last allocation fails the engine returns L and Z zero
    everywhere and Psi and lapla as they were, and prints the
    out-of-memory message only, whatever cyc and the other six
    allocations are. *)
Theorem out_of_memory_zeroes (k n l : nat) (X Psi L Zs lapla : list F)
    (cyc : Z) (alpha eps spl spz : F) (scale : Z) (lap : F) (verbose : Z)
    (nthreads : nat) (m : allocation) :
  a_iLPsiLX_ m = None -> length L = (n*k)%nat -> length Zs = (k*l)%nat ->
  approx_fabia_cm_f k n l X Psi L Zs lapla cyc alpha eps spl spz scale lap
    verbose nthreads m
  = Returned (Result Psi (replicate (n*k) 0) (replicate (k*l) 0) lapla
      [Out_of_memory]).
Proof.
  intros Hlast HL HZ. unfold approx_fabia_cm_f. rewrite Hlast.
  rewrite !memset0_all by lia. reflexivity.
Qed.






End EngineRuns.

(** ** The phases under exact arithmetic *)

Section PhaseLaws.

Context {F : Type} {ops : FloatOps F} {laws : RealLaws F} {ext : Externals F}.
Local Open Scope fl_scope.

Add Ring fl_ring_phases : fl_ring.

(** *** Shrinkage *)
Lemma fabs_0 : fabs 0 = (0 : F).
Proof. apply fabs_pos, Le_refl. Qed.

Lemma fabs_eq_0 (x : F) : fabs x <=! 0 -> x = 0.
Proof.
  intros Hle. assert (E : fabs x = 0) by (apply Le_antisym; [exact Hle | apply fabs_nonneg]).
  rewrite fl_abs_def in E. destruct (flt x 0) eqn:Hx; [|exact E].
  transitivity (- - x); [ring | rewrite E; ring].
Qed.

Lemma shrink_entry_alpha0 (psi spl s : F) : shrink_entry psi 0 spl s = s.
Proof.
  unfold shrink_entry, shrink_threshold, non_negative. simpl.
  replace (psi * 0 * fpow (MACHINE_EPS + fabs s) (- spl)) with (0 : F) by ring.
  rewrite fabs_0. destruct (fgt (fabs s) 0) eqn:E.
  - ring.
  - symmetry. apply fabs_eq_0. exact E.
Qed.

(** X20.  With alpha = 0 the shrinkage of lines 219-232 leaves L as it
    is. *)
Theorem shrink_alpha0 (n k : nat) (Psi : list F) (spl : F) (L : list F) :
  length L = (n*k)%nat -> shrink n k Psi 0 spl L = L.
Proof.
  intros Hlen. destruct (shrink_spec n k Psi 0 spl L Hlen) as [Hl Hset].
  apply (cm_ext n k); [exact Hl | exact Hlen |].
  intros i j Hi Hj. replace (i + j*n)%nat with (i + n*j)%nat by lia.
  rewrite (Hset i j Hi Hj). apply shrink_entry_alpha0.
Qed.

Lemma shrink_entry_between (psi alpha spl s : F) :
  let s' := shrink_entry psi alpha spl s in
  (0 <=! s -> 0 <=! s' /\ s' <=! s) /\ (s <=! 0 -> s <=! s' /\ s' <=! 0).
Proof.
  intros s'. subst s'.
  destruct (shrink_entry_cases psi alpha spl s) as [Hbig Hsmall].
  set (t := shrink_threshold psi alpha spl s) in *.
  assert (Ht : 0 <=! t) by apply fabs_nonneg.
  destruct (fgt (fabs s) t) eqn:Hgt.
  - destruct (Hbig eq_refl) as [-> _]. unfold fgt in Hgt. change (t <! fabs s) in Hgt.
    destruct (sign_cases s) as [[Hs ->] | [[Hs ->] | [-> _]]].
    + rewrite (fabs_pos s) in Hgt by (apply Lt_Le, Hs).
      replace (s - 1 * t) with (s - t) by ring. split.
      * intros _. split.
        -- apply Lt_Le. apply (proj1 (Lt_sub t s)), Hgt.
        -- replace s with (s - t + t) at 2 by ring.
           replace (s - t) with (s - t + 0) at 1 by ring.
           replace (s - t + 0) with (0 + (s - t)) by ring.
           replace (s - t + t) with (t + (s - t)) by ring.
           apply Le_add_r, Ht.
      * intros Hle. exfalso. apply (Le_not_Lt _ _ Hle Hs).
    + rewrite (fabs_neg s Hs) in Hgt.
      replace (s - - (1) * t) with (s + t) by ring.
      assert (Hst : s + t <! 0).
      { apply (Lt_add_r _ _ s) in Hgt.
        replace (- s + s) with 0 in Hgt by ring.
        replace (t + s) with (s + t) in Hgt by ring. exact Hgt. }
      split.
      * intros Hle. exfalso. apply (Le_not_Lt _ _ Hle Hs).
      * intros _. split; [|apply Lt_Le, Hst].
        replace s with (0 + s) at 1 by ring.
        replace (s + t) with (t + s) by ring. apply Le_add_r, Ht.
    + exfalso. rewrite fabs_0 in Hgt. apply (Le_not_Lt _ _ Ht Hgt).
  - rewrite (Hsmall eq_refl). split; intros H; split; try apply Le_refl; exact H.
Qed.

(** X21.  The shrinkage moves no entry of L away from 0 or across it: the
    new entry lies between 0 and the old one, and 0 stays 0. *)
Theorem shrink_towards_zero (n k : nat) (Psi : list F) (alpha spl : F)
    (L : list F) (i1 i2 : nat) :
  length L = (n*k)%nat -> i1 < n -> i2 < k ->
  let s := L !!! (i1 + n*i2)%nat in
  let s' := shrink n k Psi alpha spl L !!! (i1 + n*i2)%nat in
  (0 <=! s -> 0 <=! s' /\ s' <=! s) /\ (s <=! 0 -> s <=! s' /\ s' <=! 0) /\
  (s = 0 -> s' = 0).
Proof.
  intros Hlen H1 H2 s s'.
  destruct (shrink_spec n k Psi alpha spl L Hlen) as [_ Hset].
  assert (E : s' = shrink_entry (Psi !!! i1) alpha spl s) by (apply Hset; assumption).
  destruct (shrink_entry_between (Psi !!! i1) alpha spl s) as [Hpos Hneg].
  rewrite <- E in Hpos, Hneg.
  split; [exact Hpos|]. split; [exact Hneg|].
  intros Hs. rewrite Hs in Hpos, Hneg.
  apply Le_antisym; [apply Hpos, Le_refl | apply Hneg, Le_refl].
Qed.

(** *** The loop goes on *)

(** X22.  When some |d[i]| of the noise-variance update is at least eps,
    so is t: the iteration does not take the collapse exit, it goes on
    with the rescale and the reset, which leave Psi and Z, and the loop
    continues with iter + 1. *)
Theorem no_collapse_continue (p : params) (iter : Z) (st st1 : state) :
  length (st_Psi st) = p_n p ->
  mstep_phase p (estep_phase p st) = Returned st1 ->
  (exists i, i < p_n p /\
     p_eps p <=! fabs (residual (p_n p) (p_k p) (st_L st1) (st_sum1_ st1) i)) ->
  fge (st_t st1) (p_eps p) = true /\
  em_iteration p true iter st = Returned (tail_phase p iter st1, Continue) /\
  (forall fuel, em_loop p true (S fuel) iter st =
     em_loop p true fuel (iter + 1)%Z (tail_phase p iter st1)) /\
  st_Psi (tail_phase p iter st1) = st_Psi st1 /\
  st_Z (tail_phase p iter st1) = st_Z st1.
Proof.
  intros HlPsi Hm (i & Hi & Hres).
  destruct (estep_phase_frame p st) as (HPsi & _).
  destruct (mstep_phase_inv p _ st1 Hm) as (_ & EPsi & Et & EL & _ & _ & Esum1 & _).
  match type of EPsi with context [update_Psi ?n ?k ?l ?L ?s ?XX ?eps ?Psi] =>
    destruct (update_Psi_spec n k l L s XX eps Psi) as (_ & _ & Ht1) end.
  { rewrite HPsi. exact HlPsi. }
  rewrite <- Et, <- EL, <- Esum1 in Ht1.
  assert (Hle : p_eps p <=! st_t st1).
  { rewrite Ht1. apply (Le_trans _ _ _ Hres). apply max_abs_residual_upper, Hi. }
  assert (Hlt : flt (st_t st1) (p_eps p) = false) by exact Hle.
  assert (Hit : em_iteration p true iter st = Returned (tail_phase p iter st1, Continue)).
  { unfold em_iteration. simpl. rewrite Hm, Hlt. reflexivity. }
  split; [apply fge_true, Hle|]. split; [exact Hit|]. split.
  - intros fuel. simpl. rewrite Hit. reflexivity.
  - destruct (tail_phase_frame p iter st1) as (E1 & E2 & _). auto.
Qed.



(** X23.  Scale compensation.  Where sqrt is exact on the mean square m
    of column i of L (r = sqrt(m) with r*r = m and r >= 0), the rescale
    leaves that column with the mean square q^2 for
    q = r/(r + MACHINE_EPS) = 1 - MACHINE_EPS*s_i, and 0 <= q < 1. *)
Theorem rescale_unit_mean_square (n k l : nat) (spz : F) (L lapla : list F) (i : nat) :
  length L = (n*k)%nat -> length lapla = (k*l)%nat -> i < k ->
  let r := fsqrt (column_mean_square n L i) in
  r * r = column_mean_square n L i -> 0 <=! r ->
  let q := r * column_scale n L i in
  column_mean_square n (rescale n k l spz (L, lapla)).1 i = q * q /\
  0 <=! q /\ q <! 1 /\ q = 1 - MACHINE_EPS * column_scale n L i.
Proof.
  intros HL Hla Hi r Hr Hr0 q.
  destruct (rescale_spec n k l spz L lapla HL Hla) as (_ & _ & Hcol & _).
  set (s := column_scale n L i) in *.
  assert (Hden : 0 <! r + MACHINE_EPS).
  { replace (r + MACHINE_EPS) with (MACHINE_EPS + r) by ring.
    apply Lt_0_add; [apply fl_eps_pos | exact Hr0]. }
  assert (Hs : 0 <! s) by (apply Lt_0_inv, Hden).
  assert (Hinv : s * (r + MACHINE_EPS) = 1) by (apply fl_inv_l, Lt_neq, Hden).
  assert (Hq : q = 1 - MACHINE_EPS * s).
  { unfold q. rewrite <- Hinv. ring. }
  split; [|split; [|split]].
  - unfold column_mean_square at 1.
    rewrite (for_ext n _ (fun j acc =>
      acc + (fun j => L !!! (i*n + j)%nat * L !!! (i*n + j)%nat * (s * s)) j)).
    2:{ intros j acc Hj. rewrite (Hcol i j Hi Hj). fold s. ring. }
    change (for_ n _ 0) with
      (fsum n (fun j => L !!! (i*n + j)%nat * L !!! (i*n + j)%nat * (s * s))).
    rewrite fsum_mul_r, fl_div_def.
    transitivity (column_mean_square n L i * (s * s)).
    + unfold column_mean_square. rewrite (fl_div_def (for_ n _ 0)).
      unfold fsum. ring.
    + rewrite <- Hr. unfold q. ring.
  - apply Le_0_mul; [exact Hr0 | apply Lt_Le, Hs].
  - apply Lt_sub. rewrite Hq.
    replace (1 - (1 - MACHINE_EPS * s)) with (MACHINE_EPS * s) by ring.
    apply Lt_0_mul; [apply fl_eps_pos | exact Hs].
  - exact Hq.
Qed.


(** *** The sufficient statistics *)
Lemma reduced_cell_fsum (len nthreads : nat) (a : list F) (i : nat) :
  1 <= nthreads ->
  reduced_cell len nthreads a i = fsum nthreads (fun tid => a !!! (i + tid*len)%nat).
Proof.
  intros Hn. unfold reduced_cell.
  destruct nthreads as [|t]; [lia|]. replace (S t - 1)%nat with t by lia. clear Hn.
  induction t as [|t IH].
  - rewrite for_0, fsum_S. unfold fsum. rewrite for_0.
    replace (i + 0*len)%nat with i by lia. ring.
  - rewrite for_S, IH, (fsum_S (S t)). reflexivity.
Qed.

Lemma thread_sum_init (m nthreads : nat) (g : nat -> F) (init : nat -> F) :
  (forall j, j < m -> omp_get_thread_num j < nthreads) ->
  fsum nthreads (fun tid => thread_sum m tid g (init tid)) =
  fsum nthreads init + fsum m g.
Proof.
  induction m as [|m IH]; intros Htid.
  - unfold thread_sum. rewrite (fsum_ext nthreads _ init) by reflexivity.
    unfold fsum at 3. rewrite for_0. ring.
  - rewrite (fsum_ext nthreads _ (fun tid =>
      thread_sum m tid g (init tid) +
      (if decide (omp_get_thread_num m = tid) then (fun _ => g m) tid else 0))).
    2:{ intros tid _. rewrite thread_sum_S. case_decide; ring. }
    rewrite fsum_add, IH by (intros; apply Htid; lia).
    rewrite fsum_delta by (apply Htid; lia). rewrite fsum_S. ring.
Qed.

(** The buffers of sum2_ after the tasks of the first [top] samples. *)
Lemma estep_sum2_spec (n k l nthreads : nat) (X LPsi LPsiL : list F)
    (spz lap : F) (e : estep_bufs) (top : nat) :
  (top <= l)%nat ->
  (forall j, j < l -> omp_get_thread_num j < nthreads) ->
  length (e_Z e) = (k*l)%nat -> length (e_lapla e) = (k*l)%nat ->
  length (e_iLPsiL_ e) = (nthreads*k)%nat ->
  length (e_iLPsiLX_ e) = (nthreads*n*k)%nat ->
  (nthreads*(k*k) <= length (e_sum2_ e))%nat ->
  let r := estep n k top X LPsi LPsiL spz lap true e in
  length (e_sum2_ r) = length (e_sum2_ e) /\
  forall tid i jj, tid < nthreads -> i < k -> jj < k ->
    e_sum2_ r !!! (tid*(k*k) + (i*k + jj))%nat =
      thread_sum top tid
        (fun j =>
           let lap_j := slice (j*k) k (e_lapla e) in
           let z := posterior_mean n k (slice (n*j) n X) LPsi LPsiL lap_j in
           z i * z jj + if decide (i = jj) then precision LPsiL lap_j i else 0)
        (e_sum2_ e !!! (tid*(k*k) + (i*k + jj))%nat).
Proof.
  intros Htop Htid HZ Hl HiL HiX Hs2. cbv zeta.
  induction top as [|m IH].
  - split; [reflexivity|]. intros. reflexivity.
  - destruct (IH ltac:(lia)) as [IHl IHc]. clear IH.
    destruct (estep_prefix n k l nthreads X LPsi LPsiL spz lap true e m ltac:(lia)
      Htid HZ Hl HiL HiX) as (HZ' & Hl' & HiL' & HiX' & _ & Hlap).
    rewrite estep_succ.
    set (r := estep n k m X LPsi LPsiL spz lap true e) in *.
    destruct (estep_sample_sum2 n k l nthreads X LPsi LPsiL spz lap m r
      ltac:(lia) (Htid m ltac:(lia)) HZ' Hl' HiL' HiX' ltac:(rewrite IHl; exact Hs2))
      as [Hlen Hcell].
    split; [rewrite Hlen; exact IHl|].
    intros tid i jj Ht Hi Hjj.
    rewrite (Hcell tid i jj Ht Hi Hjj), thread_sum_S.
    assert (Ecol : forall a, a < k ->
      slice (m*k) k (e_lapla r) !!! a = slice (m*k) k (e_lapla e) !!! a).
    { intros a Ha. rewrite !lookup_total_slice by exact Ha.
      rewrite (Hlap m a ltac:(lia) Ha).
      rewrite bool_decide_eq_false_2 by lia. reflexivity. }
    case_decide; [|apply IHc; assumption].
    unfold accumulated. rewrite (IHc tid i jj Ht Hi Hjj).
    rewrite (posterior_mean_ext n k _ (slice (n*m) n X) LPsi LPsiL
               (slice (m*k) k (e_lapla r)) (slice (m*k) k (e_lapla e)) i
               (Ecol i Hi) (fun _ _ => eq_refl)).
    rewrite (posterior_mean_ext n k _ (slice (n*m) n X) LPsi LPsiL
               (slice (m*k) k (e_lapla r)) (slice (m*k) k (e_lapla e)) jj
               (Ecol jj Hjj) (fun _ _ => eq_refl)).
    unfold precision. rewrite (Ecol i Hi).
    case_decide; ring.
Qed.

(** X25.  After the E-step and the reduction sum1 = X Z': sum1[i,jj] is
    the sum over the samples j of X[i,j]*Z[j,jj], Z being the new one,
    for every assignment of the samples to the threads. *)
Theorem sum1_statistic (p : params) (st : state) (i jj : nat) :
  1 <= p_nthreads p ->
  (forall j, j < p_l p -> omp_get_thread_num j < p_nthreads p) ->
  length (st_Z st) = (p_k p * p_l p)%nat ->
  length (st_lapla st) = (p_k p * p_l p)%nat ->
  length (st_iLPsiL_ st) = (p_nthreads p * p_k p)%nat ->
  length (st_iLPsiLX_ st) = (p_nthreads p * p_n p * p_k p)%nat ->
  i < p_n p -> jj < p_k p ->
  st_sum1_ (estep_phase p st) !!! (i + jj * p_n p)%nat =
    fsum (p_l p) (fun j =>
      p_X p !!! (p_n p * j + i)%nat *
      st_Z (estep_phase p st) !!! (j * p_k p + jj)%nat).
Proof.
  intros Hn Htid HZ Hl HiL HiX Hi Hjj. unfold estep_phase.
  destruct (prelude _ _ _ _ _) as [LPsi LPsiL]. cbn [st_sum1_ st_Z].
  set (s1 := memset0 (p_nthreads p * p_n p * p_k p) (st_sum1_ st)).
  set (s2 := init_sum2 _ _ _).
  set (e := EstepBufs (st_Z st) (st_lapla st) (st_iLPsiL_ st) (st_iLPsiLX_ st) s1 s2).
  assert (Hs1 : (p_nthreads p * (p_n p * p_k p) <= length (e_sum1_ e))%nat).
  { simpl. unfold s1. rewrite length_memset0. lia. }
  destruct (estep_sum1_spec (p_n p) (p_k p) (p_l p) (p_nthreads p) (p_X p) LPsi LPsiL
    (p_spz p) (p_lap p) e (p_l p) (le_n _) Htid HZ Hl HiL HiX Hs1) as [Hlen Hcell].
  set (e' := estep _ _ _ _ _ _ _ _ true e) in *.
  destruct (reduce_spec (p_n p * p_k p) (p_nthreads p) (e_sum1_ e')) as (_ & Hred & _);
    [rewrite Hlen; exact Hs1 | exact Hn |].
  pose proof (cm_lt (p_n p) (p_k p) i jj Hi Hjj) as Hc.
  rewrite (Hred _ Hc), reduced_cell_fsum by exact Hn.
  rewrite (fsum_ext (p_nthreads p) _ (fun tid =>
    thread_sum (p_l p) tid (fun j => p_X p !!! (p_n p * j + i)%nat *
      posterior_mean (p_n p) (p_k p) (slice (p_n p * j) (p_n p) (p_X p)) LPsi LPsiL
        (slice (j * p_k p) (p_k p) (st_lapla st)) jj) 0)).
  2:{ intros tid Ht.
      replace (i + jj * p_n p + tid * (p_n p * p_k p))%nat
        with (tid * (p_n p * p_k p) + (i + jj * p_n p))%nat by lia.
      rewrite (Hcell tid i jj Ht Hi Hjj). f_equal. simpl. unfold s1.
      apply lookup_total_memset0.
      assert (S tid * (p_n p * p_k p) <= p_nthreads p * (p_n p * p_k p))%nat
        by (apply Nat.mul_le_mono_r; lia).
      lia. }
  rewrite thread_sum_init, fsum_zero by exact Htid.
  match goal with |- 0 + ?a = _ => transitivity a; [ring|] end.
  apply fsum_ext. intros j Hj. f_equal.
  destruct (estep_spec (p_n p) (p_k p) (p_l p) (p_nthreads p) (p_X p) LPsi LPsiL
    (p_spz p) (p_lap p) true e Htid HZ Hl HiL HiX j jj Hj Hjj) as [E _].
  symmetry. exact E.
Qed.

(** X26.  After the E-step and the reduction sum2 = eps*I + Z Z' + D:
    sum2[i,jj] is eps on the diagonal, plus the sum over the samples j of
    Z[j,i]*Z[j,jj], plus on the diagonal the sum over j of the
    reciprocals iLPsiL[i] of sample j; for every assignment of the
    samples to the threads. *)
Theorem sum2_statistic (p : params) (st : state) (i jj : nat) :
  1 <= p_nthreads p ->
  (forall j, j < p_l p -> omp_get_thread_num j < p_nthreads p) ->
  length (st_Z st) = (p_k p * p_l p)%nat ->
  length (st_lapla st) = (p_k p * p_l p)%nat ->
  length (st_LPsi st) = (p_n p * p_k p)%nat ->
  length (st_LPsiL st) = p_k p ->
  length (st_iLPsiL_ st) = (p_nthreads p * p_k p)%nat ->
  length (st_iLPsiLX_ st) = (p_nthreads p * p_n p * p_k p)%nat ->
  i < p_k p -> jj < p_k p ->
  let Z' := st_Z (estep_phase p st) in
  st_sum2_ (estep_phase p st) !!! (i * p_k p + jj)%nat =
    (if decide (i = jj) then p_eps p else 0) +
    fsum (p_l p) (fun j =>
      Z' !!! (j * p_k p + i)%nat * Z' !!! (j * p_k p + jj)%nat +
      if decide (i = jj)
      then sample_precision (p_n p) (p_k p) (st_L st) (st_Psi st) (st_lapla st) j i
      else 0).
Proof.
  intros Hn Htid HZ Hl HLPsi HLPsiL HiL HiX Hi Hjj Z'. subst Z'.
  assert (Hexp : forall j a, a < p_k p ->
    let lp := prelude (p_n p) (p_k p) (st_L st) (st_Psi st) (st_LPsi st, st_LPsiL st) in
    precision lp.2 (slice (j * p_k p) (p_k p) (st_lapla st)) a =
      sample_precision (p_n p) (p_k p) (st_L st) (st_Psi st) (st_lapla st) j a).
  { intros j a Ha.
    exact (proj1 (posterior_expected (p_n p) (p_k p) (p_X p) (st_L st) (st_Psi st)
      (st_lapla st) (st_LPsi st) (st_LPsiL st) j a HLPsi HLPsiL Ha)). }
  unfold estep_phase.
  destruct (prelude _ _ _ _ _) as [LPsi LPsiL]. cbn [st_sum2_ st_Z]. simpl in Hexp.
  set (s1 := memset0 _ (st_sum1_ st)).
  set (s2 := init_sum2 (p_k p) (p_eps p)
               (memset0 (p_nthreads p * p_k p * p_k p) (st_sum2_ st))).
  destruct (init_sum2_spec (p_k p) (p_nthreads p) (p_eps p) (st_sum2_ st) Hn)
    as (Hls2 & Hb0 & Hbrest). fold s2 in Hls2, Hb0, Hbrest.
  set (e := EstepBufs (st_Z st) (st_lapla st) (st_iLPsiL_ st) (st_iLPsiLX_ st) s1 s2).
  assert (Hs2 : (p_nthreads p * (p_k p * p_k p) <= length (e_sum2_ e))%nat).
  { simpl. lia. }
  destruct (estep_sum2_spec (p_n p) (p_k p) (p_l p) (p_nthreads p) (p_X p) LPsi LPsiL
    (p_spz p) (p_lap p) e (p_l p) (le_n _) Htid HZ Hl HiL HiX Hs2) as [Hlen Hcell].
  pose proof (estep_spec (p_n p) (p_k p) (p_l p) (p_nthreads p) (p_X p) LPsi LPsiL
    (p_spz p) (p_lap p) true e Htid HZ Hl HiL HiX) as HZ'.
  set (e' := estep _ _ _ _ _ _ _ _ true e) in *.
  destruct (reduce_spec (p_k p * p_k p) (p_nthreads p) (e_sum2_ e')) as (_ & Hred & _);
    [rewrite Hlen; exact Hs2 | exact Hn |].
  pose proof (index_lt (p_k p) (p_k p) i jj Hi Hjj) as Hc.
  rewrite (Hred _ Hc), reduced_cell_fsum by exact Hn.
  rewrite (fsum_ext (p_nthreads p) _ (fun tid =>
    thread_sum (p_l p) tid (fun j =>
      let lap_j := slice (j * p_k p) (p_k p) (st_lapla st) in
      let z := posterior_mean (p_n p) (p_k p) (slice (p_n p * j) (p_n p) (p_X p))
                 LPsi LPsiL lap_j in
      z i * z jj + if decide (i = jj) then precision LPsiL lap_j i else 0)
      ((fun tid => if decide (O = tid)
                   then (fun _ => if decide (i = jj) then p_eps p else 0) tid
                   else 0) tid))).
  2:{ intros tid Ht.
      replace (i * p_k p + jj + tid * (p_k p * p_k p))%nat
        with (tid * (p_k p * p_k p) + (i * p_k p + jj))%nat by lia.
      rewrite (Hcell tid i jj Ht Hi Hjj). f_equal. simpl.
      replace (tid * (p_k p * p_k p))%nat with (tid * p_k p * p_k p)%nat by lia.
      change (s2 !!! (tid * p_k p * p_k p + (i * p_k p + jj))%nat)
        with (block (p_k p) s2 tid i jj).
      destruct (decide (O = tid)) as [<-|Hne].
      - apply Hb0; assumption.
      - apply Hbrest; [lia | assumption | assumption | assumption]. }
  rewrite thread_sum_init by exact Htid.
  rewrite fsum_delta by lia. f_equal.
  apply fsum_ext. intros j Hj. cbv zeta.
  destruct (HZ' j i Hj Hi) as [-> _]. destruct (HZ' j jj Hj Hjj) as [-> _].
  simpl. case_decide; [rewrite (Hexp j i Hi)|]; reflexivity.
Qed.

End PhaseLaws.

(** ** The theorems on the concrete runs *)

Section Runs.

Import QcArith Example.
Local Open Scope fl_scope.

(** C1 on one sample: x = 3, LPsi = 1/2, LPsiL = 1, lapla = 1. *)
Lemma estimateZ_posterior_mean_witness :
  k_z (approx_estimateZ 1 1 [q 3 1] [q 1 2] [q 1 1] (q 1 1) (q 1 1) bufs) !!! O =
  posterior_mean 1 1 [q 3 1] [q 1 2] [q 1 1] (k_lapla bufs) O.
Proof.
  exact (proj2 (proj2 (proj2 (estimateZ_posterior_mean 1 1 [q 3 1] [q 1 2] [q 1 1]
    (q 1 1) (q 1 1) bufs eq_refl eq_refl eq_refl))) O (le_n 1)).
Defined.

(** C9 on the same sample, scaled by c = 2. *)
Lemma estimateZ_linear_witness :
  k_z (approx_estimateZ 1 1 (map (fmul (q 2 1)) [q 3 1]) [q 1 2] [q 1 1]
         (q 1 1) (q 1 1) bufs) !!! O =
  q 2 1 * k_z (approx_estimateZ 1 1 [q 3 1] [q 1 2] [q 1 1] (q 1 1) (q 1 1) bufs) !!! O.
Proof.
  apply (estimateZ_linear 1 1 (q 2 1) [q 3 1] [q 1 2] [q 1 1] (q 1 1) (q 1 1) bufs
    eq_refl eq_refl eq_refl O). lia.
Defined.


(** C4 as stated fails.  With X = Psi = L = lapla = 1, lap = 1, spz = 1 and
    scale = 1 the first iteration completes; its E-step leaves lapla above
    lap, and the rescale multiplies it by (s^2)^(-1) with s = 1/(|L| +
    MACHINE_EPS) and |L| < 1: the iteration ends with lapla[0,0] < lap. *)
Lemma rescale_breaks_lapla_floor :
  exists st',
    em_iteration p_scaled true 1%Z st_scaled = Returned (st', Continue) /\
    fge (st_lapla st' !!! O) (p_lap p_scaled) = false.
Proof. eexists. split; vm_compute; reflexivity. Qed.

(** C6 as stated fails.  With cyc = 0 and eps = 1/1000 the engine returns
    Z = 0 for the caller's Z = 5: t = 0.0 < eps after the loop. *)
Lemma cyc0_zeroes_Z :
  exists r,
    approx_fabia_cm_f 1 1 1 [q 1 1] [q 1 1] [q 1 1] [q 5 1] [q 1 1] 0%Z (q 0 1)
      (q 1 1000) (q 0 1) (q 1 1) 1%Z (q 1 1) 0%Z 1 scratch = Returned r /\
    r_Z r = [q 0 1] /\ r_Z r <> [q 5 1].
Proof.
  eexists. split; [vm_compute; reflexivity|]. split; [reflexivity|].
  simpl. intros E. injection E as E. discriminate E.
Qed.

(** The stubs of the 1 x 1 runs meet the contract of LAPACK. *)
Lemma lapack_exact_1x1 : lapack_exact 1.
Proof.
  intros a [_ Hpd].
  specialize (Hpd (fun _ => 1)).
  assert (Hq : qf 1 (entries 1 a) (fun _ => 1) = a !!! O).
  { unfold qf, fsum, entries. rewrite !for_S, !for_0. simpl.
    change (0 + (0 + 1 * a !!! O * 1) = a !!! O)%Qc. ring. }
  rewrite Hq in Hpd.
  assert (Hpos : 0 <! a !!! O).
  { apply Hpd. exists O. split; [lia|]. exact Q_apart_0_1. }
  destruct a as [|x r]; [discriminate Hpos|].
  simpl in *. change (ltb 0 x = true) in Hpos.
  unfold potrf_1x1. rewrite Hpos. simpl. auto.
Qed.

(** C8 on the run with X = Psi = L = lapla = 1 and one iteration. *)
Lemma cholesky_never_aborts_witness :
  approx_fabia_cm_f 1 1 1 [q 1 1] [q 1 1] [q 1 1] [q 0 1] [q 1 1] 1%Z (q 0 1)
    (q 1 1000) (q 0 1) (q 1 1) 1%Z (q 1 1) 0%Z 1 scratch <> AssertFailed.
Proof.
  refine (proj2 (proj2 (proj2 (cholesky_never_aborts (F:=Qc)))) 1%nat 1%nat 1%nat
    [q 1 1] [q 1 1] [q 1 1] [q 0 1] [q 1 1] 1%Z (q 0 1) (q 1 1000) (q 0 1) (q 1 1)
    1%Z (q 1 1) 0%Z 1%nat scratch eq_refl (le_n 1) _ lapack_exact_1x1
    eq_refl eq_refl eq_refl _ _ _ _ _).
  - intros j Hj. simpl. lia.
  - intros i Hi. assert (i = O) as -> by lia. reflexivity.
  - intros i Hi. assert (i = O) as -> by (simpl in Hi; lia). reflexivity.
  - intros a [= <-]. reflexivity.
  - intros a [= <-]. reflexivity.
  - intros a [= <-]. reflexivity.
Defined.

(** C8 as stated fails: nothing in the engine makes sum2 positive
    definite when the caller's lapla is negative.  With lapla = -2 on
    entry (and L = 0, X = 0) the reciprocal iLPsiL is negative, sum2 =
    eps + iLPsiL < 0, and the first assertion of [invertCholesky] fails. *)
Remark negative_lapla_aborts :
  approx_fabia_cm_f 1 1 1 [q 0 1] [q 1 1] [q 0 1] [q 0 1] [q (-2) 1] 1%Z (q 0 1)
    (q 1 1000) (q 0 1) (q 1 1) 1%Z (q 1 1) 0%Z 1 scratch = AssertFailed.
Proof. vm_compute. reflexivity. Qed.

(** In C4 the bound on lap is needed as well.  With lap = 2, alpha = 10
    and eps = 0 the E-step leaves lapla = lap, the shrinkage zeroes the
    one column of L, t = 0.0 is not below eps, and the reset writes
    lapla = 1.0 < lap. *)
Remark reset_writes_below_lap :
  let p := start_params 1 1 1 [q 1 1] 1%Z (q 10 1) (q 0 1) (q 0 1) (q 0 1) 0%Z
             (q 2 1) 0%Z 1 [q 0 1] in
  exists st',
    em_iteration p true 1%Z st_scaled = Returned (st', Continue) /\
    st_lapla (estep_phase p st_scaled) = [q 2 1] /\
    st_lapla st' = [q 1 1] /\
    fge (st_lapla st' !!! O) (p_lap p) = false.
Proof.
  cbv zeta. eexists. split; [vm_compute; reflexivity|].
  split; [vm_compute; reflexivity|]. split; vm_compute; reflexivity.
Qed.

End Runs.

(** ** The theorems on floats *)

Section FloatRuns.

Import Binary32.
Local Open Scope fl_scope.

(** On floats [x < x] is false, for NaN as for every other value. *)
Lemma SFltb_irrefl (x : spec_float) : flt x x = false.
Proof.
  change (SFltb x x = false). unfold SFltb, SFcompare.
  destruct x as [s|s| |s m e]; try reflexivity; destruct s; try reflexivity;
    rewrite Z.compare_refl, Pos.compare_cont_refl; reflexivity.
Qed.

(** C2 on the float s = 3 with Psi = 1, alpha = 0.01, spl = 0: |s| > t and
    the entry becomes the float s - 1*t. *)
Lemma shrink_soft_threshold_witness :
  let s := of_Z 3 in
  let t := fabs (of_Z 1 * ratio 1 100 * fpow (MACHINE_EPS + fabs s) (- of_Z 0)) in
  let s' := shrink 1 1 [of_Z 1] (ratio 1 100) (of_Z 0) [s] !!! O in
  fgt (fabs s) t = true /\ s' = s - sign s * t.
Proof.
  intros s t s'.
  pose proof (shrink_soft_threshold 1 1 [of_Z 1] (ratio 1 100) (of_Z 0) [s] O O
    eq_refl (le_n 1) (le_n 1)) as T.
  cbv zeta in T. change (0 + 1 * 0)%nat with O in T.
  destruct T as (Hbig & _ & _).
  assert (Hgt : fgt (fabs s) t = true) by (vm_compute; reflexivity).
  split; [exact Hgt | exact (Hbig Hgt)].
Defined.

(** C2 as stated fails on floats: a shrunk entry need not be reduced in
    absolute value by exactly t.  With Psi = 1 and spl = 0, so that
    t = alpha: for s = 1 and alpha = 1e-9 the difference s - t rounds to
    s, the entry is unchanged and it is not 0, although |s| > t > 0; for
    s = 3 and alpha = 0.01 the entry is reduced by 10737408 * 2^-30, and
    t is 10737418 * 2^-30. *)
Lemma shrink_not_reduced_by_t :
  (let s := of_Z 1 in
   let alpha := ratio 1 1000000000 in
   let t := fabs (of_Z 1 * alpha * fpow (MACHINE_EPS + fabs s) (- of_Z 0)) in
   let s' := shrink 1 1 [of_Z 1] alpha (of_Z 0) [s] !!! O in
   fgt (fabs s) t = true /\ fgt t 0 = true /\
   s' = s /\ s' <> 0 /\ fabs s - fabs s' <> t) /\
  (let s := of_Z 3 in
   let alpha := ratio 1 100 in
   let t := fabs (of_Z 1 * alpha * fpow (MACHINE_EPS + fabs s) (- of_Z 0)) in
   let s' := shrink 1 1 [of_Z 1] alpha (of_Z 0) [s] !!! O in
   fgt (fabs s) t = true /\ s' <> 0 /\
   t = S754_finite false 10737418 (-30) /\
   fabs s - fabs s' = S754_finite false 10737408 (-30)).
Proof.
  cbv zeta. split.
  - split; [vm_compute; reflexivity|]. split; [vm_compute; reflexivity|].
    split; [vm_compute; reflexivity|].
    split; vm_compute; intros E; discriminate E.
  - split; [vm_compute; reflexivity|].
    split; [vm_compute; intros E; discriminate E|].
    split; vm_compute; reflexivity.
Qed.

(** C5 on the float run with X = Psi = L = lapla = 1 and one iteration:
    the M-step stores the clamped XX - d/l, and the Psi the engine returns
    is not below eps. *)
Lemma Psi_floor_witness :
  (exists st',
     mstep_phase p_unit (estep_phase p_unit st_unit) = Returned st' /\
     st_Psi st' !!! O =
       new_Psi 1 1 1 (st_L st') (st_sum1_ (estep_phase p_unit st_unit))
         (p_XX p_unit) (p_eps p_unit) O) /\
  (exists r,
     approx_fabia_cm_f 1 1 1 [of_Z 1] [of_Z 1] [of_Z 1] [of_Z 0] [of_Z 1] 1%Z
       (of_Z 0) (ratio 1 1000) (of_Z 0) (of_Z 0) 0%Z (of_Z 1) 0%Z 1 scratch =
       Returned r /\
     not_below 1 (ratio 1 1000) (r_Psi r)).
Proof.
  destruct (Psi_floor (F:=spec_float) SFltb_irrefl) as (Hm & _ & _ & Hengine & _).
  split.
  - eexists. split; [vm_compute; reflexivity|].
    refine (proj1 (Hm p_unit (estep_phase p_unit st_unit) _ eq_refl _) O (le_n 1)).
    vm_compute. reflexivity.
  - eexists. split; [vm_compute; reflexivity|].
    refine (Hengine 1%nat 1%nat 1%nat [of_Z 1] [of_Z 1] [of_Z 1] [of_Z 0] [of_Z 1]
      1%Z (of_Z 0) (ratio 1 1000) (of_Z 0) (of_Z 0) 0%Z (of_Z 1) 0%Z 1%nat scratch
      _ eq_refl _ _).
    + vm_compute. reflexivity.
    + left. split; [lia | discriminate].
Defined.

(** C5 as stated fails on floats.  With X = 1e20, L = 1e-15 and
    Psi = lapla = 1 the mean square XX = X*X overflows to +infinity; the
    E-step gives z = 1e5 and sum1 = 1e25, the M-step L = 1e15 and
    d = L*sum1 = +infinity, so that Psi = XX - d/l = infinity - infinity
    is NaN; [Psi < eps] is false on NaN and the clamp leaves it; t =
    +infinity is not below eps, there is no collapse, and the engine
    returns Psi = NaN, which is not >= eps. *)
Lemma overflow_leaves_Psi_nan :
  exists r,
    approx_fabia_cm_f 1 1 1 [of_Z (10^20)] [of_Z 1] [ratio 1 (10^15)] [of_Z 0]
      [of_Z 1] 1%Z (of_Z 0) (ratio 1 1000) (of_Z 0) (of_Z 0) 0%Z (of_Z 1) 0%Z 1
      scratch = Returned r /\
    r_Psi r = [S754_nan] /\
    fge (r_Psi r !!! O) (ratio 1 1000) = false.
Proof. eexists. split; [vm_compute; reflexivity|]. split; vm_compute; reflexivity. Qed.

(** C4 as amended, on floats: after the E-step and after the completed
    iteration of the run with X = 1, scale = 0 and lap = 1, and on the
    collapse of the run with X = 0. *)
Lemma lapla_floor_witness :
  not_below 1 (p_lap p_unit) (st_lapla (estep_phase p_unit st_unit)) /\
  (exists st',
     em_iteration p_unit true 1%Z st_unit = Returned (st', Continue) /\
     not_below 1 (p_lap p_unit) (st_lapla st')) /\
  (exists st',
     em_iteration p_null true 1%Z st_unit = Returned (st', Break) /\
     st_lapla st' = [ratio 1 1000]).
Proof.
  destruct (lapla_floor (F:=spec_float) SFltb_irrefl)
    as (_ & Hestep & Hcont & Hbreak & _).
  split; [|split].
  - exact (Hestep p_unit st_unit eq_refl).
  - eexists. split; [vm_compute; reflexivity|].
    refine (Hcont p_unit true 1%Z st_unit _ eq_refl eq_refl eq_refl _).
    vm_compute. reflexivity.
  - eexists. split; [vm_compute; reflexivity|].
    refine (Hbreak p_null true 1%Z st_unit _ eq_refl _).
    vm_compute. reflexivity.
Defined.

(** C9 as stated fails on floats: every product is rounded.  With
    LPsi = 1/3 (as a float), LPsiL = lapla = 1, x = 7 and c = 3 the
    reciprocal iLPsiL is 0.5; on c*x = 21 the kernel returns the float
    3.5 = 14680064 * 2^-22, and c times what it returns on x is
    14680065 * 2^-22. *)
Lemma estimateZ_not_linear_on_floats :
  let z := fun x =>
    k_z (approx_estimateZ 1 1 x [ratio 1 3] [of_Z 1] (of_Z 0) (of_Z 1) bufs) !!! O in
  z (map (fmul (of_Z 3)) [of_Z 7]) = S754_finite false 14680064 (-22) /\
  of_Z 3 * z [of_Z 7] = S754_finite false 14680065 (-22) /\
  feq (z (map (fmul (of_Z 3)) [of_Z 7])) (of_Z 3 * z [of_Z 7]) = false.
Proof.
  cbv zeta. split; [vm_compute; reflexivity|]. split; vm_compute; reflexivity.
Qed.

End FloatRuns.

(** ** The phases on concrete runs *)

Section PhaseRuns.

Import QcArith Example.
Local Open Scope fl_scope.

(** In the runs with one thread every task is run by thread 0. *)
Lemma one_thread (l : nat) : forall j, j < l -> omp_get_thread_num j < 1.
Proof. intros j _. simpl. lia. Qed.

(** X1 on a sample with two features: sum1[1,0] grows by x[1]*z[0]. *)
Lemma estimateZ_sum1_witness :
  exists s1',
    k_sum1 (approx_estimateZ 2 1 [q 3 1; q 1 1] [q 1 2; q 1 3] [q 1 1]
              (q 1 1) (q 1 1) bufs_acc) = Some s1' /\
    s1' !!! 1%nat =
      q 7 1 + q 1 1 * posterior_mean 2 1 [q 3 1; q 1 1] [q 1 2; q 1 3] [q 1 1]
                        [q 1 1] O.
Proof.
  destruct (estimateZ_sum1 2 1 [q 3 1; q 1 1] [q 1 2; q 1 3] [q 1 1] (q 1 1) (q 1 1)
    bufs_acc _ _ eq_refl eq_refl eq_refl eq_refl eq_refl eq_refl) as (s1' & E & _ & H).
  exists s1'. split; [exact E|]. exact (H 1%nat O (le_n 2) (le_n 1)).
Defined.

(** X2 on the same call: sum2[0,0] grows by z[0]^2 + iLPsiL[0]. *)
Lemma estimateZ_sum2_witness :
  exists s2',
    k_sum2 (approx_estimateZ 2 1 [q 3 1; q 1 1] [q 1 2; q 1 3] [q 1 1]
              (q 1 1) (q 1 1) bufs_acc) = Some s2' /\
    s2' !!! O =
      q 2 1 +
      posterior_mean 2 1 [q 3 1; q 1 1] [q 1 2; q 1 3] [q 1 1] [q 1 1] O *
      posterior_mean 2 1 [q 3 1; q 1 1] [q 1 2; q 1 3] [q 1 1] [q 1 1] O +
      precision [q 1 1] [q 1 1] O.
Proof.
  destruct (estimateZ_sum2 2 1 [q 3 1; q 1 1] [q 1 2; q 1 3] [q 1 1] (q 1 1) (q 1 1)
    bufs_acc _ _ eq_refl eq_refl eq_refl eq_refl eq_refl eq_refl) as (s2' & E & _ & H).
  exists s2'. split; [exact E|]. exact (H O O (le_n 1) (le_n 1)).
Defined.

(** X3 on the same call. *)
Lemma estimateZ_variational_witness :
  let z := posterior_mean 2 1 [q 3 1; q 1 1] [q 1 2; q 1 3] [q 1 1] [q 1 1] O in
  let b' := approx_estimateZ 2 1 [q 3 1; q 1 1] [q 1 2; q 1 3] [q 1 1]
              (q 1 1) (q 1 1) bufs_acc in
  k_iLPsiL b' !!! O = precision [q 1 1] [q 1 1] O + z * z /\
  k_lapla b' !!! O = variational (q 1 1) (q 1 1) (precision [q 1 1] [q 1 1] O) z.
Proof.
  exact (estimateZ_variational 2 1 [q 3 1; q 1 1] [q 1 2; q 1 3] [q 1 1] (q 1 1) (q 1 1)
    bufs_acc (mk_is_Some _ _ eq_refl) (mk_is_Some _ _ eq_refl)
    eq_refl eq_refl eq_refl eq_refl O (le_n 1)).
Defined.

(** X5 on two features and two samples: XX[1] = (2^2 + 4^2)/2. *)
Lemma compute_XX_mean_square_witness :
  compute_XX 2 2 [q 1 1; q 2 1; q 3 1; q 4 1] [q 9 1; q 9 1] !!! 1%nat =
  mean_square 2 2 [q 1 1; q 2 1; q 3 1; q 4 1] 1.
Proof.
  exact (proj2 (compute_XX_mean_square 2 2 [q 1 1; q 2 1; q 3 1; q 4 1]
    [q 9 1; q 9 1] eq_refl) 1%nat (le_n 2)).
Defined.

(** X6 on two features and one factor. *)
Lemma prelude_entries_witness :
  (prelude 2 1 [q 2 1; q 3 1] [q 1 1; q 2 1] ([q 0 1; q 0 1], [q 0 1])).1 !!! 1%nat =
    q 3 1 / q 2 1 /\
  (prelude 2 1 [q 2 1; q 3 1] [q 1 1; q 2 1] ([q 0 1; q 0 1], [q 0 1])).2 !!! O =
    weighted_norm 2 [q 2 1; q 3 1] [q 1 1; q 2 1] O.
Proof.
  destruct (prelude_entries 2 1 [q 2 1; q 3 1] [q 1 1; q 2 1] [q 0 1; q 0 1] [q 0 1]
    eq_refl eq_refl) as (_ & _ & H1 & H2).
  split; [exact (H1 O 1%nat (le_n 1) (le_n 2)) | exact (H2 O (le_n 1))].
Defined.

(** X7 on two threads with buffers of two cells. *)
Lemma reduce_threads_witness :
  reduce 2 2 [q 1 1; q 2 1; q 10 1; q 20 1] !!! O =
    reduced_cell 2 2 [q 1 1; q 2 1; q 10 1; q 20 1] O /\
  reduce 2 2 [q 1 1; q 2 1; q 10 1; q 20 1] !!! 3%nat = q 20 1.
Proof.
  destruct (reduce_threads 2 2 [q 1 1; q 2 1; q 10 1; q 20 1]
    ltac:(simpl; lia) ltac:(lia)) as (_ & H1 & H2 & _).
  split; [exact (H1 O ltac:(lia)) | exact (H2 3%nat ltac:(lia))].
Defined.

(** X8 on one column of two entries. *)
Lemma rescale_columns_witness :
  (rescale 2 1 1 (q 1 1) ([q 3 1; q 4 1], [q 1 1])).1 !!! 1%nat =
    q 4 1 * column_scale 2 [q 3 1; q 4 1] O.
Proof.
  destruct (rescale_columns 2 1 1 (q 1 1) [q 3 1; q 4 1] [q 1 1] eq_refl eq_refl)
    as (_ & _ & H & _).
  exact (H O 1%nat (le_n 1) (le_n 2)).
Defined.

(** X9 on two columns, the first all zero. *)
Lemma reset_columns_witness :
  let r := reset 2 2 1 ([q 0 1; q 0 1; q 1 1; q 2 1], [q 5 1; q 6 1], O, O) in
  r.2 = dead_columns 2 [q 0 1; q 0 1; q 1 1; q 2 1] 2 /\
  r.1.1.1 !!! 1%nat = rand_normal 1 /\ r.1.1.1 !!! 3%nat = q 2 1 /\
  r.1.1.2 !!! O = q 1 1 /\ r.1.1.2 !!! 1%nat = q 6 1.
Proof.
  destruct (reset_columns 2 2 1 [q 0 1; q 0 1; q 1 1; q 2 1] [q 5 1; q 6 1] O
    eq_refl eq_refl) as (_ & _ & Hn & _ & HL & Hla).
  split; [exact Hn|]. split; [|split; [|split]].
  - exact (HL O 1%nat ltac:(lia) ltac:(lia)).
  - exact (HL 1%nat 1%nat ltac:(lia) ltac:(lia)).
  - exact (Hla O O ltac:(lia) ltac:(lia)).
  - exact (Hla 1%nat O ltac:(lia) ltac:(lia)).
Defined.

(** X10 on the same arrays. *)
Lemma reset_revives_witness :
  isZero 2 (reset 2 2 1 ([q 0 1; q 0 1; q 1 1; q 2 1], [q 5 1; q 6 1], O, O)).1.1.1 O
    = false.
Proof.
  apply (reset_revives 2 2 1 [q 0 1; q 0 1; q 1 1; q 2 1] [q 5 1; q 6 1] O
    eq_refl eq_refl ltac:(lia) (fun _ => eq_refl) O). lia.
Defined.

(** X11 on an E-step with two samples, run by two threads. *)
Lemma estep_phase_update_witness :
  let z := expected_z 1 1 [q 1 1; q 2 1] [q 1 1] [q 1 1] [q 1 1; q 1 1] 1 O in
  st_Z (estep_phase (ext:=ext_two) p_two st_two) !!! 1%nat = z /\
  st_lapla (estep_phase (ext:=ext_two) p_two st_two) !!! 1%nat =
    variational (q 1 1) (q 1 1)
      (sample_precision 1 1 [q 1 1] [q 1 1] [q 1 1; q 1 1] 1 O) z.
Proof.
  exact (estep_phase_update (ext:=ext_two) p_two st_two (fun j Hj => Hj)
    eq_refl eq_refl eq_refl eq_refl eq_refl eq_refl 1%nat O (le_n 2) (le_n 1)).
Defined.

(** X12 on a state with t = 1 >= eps. *)
Lemma final_pass_Z_witness :
  last_update p_scaled true st_done = Returned r_done /\
  r_Z r_done !!! O =
    expected_z 1 1 [q 1 1] (r_L r_done) (r_Psi r_done) (r_lapla r_done) O O.
Proof.
  assert (E : last_update p_scaled true st_done = Returned r_done)
    by (vm_compute; reflexivity).
  split; [exact E|].
  exact (proj1 (final_pass_Z p_scaled true st_done r_done (one_thread 1) eq_refl
    eq_refl eq_refl eq_refl eq_refl eq_refl E) eq_refl O O (le_n 1) (le_n 1)).
Defined.

(** X13 on the first M-step of the run with X = 1. *)
Lemma mstep_update_witness :
  st_L st_scaled_M !!! O =
    shrink_entry (q 1 1) (q 0 1) (q 0 1)
      (gemm_entry 1 1 (st_sum1_ (estep_phase p_scaled st_scaled))
         (st_sum2_ st_scaled_M) O O) /\
  st_t st_scaled_M =
    max_abs_residual 1 1 (st_L st_scaled_M) (st_sum1_ (estep_phase p_scaled st_scaled)).
Proof.
  assert (E : mstep_phase p_scaled (estep_phase p_scaled st_scaled) = Returned st_scaled_M)
    by (vm_compute; reflexivity).
  destruct (mstep_update p_scaled (estep_phase p_scaled st_scaled) st_scaled_M
    eq_refl eq_refl E) as (_ & HL & _ & Ht & _).
  split; [exact (HL O O (le_n 1) (le_n 1)) | exact Ht].
Defined.

(** X14 on the run with X = 1, one cycle and verbose = 1. *)
Lemma engine_output_witness :
  exists evs, r_out r_engine = evs ++ [Timing_report] /\
    Forall (loop_event 1 (q 1 1000) 1%Z 1%Z 1%Z) evs.
Proof.
  assert (E : approx_fabia_cm_f 1 1 1 [q 1 1] [q 1 1] [q 1 1] [q 0 1] [q 1 1] 1%Z
      (q 0 1) (q 1 1000) (q 0 1) (q 1 1) 1%Z (q 1 1) 1%Z 1 scratch = Returned r_engine)
    by (vm_compute; reflexivity).
  destruct (proj2 (engine_output 1 1 1 [q 1 1] [q 1 1] [q 1 1] [q 0 1] [q 1 1] 1%Z
    (q 0 1) (q 1 1000) (q 0 1) (q 1 1) 1%Z (q 1 1) 1%Z 1 scratch r_engine E)
    ltac:(discriminate)) as (evs & Hout & Hevs & _).
  exists evs. split; assumption.
Defined.

(** X15 on the same run. *)
Lemma engine_sizes_witness :
  sized 1 1 1 (r_Psi r_engine) (r_L r_engine) (r_Z r_engine) (r_lapla r_engine).
Proof.
  apply (engine_sizes 1 1 1 [q 1 1] [q 1 1] [q 1 1] [q 0 1] [q 1 1] 1%Z
    (q 0 1) (q 1 1000) (q 0 1) (q 1 1) 1%Z (q 1 1) 1%Z 1 scratch r_engine).
  - unfold sized. simpl. auto.
  - vm_compute. reflexivity.
Defined.

(** X16 with cyc = -3. *)
Lemma cyc_nonpositive_witness :
  approx_fabia_cm_f 1 1 1 [q 1 1] [q 1 1] [q 1 1] [q 5 1] [q 1 1] (-3)%Z
    (q 0 1) (q 1 1000) (q 0 1) (q 1 1) 1%Z (q 1 1) 0%Z 1 scratch =
  approx_fabia_cm_f 1 1 1 [q 1 1] [q 1 1] [q 1 1] [q 5 1] [q 1 1] 0%Z
    (q 0 1) (q 1 1000) (q 0 1) (q 1 1) 1%Z (q 1 1) 0%Z 1 scratch.
Proof.
  apply (cyc_nonpositive 1 1 1 [q 1 1] [q 1 1] [q 1 1] [q 5 1] [q 1 1] (-3)%Z).
  lia.
Defined.

(** X17 with sum1_ NULL and one cycle. *)
Lemma unchecked_allocations_witness :
  approx_fabia_cm_f 1 1 1 [q 1 1] [q 1 1] [q 1 1] [q 0 1] [q 1 1] 1%Z
    (q 0 1) (q 1 1000) (q 0 1) (q 1 1) 1%Z (q 1 1) 0%Z 1 scratch_no_sum1 = NullDeref.
Proof.
  apply (unchecked_allocations 1 1 1 [q 1 1] [q 1 1] [q 1 1] [q 0 1] [q 1 1] 1%Z).
  - discriminate.
  - right. right. split; [lia | left; reflexivity].
Defined.

(** X18 with the last allocation failed. *)
Lemma out_of_memory_zeroes_witness :
  approx_fabia_cm_f 1 1 1 [q 1 1] [q 1 1] [q 1 1] [q 5 1] [q 1 1] 1%Z
    (q 0 1) (q 1 1000) (q 0 1) (q 1 1) 1%Z (q 1 1) 0%Z 1 scratch_no_last =
  Returned (Result [q 1 1] [q 0 1] [q 0 1] [q 1 1] [Out_of_memory]).
Proof.
  exact (out_of_memory_zeroes 1 1 1 [q 1 1] [q 1 1] [q 1 1] [q 5 1] [q 1 1] 1%Z
    (q 0 1) (q 1 1000) (q 0 1) (q 1 1) 1%Z (q 1 1) 0%Z 1 scratch_no_last
    eq_refl eq_refl eq_refl).
Defined.


(** X20 on two entries of opposite sign. *)
Lemma shrink_alpha0_witness :
  shrink 2 1 [q 1 1; q 1 1] (q 0 1) (q 1 1) [q 3 1; q (-4) 1] = [q 3 1; q (-4) 1].
Proof.
  exact (shrink_alpha0 2 1 [q 1 1; q 1 1] (q 1 1) [q 3 1; q (-4) 1] eq_refl).
Defined.

(** X21 on the entry s = -3 with Psi = 1, alpha = 1/2, spl = 0. *)
Lemma shrink_towards_zero_witness :
  q (-3) 1 <=! shrink 1 1 [q 1 1] (q 1 2) (q 0 1) [q (-3) 1] !!! O /\
  shrink 1 1 [q 1 1] (q 1 2) (q 0 1) [q (-3) 1] !!! O <=! 0.
Proof.
  destruct (shrink_towards_zero 1 1 [q 1 1] (q 1 2) (q 0 1) [q (-3) 1] O O
    eq_refl (le_n 1) (le_n 1)) as (_ & Hneg & _).
  apply Hneg. reflexivity.
Defined.

(** X22 on the run with X = 1: |d| = 1/2 >= eps. *)
Lemma no_collapse_continue_witness :
  em_iteration p_scaled true 1%Z st_scaled =
    Returned (tail_phase p_scaled 1%Z st_scaled_M, Continue).
Proof.
  assert (E : mstep_phase p_scaled (estep_phase p_scaled st_scaled) = Returned st_scaled_M)
    by (vm_compute; reflexivity).
  refine (proj1 (proj2 (no_collapse_continue p_scaled 1%Z st_scaled st_scaled_M
    eq_refl E _))).
  exists O. split; [simpl; lia | vm_compute; reflexivity].
Defined.

(** X23 on the column L = 2: m = 4, r = 2. *)
Lemma rescale_unit_mean_square_witness :
  let q0 := fsqrt (column_mean_square 1 [q 2 1] O) * column_scale 1 [q 2 1] O in
  column_mean_square 1 (rescale 1 1 1 (q 1 1) ([q 2 1], [q 1 1])).1 O = q0 * q0 /\
  0 <=! q0 /\ q0 <! 1.
Proof.
  destruct (rescale_unit_mean_square 1 1 1 (q 1 1) [q 2 1] [q 1 1] O
    eq_refl eq_refl (le_n 1)) as (H1 & H2 & H3 & _).
  - apply Qc_is_canon. vm_compute. reflexivity.
  - vm_compute. reflexivity.
  - split; [exact H1|]. split; [exact H2 | exact H3].
Defined.


(** X25 on the E-step with two samples and two threads: sum1 = 1*Z[0] +
    2*Z[1], the two products being accumulated by different threads. *)
Lemma sum1_statistic_witness :
  st_sum1_ (estep_phase (ext:=ext_two) p_two st_two) !!! O =
  fsum 2 (fun j => [q 1 1; q 2 1] !!! (1 * j + 0)%nat *
                   st_Z (estep_phase (ext:=ext_two) p_two st_two) !!! (j * 1 + 0)%nat).
Proof.
  exact (sum1_statistic (ext:=ext_two) p_two st_two O O (le_S _ _ (le_n 1))
    (fun j Hj => Hj) eq_refl eq_refl eq_refl eq_refl (le_n 1) (le_n 1)).
Defined.

(** X26 on the same E-step. *)
Lemma sum2_statistic_witness :
  st_sum2_ (estep_phase (ext:=ext_two) p_two st_two) !!! O =
  q 1 1000 +
  fsum 2 (fun j =>
    st_Z (estep_phase (ext:=ext_two) p_two st_two) !!! (j * 1 + 0)%nat *
    st_Z (estep_phase (ext:=ext_two) p_two st_two) !!! (j * 1 + 0)%nat +
    sample_precision 1 1 [q 1 1] [q 1 1] [q 1 1; q 1 1] j O).
Proof.
  exact (sum2_statistic (ext:=ext_two) p_two st_two O O (le_S _ _ (le_n 1))
    (fun j Hj => Hj) eq_refl eq_refl eq_refl eq_refl eq_refl eq_refl (le_n 1) (le_n 1)).
Defined.

End PhaseRuns.
